(** * A shallow embedding of the CPU ray tracer's computational core

    The development follows the C++ sources: the axis-aligned bounding boxes
    of [BoundingVolume.h], the rays of [Ray.h], the intersection routines of
    [Sphere.h] and [TriangleMesh.h], the hierarchy of [BVH.h], the stochastic
    integrator of [Renderer.cpp] and the temporal pass of [Denoiser.h].

    Numbers.  A C++ [float] or [double] is idealised as an exact rational:
    rounding and signed zeros are not modelled.  The special values the code
    relies on are kept: the slabs of a box range over [ext] (a rational or one
    of the two infinities), and the result of an operation that IEEE-754
    leaves undefined (infinity minus infinity, zero times infinity) is the
    not-a-number value [NaN] of [xfloat].  Every comparison with [NaN] is
    false, as in C++.

    Integers.  The [int] arithmetic of the frame-buffer index and size and
    of the mesh constructor's loop index and id counter is written out with
    its 32-bit wrap-around ([int_add], [int_mul]); the pixel coordinates of
    the temporal pass are unbounded integers. *)

From Stdlib Require Import QArith Qminmax Qabs ZArith List Bool Lia Lqa QNsatz.
From Stdlib Require Import Permutation Sorted.
Import ListNotations.

Open Scope Q_scope.

(* ================================================================= *)
(** ** Scalars *)

Definition Qltb (a b : Q) : bool := negb (Qle_bool b a).

(** A float that is not NaN. *)
Inductive ext : Type :=
| NInf : ext
| Fin : Q -> ext
| PInf : ext.

(** A float; [None] is NaN. *)
Definition xfloat : Type := option ext.
Definition NaN : xfloat := None.
Definition finite (q : Q) : xfloat := Some (Fin q).

Definition ext_ltb (a b : ext) : bool :=
  match a, b with
  | NInf, NInf => false
  | NInf, _ => true
  | Fin _, NInf => false
  | Fin p, Fin q => Qltb p q
  | Fin _, PInf => true
  | PInf, _ => false
  end.

Definition ext_leb (a b : ext) : bool := negb (ext_ltb b a).

(** Equality of floats as [==] sees it on values that are not NaN. *)
Definition ext_eq (a b : ext) : Prop :=
  match a, b with
  | NInf, NInf => True
  | Fin p, Fin q => p == q
  | PInf, PInf => True
  | _, _ => False
  end.

Definition ext_opp (a : ext) : ext :=
  match a with
  | NInf => PInf
  | Fin q => Fin (- q)
  | PInf => NInf
  end.

Definition ext_add (a b : ext) : xfloat :=
  match a, b with
  | Fin p, Fin q => Some (Fin (p + q))
  | PInf, NInf | NInf, PInf => None
  | PInf, _ | _, PInf => Some PInf
  | NInf, _ | _, NInf => Some NInf
  end.

(** The sign of a float that is not NaN, as an infinity of that sign;
    [None] for zero. *)
Definition ext_sign (a : ext) : option ext :=
  match a with
  | NInf => Some NInf
  | PInf => Some PInf
  | Fin q => if Qltb 0 q then Some PInf
             else if Qltb q 0 then Some NInf else None
  end.

Definition ext_mul (a b : ext) : xfloat :=
  match a, b with
  | Fin p, Fin q => Some (Fin (p * q))
  | _, _ =>
      match ext_sign a, ext_sign b with
      | Some PInf, Some s | Some s, Some PInf => Some s
      | Some NInf, Some s => Some (ext_opp s)
      | _, _ => None
      end
  end.

Definition f_lift2 (op : ext -> ext -> xfloat) (a b : xfloat) : xfloat :=
  match a, b with
  | Some u, Some v => op u v
  | _, _ => None
  end.

Definition f_add : xfloat -> xfloat -> xfloat := f_lift2 ext_add.
Definition f_sub : xfloat -> xfloat -> xfloat :=
  f_lift2 (fun u v => ext_add u (ext_opp v)).
Definition f_mul : xfloat -> xfloat -> xfloat := f_lift2 ext_mul.

(** The C++ comparison operators on floats. *)
Definition f_lt (a b : xfloat) : bool :=
  match a, b with
  | Some u, Some v => ext_ltb u v
  | _, _ => false
  end.

Definition f_le (a b : xfloat) : bool :=
  match a, b with
  | Some u, Some v => ext_leb u v
  | _, _ => false
  end.

Definition f_gt (a b : xfloat) : bool := f_lt b a.
Definition f_ge (a b : xfloat) : bool := f_le b a.

(** [std::max(a, b)] is [(a < b) ? b : a] and [std::min(a, b)] is
    [(b < a) ? b : a]. *)
Definition std_max (a b : xfloat) : xfloat := if f_lt a b then b else a.
Definition std_min (a b : xfloat) : xfloat := if f_lt b a then b else a.

(** [1.0f / d]: dividing by zero gives an infinity. *)
Definition reciprocal (d : Q) : ext :=
  if Qeq_bool d 0 then PInf else Fin (/ d).

(** Division of floats that are not NaN: a finite value over an infinity is
    zero, a value that is not zero over zero is the infinity of its sign,
    and zero over zero and an infinity over an infinity are NaN. *)
Definition ext_div (a b : ext) : xfloat :=
  match a, b with
  | Fin p, Fin q => if Qeq_bool q 0 then ext_sign a else Some (Fin (p / q))
  | Fin _, _ => Some (Fin 0)
  | _, Fin q => if Qltb q 0 then Some (ext_opp a) else Some a
  | _, _ => None
  end.

Definition f_div : xfloat -> xfloat -> xfloat := f_lift2 ext_div.

(* ================================================================= *)
(** ** The type [int] *)

(** The least and the greatest [int], of 32 bits. *)
Definition INT_MIN : Z := (- 2 ^ 31)%Z.
Definition INT_MAX : Z := (2 ^ 31 - 1)%Z.

(** Arithmetic on [int] is taken to wrap around, as the two's complement
    machine does; for C++ the overflow of an [int] is undefined. *)
Definition int_wrap (z : Z) : Z := ((z + 2 ^ 31) mod 2 ^ 32 - 2 ^ 31)%Z.
Definition int_add (a b : Z) : Z := int_wrap (a + b).
Definition int_mul (a b : Z) : Z := int_wrap (a * b).

(* ================================================================= *)
(** ** Vectors *)

Record tvec3 (A : Type) : Type := mkvec3 { vx : A; vy : A; vz : A }.
Arguments mkvec3 {A} _ _ _.
Arguments vx {A} _.
Arguments vy {A} _.
Arguments vz {A} _.

(** [glm::vec3] holding finite values, holding values that are not NaN,
    and holding any float. *)
Definition vec3 : Type := tvec3 Q.
Definition evec3 : Type := tvec3 ext.
Definition xvec3 : Type := tvec3 xfloat.

Definition vmap {A B : Type} (f : A -> B) (v : tvec3 A) : tvec3 B :=
  mkvec3 (f (vx v)) (f (vy v)) (f (vz v)).

Definition vzip {A B C : Type} (f : A -> B -> C) (u : tvec3 A) (v : tvec3 B)
  : tvec3 C :=
  mkvec3 (f (vx u) (vx v)) (f (vy u) (vy v)) (f (vz u) (vz v)).

Definition fin3 (v : vec3) : evec3 := vmap Fin v.
Definition some3 (v : evec3) : xvec3 := vmap (@Some ext) v.
Definition point (v : vec3) : xvec3 := some3 (fin3 v).

Definition vadd (u v : vec3) : vec3 := vzip Qplus u v.
Definition vsub (u v : vec3) : vec3 := vzip Qminus u v.
Definition vmul (u v : vec3) : vec3 := vzip Qmult u v.
Definition vneg (u : vec3) : vec3 := vmap Qopp u.
Definition vscale (k : Q) (u : vec3) : vec3 := vmap (Qmult k) u.
Definition vscale_r (u : vec3) (k : Q) : vec3 := vmap (fun c => c * k) u.
Definition vdiv (u : vec3) (k : Q) : vec3 := vmap (fun c => c / k) u.
Definition vadd_scalar (u : vec3) (k : Q) : vec3 := vmap (fun c => c + k) u.
Definition vsub_scalar (u : vec3) (k : Q) : vec3 := vmap (fun c => c - k) u.

Definition dot (u v : vec3) : Q :=
  vx u * vx v + vy u * vy v + vz u * vz v.

Definition cross (u v : vec3) : vec3 :=
  mkvec3 (vy u * vz v - vy v * vz u)
         (vz u * vx v - vz v * vx u)
         (vx u * vy v - vx v * vy u).

Definition vzero : vec3 := mkvec3 0 0 0.

Definition veq (u v : vec3) : Prop :=
  vx u == vx v /\ vy u == vy v /\ vz u == vz v.

(* ================================================================= *)
(** ** Rays ([Ray.h]) *)

(** [std::numeric_limits<double>::max()]. *)
Definition DBL_MAX : Q := inject_Z ((2 ^ 53 - 1) * 2 ^ 971).

Record Ray : Type := mkRay {
  m_origin : vec3;
  m_direction : vec3;
  direction_reciprocal : evec3;
  t_min : Q;
  t_max : Q
}.

(** The constructor [Ray(origin, direction)]. *)
Definition Ray_ctor (origin direction : vec3) : Ray :=
  {| m_origin := origin;
     m_direction := direction;
     direction_reciprocal := vmap reciprocal direction;
     t_min := 0;
     t_max := DBL_MAX |}.

(** [ray(t)], the point at parameter [t]. *)
Definition Ray_at (ray : Ray) (t : Q) : vec3 :=
  vadd (m_origin ray) (vscale t (m_direction ray)).

(* ================================================================= *)
(** ** Axis-aligned boxes ([BoundingVolume.h]) *)

Inductive Axis : Type := X_axis | Y_axis | Z_axis.

Record AABB_3D : Type := mkAABB {
  min_slab_values : evec3;
  max_slab_values : evec3
}.

Module AABB.

(** [AABB_3D()], the box that contains nothing. *)
Definition empty : AABB_3D :=
  {| min_slab_values := mkvec3 PInf PInf PInf;
     max_slab_values := mkvec3 NInf NInf NInf |}.

(** [AABB_3D(point)]. *)
Definition of_point (p : evec3) : AABB_3D :=
  {| min_slab_values := p; max_slab_values := p |}.

(** [std::fmin] and [std::fmax] on values that are not NaN. *)
Definition fmin (a b : ext) : ext := if ext_ltb b a then b else a.
Definition fmax (a b : ext) : ext := if ext_ltb a b then b else a.

(** [AABB_3D(point_1, point_2)]. *)
Definition of_points (p1 p2 : evec3) : AABB_3D :=
  {| min_slab_values := vzip fmin p1 p2;
     max_slab_values := vzip fmax p1 p2 |}.

Definition contains_point (b : AABB_3D) (p : xvec3) : bool :=
  let lo := some3 (min_slab_values b) in
  let hi := some3 (max_slab_values b) in
  (f_le (vx lo) (vx p) && f_le (vx p) (vx hi))
  && (f_le (vy lo) (vy p) && f_le (vy p) (vy hi))
  && (f_le (vz lo) (vz p) && f_le (vz p) (vz hi)).

Definition intersects_with_3D_AABB (b box : AABB_3D) : bool :=
  let lo := min_slab_values b in
  let hi := max_slab_values b in
  let blo := min_slab_values box in
  let bhi := max_slab_values box in
  (ext_leb (vx blo) (vx hi) && ext_leb (vx lo) (vx bhi))
  && (ext_leb (vy blo) (vy hi) && ext_leb (vy lo) (vy bhi))
  && (ext_leb (vz blo) (vz hi) && ext_leb (vz lo) (vz bhi)).

Definition center_vector (b : AABB_3D) : xvec3 :=
  vmap (f_mul (finite (1 # 2)))
       (vzip ext_add (max_slab_values b) (min_slab_values b)).

Definition diagonal_vector (b : AABB_3D) : xvec3 :=
  vzip (fun hi lo => ext_add hi (ext_opp lo))
       (max_slab_values b) (min_slab_values b).

Definition longest_axis (b : AABB_3D) : Axis :=
  let diagonal := diagonal_vector b in
  if f_gt (vx diagonal) (vy diagonal) && f_gt (vx diagonal) (vz diagonal)
  then X_axis
  else if f_gt (vy diagonal) (vz diagonal)
  then Y_axis
  else Z_axis.

(** [glm::min(x, y)] is [(y < x) ? y : x] and [glm::max(x, y)] is
    [(x < y) ? y : x], on each component. *)
Definition glm_min (x : ext) (y : xfloat) : ext :=
  match y with
  | Some v => if ext_ltb v x then v else x
  | None => x
  end.

Definition glm_max (x : ext) (y : xfloat) : ext :=
  match y with
  | Some v => if ext_ltb x v then v else x
  | None => x
  end.

Definition Union_with_point (b : AABB_3D) (p : xvec3) : AABB_3D :=
  {| min_slab_values := vzip glm_min (min_slab_values b) p;
     max_slab_values := vzip glm_max (max_slab_values b) p |}.

Definition Union_with_3D_AABB (b box : AABB_3D) : AABB_3D :=
  {| min_slab_values :=
       vzip glm_min (min_slab_values b) (some3 (min_slab_values box));
     max_slab_values :=
       vzip glm_max (max_slab_values b) (some3 (max_slab_values box)) |}.

(** One slab distance, [(slab - origin) * reciprocal]. *)
Definition slab_distance (slab : ext) (origin : Q) (r : ext) : xfloat :=
  f_mul (f_sub (Some slab) (finite origin)) (Some r).

Definition intersects_with_ray
    (b : AABB_3D) (ray : Ray) (ray_direction_reciprocal : evec3)
    (ray_direction_is_negative : bool * bool * bool) : bool :=
  let '(neg_x, neg_y, neg_z) := ray_direction_is_negative in
  let lo := min_slab_values b in
  let hi := max_slab_values b in
  let o := m_origin ray in
  let r := ray_direction_reciprocal in
  let t_in_x := slab_distance (vx lo) (vx o) (vx r) in
  let t_in_y := slab_distance (vy lo) (vy o) (vy r) in
  let t_in_z := slab_distance (vz lo) (vz o) (vz r) in
  let t_out_x := slab_distance (vx hi) (vx o) (vx r) in
  let t_out_y := slab_distance (vy hi) (vy o) (vy r) in
  let t_out_z := slab_distance (vz hi) (vz o) (vz r) in
  let swap_x := t_in_x in
  let t_in_x := if neg_x then t_out_x else t_in_x in
  let t_out_x := if neg_x then swap_x else t_out_x in
  let swap_y := t_in_y in
  let t_in_y := if neg_y then t_out_y else t_in_y in
  let t_out_y := if neg_y then swap_y else t_out_y in
  let swap_z := t_in_z in
  let t_in_z := if neg_z then t_out_z else t_in_z in
  let t_out_z := if neg_z then swap_z else t_out_z in
  let t_in := std_max t_in_x (std_max t_in_y t_in_z) in
  let t_out := std_min t_out_x (std_min t_out_y t_out_z) in
  if f_ge t_out (finite 0) && f_le t_in t_out then true else false.

(** The flags [traverse_BVH_from_node] passes for a ray. *)
Definition direction_is_negative (ray : Ray) : bool * bool * bool :=
  let d := m_direction ray in
  (Qltb (vx d) 0, Qltb (vy d) 0, Qltb (vz d) 0).

(** Equality of boxes, slab by slab. *)
Definition evec3_eq (u v : evec3) : Prop :=
  ext_eq (vx u) (vx v) /\ ext_eq (vy u) (vy v) /\ ext_eq (vz u) (vz v).

Definition eq (a b : AABB_3D) : Prop :=
  evec3_eq (min_slab_values a) (min_slab_values b)
  /\ evec3_eq (max_slab_values a) (max_slab_values b).

(** [Intersection_with_3D_AABB]: the two-point constructor, given the
    lesser of the two upper corners and the greater of the two lower ones. *)
Definition Intersection_with_3D_AABB (b box : AABB_3D) : AABB_3D :=
  of_points (vzip fmin (max_slab_values b) (max_slab_values box))
            (vzip fmax (min_slab_values b) (min_slab_values box)).

(** [scaled_by_the_box], one component: the offset from the lower plane,
    divided by the extent when the extent is positive. *)
Definition scaled_component (lo hi : ext) (p : xfloat) : xfloat :=
  let relative := f_sub p (Some lo) in
  if ext_ltb lo hi
  then f_div relative (f_sub (Some hi) (Some lo))
  else relative.

Definition scaled_by_the_box (b : AABB_3D) (p : xvec3) : xvec3 :=
  let lo := min_slab_values b in
  let hi := max_slab_values b in
  mkvec3 (scaled_component (vx lo) (vx hi) (vx p))
         (scaled_component (vy lo) (vy hi) (vy p))
         (scaled_component (vz lo) (vz hi) (vz p)).

Definition total_area (b : AABB_3D) : xfloat :=
  let diagonal := diagonal_vector b in
  f_mul
    (f_add
       (f_add (f_mul (vx diagonal) (vy diagonal))
              (f_mul (vy diagonal) (vz diagonal)))
       (f_mul (vx diagonal) (vz diagonal)))
    (finite 2).

End AABB.

(** A box with finite corners. *)
Definition box_of (lo hi : vec3) : AABB_3D :=
  {| min_slab_values := fin3 lo; max_slab_values := fin3 hi |}.

(** [u] is below [v] on every axis. *)
Definition vle (u v : vec3) : Prop :=
  vx u <= vx v /\ vy u <= vy v /\ vz u <= vz v.

Definition vlt (u v : vec3) : Prop :=
  vx u < vx v /\ vy u < vy v /\ vz u < vz v.

(** ** Reading a box axis by axis *)

Definition axis_component {A : Type} (a : Axis) (v : tvec3 A) : A :=
  match a with
  | X_axis => vx v
  | Y_axis => vy v
  | Z_axis => vz v
  end.

(** The value of the enumerator. *)
Definition axis_index (a : Axis) : nat :=
  match a with
  | X_axis => 0
  | Y_axis => 1
  | Z_axis => 2
  end.

Definition extent (b : AABB_3D) (a : Axis) : xfloat :=
  axis_component a (AABB.diagonal_vector b).

(** No component of the diagonal is NaN. *)
Definition diagonal_defined (b : AABB_3D) : Prop :=
  forall a, extent b a <> NaN.

(** The box that contains everything. *)
Definition AABB_everything : AABB_3D :=
  {| min_slab_values := mkvec3 NInf NInf NInf;
     max_slab_values := mkvec3 PInf PInf PInf |}.

(** Ties for the longest axis go to the axis that comes first in the order
    X, Y, Z: every axis before the chosen one is strictly shorter. *)
Definition ties_broken_X_then_Y_then_Z (b : AABB_3D) : Prop :=
  forall a,
    (axis_index a < axis_index (AABB.longest_axis b))%nat ->
    f_lt (extent b a) (extent b (AABB.longest_axis b)) = true.

(** The unit square in the plane z = 0: X and Y tie for the longest axis. *)
Definition square_box : AABB_3D :=
  AABB.of_points (fin3 (mkvec3 0 0 0)) (fin3 (mkvec3 1 1 0)).

(** The empty box fails the box-box test against every box other than the
    empty box. *)
Definition empty_box_intersects_only_empty : Prop :=
  forall box,
    ~ AABB.eq box AABB.empty ->
    AABB.intersects_with_3D_AABB AABB.empty box = false.

(** [a] lies within [b]: the slabs of [b] enclose those of [a]. *)
Definition AABB_within (a b : AABB_3D) : Prop :=
  forall ax,
    ext_leb (axis_component ax (min_slab_values b))
            (axis_component ax (min_slab_values a)) = true
    /\ ext_leb (axis_component ax (max_slab_values a))
               (axis_component ax (max_slab_values b)) = true.

(** ** The slab test, as the specification words it *)

(** No component of the direction is exactly zero. *)
Definition no_axis_aligned_component (d : vec3) : Prop :=
  ~ vx d == 0 /\ ~ vy d == 0 /\ ~ vz d == 0.

(** The parametric distance from the origin of a ray to a plane of one
    axis: the offset of the plane from the origin, times the reciprocal of
    the direction on that axis. *)
Definition spec_parametric_distance (plane : ext) (origin direction : Q)
  : xfloat :=
  f_mul (f_sub (Some plane) (finite origin)) (finite (/ direction)).

(** Entry and exit on one axis: the distances to the lower and to the upper
    plane of the box, exchanged when the direction is negative on that
    axis. *)
Definition spec_axis_entry_exit (b : AABB_3D) (origin direction : vec3)
    (a : Axis) : xfloat * xfloat :=
  let to_lower :=
    spec_parametric_distance (axis_component a (min_slab_values b))
      (axis_component a origin) (axis_component a direction) in
  let to_upper :=
    spec_parametric_distance (axis_component a (max_slab_values b))
      (axis_component a origin) (axis_component a direction) in
  if Qltb (axis_component a direction) 0
  then (to_upper, to_lower)
  else (to_lower, to_upper).

Definition spec_entries (b : AABB_3D) (origin direction : vec3)
  : list xfloat :=
  map (fun a => fst (spec_axis_entry_exit b origin direction a))
      [X_axis; Y_axis; Z_axis].

Definition spec_exits (b : AABB_3D) (origin direction : vec3)
  : list xfloat :=
  map (fun a => snd (spec_axis_entry_exit b origin direction a))
      [X_axis; Y_axis; Z_axis].

(** ** The slab test, as the code computes it *)

(** The pair the code holds for one axis after its exchange: the two slab
    distances, taken with the reciprocal the ray carries. *)
Definition axis_entry_exit (b : AABB_3D) (ray : Ray) (a : Axis)
  : xfloat * xfloat :=
  let o := axis_component a (m_origin ray) in
  let r := axis_component a (direction_reciprocal ray) in
  let to_lower := AABB.slab_distance (axis_component a (min_slab_values b)) o r in
  let to_upper := AABB.slab_distance (axis_component a (max_slab_values b)) o r in
  if Qltb (axis_component a (m_direction ray)) 0
  then (to_upper, to_lower)
  else (to_lower, to_upper).

Definition axis_entries (b : AABB_3D) (ray : Ray) : list xfloat :=
  map (fun a => fst (axis_entry_exit b ray a)) [X_axis; Y_axis; Z_axis].

Definition axis_exits (b : AABB_3D) (ray : Ray) : list xfloat :=
  map (fun a => snd (axis_entry_exit b ray a)) [X_axis; Y_axis; Z_axis].

Definition is_maximum_of (m : xfloat) (l : list xfloat) : Prop :=
  In m l /\ forall e, In e l -> f_le e m = true.

Definition is_minimum_of (m : xfloat) (l : list xfloat) : Prop :=
  In m l /\ forall e, In e l -> f_le m e = true.

(* ================================================================= *)
(** ** Materials ([WhittedMaterial.h]) *)

(** The macro [PI]. *)
Definition PI : Q := 3141592653589793 # 1000000000000000.

Inductive MaterialNature : Type := Diffuse.

Record WhittedMaterial : Type := mkMaterial {
  m_material_nature : MaterialNature;
  refractive_index : Q;
  diffuse_coefficient : vec3;
  m_diffuse_color : vec3;
  specular_size_factor : Q;
  m_emission : vec3;
  emitting : bool
}.

(** [WhittedMaterial()]: a material that emits nothing. *)
Definition default_material : WhittedMaterial :=
  {| m_material_nature := Diffuse;
     refractive_index := 1;
     diffuse_coefficient := vzero;
     m_diffuse_color := mkvec3 1 1 1;
     specular_size_factor := 0;
     m_emission := vzero;
     emitting := false |}.

Definition IsEmitting (m : WhittedMaterial) : bool := emitting m.
Definition GetEmission (m : WhittedMaterial) : vec3 := m_emission m.

Definition PDF_at_the_sample (m : WhittedMaterial)
    (W_out W_in shading_point_normal : vec3) : Q :=
  1 / (2 * PI).

Definition BRDF (m : WhittedMaterial)
    (W_out W_in shading_point_normal : vec3) : vec3 :=
  if Qle_bool 0 (dot W_in shading_point_normal)
  then vdiv (diffuse_coefficient m) PI
  else vzero.

(* ================================================================= *)
(** ** The random source ([Walnut::Random::Float]) *)

(** The generator is a sequence of draws and the position of the next one. *)
Record RandomSource : Type := mkRandom {
  draws : nat -> Q;
  cursor : nat
}.

Definition get_random_float_0_1 (g : RandomSource) : Q * RandomSource :=
  (draws g (cursor g), {| draws := draws g; cursor := S (cursor g) |}).

(* ================================================================= *)
(** ** Intersection records ([IntersectionRecord.h]) *)

Module IR.

Record IntersectionRecord : Type := mk {
  has_intersection : bool;
  t : Q;
  location : vec3;
  surface_normal : vec3;
  (** [Entity*]: the address of the entity, [None] for [nullptr]. *)
  hitted_entity : option nat;
  hitted_entity_material : option WhittedMaterial;
  (** Modelled from the spec: the members [emission] and [primitive_id]
      that the denoising renderer and its triangles read and write; the
      header of that version is not among the sources.  A record starts
      with no emission and with the identity -1 of "no primitive". *)
  emission : vec3;
  primitive_id : Z
}.

(** The default constructor. *)
Definition default : IntersectionRecord :=
  {| has_intersection := false;
     t := DBL_MAX;
     location := vzero;
     surface_normal := vzero;
     hitted_entity := None;
     hitted_entity_material := None;
     emission := vzero;
     primitive_id := (-1)%Z |}.

End IR.

Definition IntersectionRecord : Type := IR.IntersectionRecord.

(* ================================================================= *)
(** ** Entities ([Entity.h]) *)

(** The virtual members the hierarchy calls, and the two data the records
    copy: the address of the object and its [id]. *)
Class Entity (E : Type) : Type := {
  entity_address : E -> nat;
  entity_id : E -> Z;
  Get3DAABB : E -> AABB_3D;
  GetIntersectionRecord : E -> Ray -> IntersectionRecord
}.

(** The virtual members the integrator calls on a light. *)
Class Light (E : Type) : Type := {
  IsEmissive : E -> bool;
  Sampling : E -> IntersectionRecord -> RandomSource ->
             IntersectionRecord * Q * RandomSource
}.

(* ================================================================= *)
(** ** Roots of a quadratic ([WhittedUtilities.h]) *)

Section Libm.

(** [std::sqrt]. *)
Variable sqrt : Q -> Q.

(** [None] when the function returns [false]; otherwise the two values it
    leaves in [x_small] and [x_large].  The divisions are those of the
    rationals: they are the code's where [A] and [q] are not zero, which is
    what the code's own comment asks ([A != 0 for quadratic equation]);
    dividing by zero, the code stores an infinity or NaN. *)
Definition QuadraticFormula (A B C : Q) : option (Q * Q) :=
  let discriminant := B * B - 4 * A * C in
  if Qltb discriminant 0 then None
  else
    let '(x_small, x_large) :=
      if Qeq_bool discriminant 0
      then (-(1 # 2) * B / A, -(1 # 2) * B / A)
      else
        let q := if Qltb 0 B
                 then -(1 # 2) * (B + sqrt discriminant)
                 else -(1 # 2) * (B - sqrt discriminant) in
        (q / A, C / q) in
    if Qltb x_large x_small
    then Some (x_large, x_small)
    else Some (x_small, x_large).

(** [Whitted::normalize]: the zero vector is returned as it is. *)
Definition normalize (v : vec3) : vec3 :=
  let length_squared := vx v * vx v + vy v * vy v + vz v * vz v in
  if Qltb 0 length_squared
  then
    let inverse_length := 1 / sqrt length_squared in
    mkvec3 (vx v * inverse_length) (vy v * inverse_length)
           (vz v * inverse_length)
  else v.

(** [glm::length] and [glm::normalize]. *)
Definition glm_length (v : vec3) : Q := sqrt (dot v v).
Definition glm_normalize (v : vec3) : vec3 :=
  vscale_r v (1 / sqrt (dot v v)).

(** The constructor of [WhittedMaterial].  It leaves [diffuse_coefficient]
    and [specular_size_factor] unset; the scene assigns them afterwards,
    and they are given here. *)
Definition WhittedMaterial_ctor
    (material_nature : MaterialNature) (emission diffuse_color : vec3)
    (coefficient : vec3) (size_factor : Q) : WhittedMaterial :=
  {| m_material_nature := material_nature;
     refractive_index := 1;
     diffuse_coefficient := coefficient;
     m_diffuse_color := diffuse_color;
     specular_size_factor := size_factor;
     m_emission := emission;
     emitting := Qltb (1 # 100000) (glm_length emission) |}.

(* ================================================================= *)
(** ** Spheres ([Sphere.h]) *)

Record Sphere : Type := mkSphere {
  sphere_this : nat;
  sphere_material : WhittedMaterial;
  m_center : vec3;
  m_radius : Q;
  radius_squared : Q
}.

(** The constructor; [this] is the address of the new object. *)
Definition Sphere_ctor (this : nat) (center : vec3) (radius : Q) : Sphere :=
  {| sphere_this := this;
     sphere_material := default_material;
     m_center := center;
     m_radius := radius;
     radius_squared := radius * radius |}.

Definition Sphere_Get3DAABB (s : Sphere) : AABB_3D :=
  AABB.of_points (fin3 (vadd_scalar (m_center s) (m_radius s)))
                 (fin3 (vsub_scalar (m_center s) (m_radius s))).

Definition Sphere_GetIntersectionRecord (s : Sphere) (ray : Ray)
  : IntersectionRecord :=
  let record := IR.default in
  let center_to_light_origin := vsub (m_origin ray) (m_center s) in
  match QuadraticFormula
          (dot (m_direction ray) (m_direction ray))
          (2 * dot (m_direction ray) center_to_light_origin)
          (dot center_to_light_origin center_to_light_origin
           - radius_squared s)
  with
  | None => record
  | Some (t_small, t_large) =>
      let t_small := if Qltb t_small 0 then t_large else t_small in
      if Qltb t_small 0 then record
      else
        let location := Ray_at ray t_small in
        {| IR.has_intersection := true;
           IR.t := t_small;
           IR.location := location;
           IR.surface_normal := normalize (vsub location (m_center s));
           IR.hitted_entity := Some (sphere_this s);
           IR.hitted_entity_material := Some (sphere_material s);
           IR.emission := IR.emission record;
           IR.primitive_id := IR.primitive_id record |}
  end.

#[export] Instance Sphere_Entity : Entity Sphere := {
  entity_address := sphere_this;
  entity_id := fun _ => (-1)%Z;
  Get3DAABB := Sphere_Get3DAABB;
  GetIntersectionRecord := Sphere_GetIntersectionRecord
}.

End Libm.

(* ================================================================= *)
(** ** Triangles ([TriangleMesh.h]) *)

(** The result of the function and the value it leaves in
    [t_intersection]. *)
Definition RayTriangleIntersection
    (vertice_1 vertice_2 vertice_3 ray_origin ray_direction : vec3)
  : bool * Q :=
  let E_1 := vsub vertice_2 vertice_1 in
  let E_2 := vsub vertice_3 vertice_1 in
  let S := vsub ray_origin vertice_1 in
  let S_1 := cross ray_direction E_2 in
  let S_2 := cross S E_1 in
  let inverse_denominator := 1 / dot S_1 E_1 in
  let t_intersection := dot S_2 E_2 * inverse_denominator in
  let barycentric_coordinate_2 := dot S_1 S * inverse_denominator in
  let barycentric_coordinate_3 := dot S_2 ray_direction * inverse_denominator in
  (Qltb 0 t_intersection
   && Qltb 0 barycentric_coordinate_2
   && Qltb 0 barycentric_coordinate_3
   && Qltb 0 (1 - barycentric_coordinate_2 - barycentric_coordinate_3),
   t_intersection).

Record TrianglePrimitive : Type := mkTriangle {
  triangle_this : nat;
  triangle_id : Z;
  area : Q;
  vertice_a : vec3;
  vertice_b : vec3;
  vertice_c : vec3;
  m_surface_normal : vec3;
  (** [WhittedMaterial*], [nullptr] by default. *)
  material : option WhittedMaterial
}.

(** The constructor; it takes the next free id. *)
Definition TrianglePrimitive_ctor (sqrt : Q -> Q) (this : nat) (id_count : Z)
    (a b c : vec3) (m : option WhittedMaterial) : TrianglePrimitive :=
  let cross_product := cross (vsub b a) (vsub c a) in
  {| triangle_this := this;
     triangle_id := id_count;
     area := (1 # 2) * glm_length sqrt cross_product;
     vertice_a := a;
     vertice_b := b;
     vertice_c := c;
     m_surface_normal := normalize sqrt cross_product;
     material := m |}.

Definition Triangle_Get3DAABB (tr : TrianglePrimitive) : AABB_3D :=
  AABB.Union_with_point
    (AABB.of_points (fin3 (vertice_a tr)) (fin3 (vertice_b tr)))
    (point (vertice_c tr)).

Definition Triangle_GetIntersectionRecord (tr : TrianglePrimitive) (ray : Ray)
  : IntersectionRecord :=
  let record := IR.default in
  let '(hit, t) :=
    RayTriangleIntersection (vertice_a tr) (vertice_b tr) (vertice_c tr)
                            (m_origin ray) (m_direction ray) in
  if hit
  then
    {| IR.has_intersection := true;
       IR.t := t;
       IR.location := Ray_at ray t;
       IR.surface_normal := m_surface_normal tr;
       IR.hitted_entity := Some (triangle_this tr);
       IR.hitted_entity_material := material tr;
       IR.emission := IR.emission record;
       IR.primitive_id := triangle_id tr |}
  else
    {| IR.has_intersection := IR.has_intersection record;
       IR.t := DBL_MAX;
       IR.location := IR.location record;
       IR.surface_normal := IR.surface_normal record;
       IR.hitted_entity := IR.hitted_entity record;
       IR.hitted_entity_material := IR.hitted_entity_material record;
       IR.emission := IR.emission record;
       IR.primitive_id := IR.primitive_id record |}.

#[export] Instance Triangle_Entity : Entity TrianglePrimitive := {
  entity_address := triangle_this;
  entity_id := triangle_id;
  Get3DAABB := Triangle_Get3DAABB;
  GetIntersectionRecord := Triangle_GetIntersectionRecord
}.

(** ** Running the definitions *)

(** A square root to run the definitions with: exact on the square of a
    rational, rounded down on the numerator otherwise. *)
Definition sqrt_floor (q : Q) : Q :=
  Z.sqrt (Qnum q * Z.pos (Qden q)) # Qden q.

(** The quadratic a sphere and a ray give to [QuadraticFormula]. *)
Definition sphere_quadratic (s : Sphere) (ray : Ray) : Q * Q * Q :=
  let center_to_light_origin := vsub (m_origin ray) (m_center s) in
  (dot (m_direction ray) (m_direction ray),
   2 * dot (m_direction ray) center_to_light_origin,
   dot center_to_light_origin center_to_light_origin - radius_squared s).

Definition is_root (A B C x : Q) : Prop := A * x * x + B * x + C == 0.

(** The unit sphere at the origin, and a ray towards it along the Z axis. *)
Definition unit_sphere : Sphere :=
  Sphere_ctor 0 (mkvec3 0 0 0) 1.

Definition ray_along_z : Ray :=
  Ray_ctor (mkvec3 0 0 (-3)) (mkvec3 0 0 1).

(** A ray along the Y axis that touches the unit sphere at (-1, 0, 0): its
    origin lies in the plane x = -1 of the sphere's box. *)
Definition grazing_ray : Ray :=
  Ray_ctor (mkvec3 (-1) (-2) 0) (mkvec3 0 1 0).

(** ** The ray-triangle system *)

(** The denominator of the Moller-Trumbore solution. *)
Definition triangle_determinant (v1 v2 v3 d : vec3) : Q :=
  dot (cross d (vsub v3 v1)) (vsub v2 v1).

(** [(t, u, v)] solves the system: the point of the ray at [t] is the point
    of the triangle's plane with barycentric coordinates [(1 - u - v, u, v)]. *)
Definition solves_ray_triangle (v1 v2 v3 o d : vec3) (t u v : Q) : Prop :=
  veq (vadd o (vscale t d))
      (vadd (vadd (vscale (1 - u - v) v1) (vscale u v2)) (vscale v v3)).

(* ================================================================= *)
(** ** The bounding volume hierarchy ([BVH.h]) *)

(** A node is a leaf (no children, an entity and its box) or an internal
    node (two children, no entity). *)
Inductive BVH_Node (E : Type) : Type :=
| Leaf (bounding_volume : AABB_3D) (entity : E)
| Internal (bounding_volume : AABB_3D) (left_node right_node : BVH_Node E).

Arguments Leaf {E} _ _.
Arguments Internal {E} _ _ _.

Definition bounding_volume {E : Type} (node : BVH_Node E) : AABB_3D :=
  match node with
  | Leaf b _ => b
  | Internal b _ _ => b
  end.

Record BVH (E : Type) : Type := mkBVH {
  root : option (BVH_Node E);
  m_primitives : list E
}.

Arguments root {E} _.
Arguments m_primitives {E} _.

Section Hierarchy.

Context {E : Type} `{Entity E}.

(** [std::sort], with the comparison it is given. *)
Variable std_sort : (E -> E -> bool) -> list E -> list E.

(** The comparison of the three lambdas: centroids, on one axis. *)
Definition centroid_less (a : Axis) (x y : E) : bool :=
  f_lt (axis_component a (AABB.center_vector (Get3DAABB x)))
       (axis_component a (AABB.center_vector (Get3DAABB y))).

(** The box of the centroids, as the loop accumulates it. *)
Definition AABB_of_all_centroids (entities : list E) : AABB_3D :=
  fold_left
    (fun box e => AABB.Union_with_point box (AABB.center_vector (Get3DAABB e)))
    entities AABB.empty.

(** The [switch] on the longest axis of that box. *)
Definition sort_along_longest_axis (entities : list E) : list E :=
  match AABB.longest_axis (AABB_of_all_centroids entities) with
  | X_axis => std_sort (centroid_less X_axis) entities
  | Y_axis => std_sort (centroid_less Y_axis) entities
  | Z_axis => std_sort (centroid_less Z_axis) entities
  end.

(** [build_BVH]; the recursion is bounded by [fuel], and [None] stands for
    a call that has not returned within it. *)
Fixpoint build_BVH (fuel : nat) (entities : list E) : option (BVH_Node E) :=
  match fuel with
  | O => None
  | S fuel =>
      match entities with
      | [e] => Some (Leaf (Get3DAABB e) e)
      | [e0; e1] =>
          match build_BVH fuel [e0], build_BVH fuel [e1] with
          | Some l, Some r =>
              Some (Internal
                      (AABB.Union_with_3D_AABB (bounding_volume l)
                                               (bounding_volume r))
                      l r)
          | _, _ => None
          end
      | _ =>
          let entities := sort_along_longest_axis entities in
          let median := (length entities / 2)%nat in
          let left_half := firstn median entities in
          let right_half := skipn median entities in
          match build_BVH fuel left_half, build_BVH fuel right_half with
          | Some l, Some r =>
              Some (Internal
                      (AABB.Union_with_3D_AABB (bounding_volume l)
                                               (bounding_volume r))
                      l r)
          | _, _ => None
          end
      end
  end.

(** The constructor [BVH(primitives)]. *)
Definition BVH_ctor (primitives : list E) : option (BVH E) :=
  match primitives with
  | [] => Some {| root := None; m_primitives := primitives |}
  | _ =>
      match build_BVH (length primitives) primitives with
      | Some node => Some {| root := Some node; m_primitives := primitives |}
      | None => None
      end
  end.

End Hierarchy.

Section Traversal.

Context {E : Type} `{Entity E}.

Fixpoint traverse_BVH_from_node (node : BVH_Node E) (ray : Ray)
  : IntersectionRecord :=
  if negb (AABB.intersects_with_ray (bounding_volume node) ray
             (direction_reciprocal ray) (AABB.direction_is_negative ray))
  then IR.default
  else
    match node with
    | Leaf _ entity => GetIntersectionRecord entity ray
    | Internal _ left_node right_node =>
        let left_part := traverse_BVH_from_node left_node ray in
        let right_part := traverse_BVH_from_node right_node ray in
        if Qltb (IR.t left_part) (IR.t right_part)
        then left_part
        else right_part
    end.

Definition traverse_BVH_from_root (bvh : BVH E) (ray : Ray)
  : IntersectionRecord :=
  match root bvh with
  | None => IR.default
  | Some node => traverse_BVH_from_node node ray
  end.

(** The linear scan: every entity is tested in turn, and a record replaces
    the closest one so far when it is a hit with a smaller [t].  With
    [ties_to_last] a hit with an equal [t] replaces it too; without, the
    first of the nearest hits is kept, as the scan of the renderer that
    has no hierarchy does ([t_local < t_closest]). *)
Definition nearer (ties_to_last : bool) (local closest : IntersectionRecord)
  : bool :=
  if ties_to_last
  then Qle_bool (IR.t local) (IR.t closest)
  else Qltb (IR.t local) (IR.t closest).

Definition linear_scan (ties_to_last : bool) (entities : list E) (ray : Ray)
  : IntersectionRecord :=
  fold_left
    (fun closest e =>
       let local := GetIntersectionRecord e ray in
       if IR.has_intersection local && nearer ties_to_last local closest
       then local
       else closest)
    entities IR.default.

(** ** The shape of a tree *)

Fixpoint leaves (node : BVH_Node E) : list E :=
  match node with
  | Leaf _ e => [e]
  | Internal _ l r => leaves l ++ leaves r
  end.

Fixpoint leaf_count (node : BVH_Node E) : nat :=
  match node with
  | Leaf _ _ => 1
  | Internal _ l r => leaf_count l + leaf_count r
  end.

Fixpoint internal_count (node : BVH_Node E) : nat :=
  match node with
  | Leaf _ _ => 0
  | Internal _ l r => S (internal_count l + internal_count r)
  end.

End Traversal.

(* ================================================================= *)
(** ** Sorting *)



Section Sorting.

Context {A : Type}.

(** What [std::sort] asks of its comparison, on the elements it sorts. *)
Definition strict_weak_order_on (cmp : A -> A -> bool) (l : list A) : Prop :=
  (forall x, In x l -> cmp x x = false)
  /\ (forall x y z, In x l -> In y l -> In z l ->
        cmp x y = true -> cmp y z = true -> cmp x z = true)
  /\ (forall x y z, In x l -> In y l -> In z l ->
        cmp x y = false -> cmp y x = false ->
        cmp y z = false -> cmp z y = false ->
        cmp x z = false /\ cmp z x = false).

(** The comparison never holds both ways, on the elements of [L]. *)
Definition asymmetric_on (cmp : A -> A -> bool) (L : list A) : Prop :=
  forall x y, In x L -> In y L -> cmp x y = true -> cmp y x = false.

(** What [std::sort] promises: the result is a rearrangement of the input,
    in which no element compares less than its predecessor.  The order of
    elements that compare equivalent is not promised. *)
Definition std_sort_contract (sort : (A -> A -> bool) -> list A -> list A)
  : Prop :=
  forall cmp l,
    Permutation l (sort cmp l)
    /\ (strict_weak_order_on cmp l ->
        Sorted (fun a b => cmp b a = false) (sort cmp l)).

(** A stable sort: insertion from the right, each element placed before the
    elements it is equivalent to, which came after it. *)
Fixpoint insert_before_ties (cmp : A -> A -> bool) (x : A) (l : list A)
  : list A :=
  match l with
  | [] => [x]
  | y :: l' => if cmp y x then y :: insert_before_ties cmp x l' else x :: l
  end.

Definition stable_sort (cmp : A -> A -> bool) (l : list A) : list A :=
  fold_right (insert_before_ties cmp) [] l.

(** A sort that is not stable: each element is placed after the elements it
    is equivalent to, so equivalent elements come out in reverse. *)
Fixpoint insert_after_ties (cmp : A -> A -> bool) (x : A) (l : list A)
  : list A :=
  match l with
  | [] => [x]
  | y :: l' => if cmp x y then x :: l else y :: insert_after_ties cmp x l'
  end.

Definition reversing_sort (cmp : A -> A -> bool) (l : list A) : list A :=
  fold_right (insert_after_ties cmp) [] l.

End Sorting.

(** The tree does not depend on how [std::sort] orders ties: whatever it
    does within its promise, the tree is the one a stable sort gives. *)
Definition build_BVH_sorts_stably (E : Type) `{Entity E} : Prop :=
  forall sort : (E -> E -> bool) -> list E -> list E,
    std_sort_contract sort ->
    forall entities : list E,
      (3 <= length entities)%nat ->
      build_BVH sort (length entities) entities
      = build_BVH stable_sort (length entities) entities.

(** No centroid of the entities has a NaN component. *)
Definition centroids_defined {E : Type} `{Entity E} (entities : list E)
  : Prop :=
  forall e a, In e entities ->
    axis_component a (AABB.center_vector (Get3DAABB e)) <> NaN.

(** ** Scenes to run the definitions on *)

(** The unit square in the plane z = 0, as two triangles. *)
Definition square_lower : TrianglePrimitive :=
  TrianglePrimitive_ctor sqrt_floor 0 0
    (mkvec3 0 0 0) (mkvec3 1 0 0) (mkvec3 1 1 0) None.

Definition square_upper : TrianglePrimitive :=
  TrianglePrimitive_ctor sqrt_floor 1 1
    (mkvec3 0 0 0) (mkvec3 1 1 0) (mkvec3 0 1 0) None.

(** Three triangles of the plane z = 0 with a common corner, each inside
    the previous one. *)
Definition corner_triangle (this : nat) (size : Q) : TrianglePrimitive :=
  TrianglePrimitive_ctor sqrt_floor this (Z.of_nat this)
    (mkvec3 0 0 0) (mkvec3 size 0 0) (mkvec3 0 size 0) None.

Definition nested_triangles : list TrianglePrimitive :=
  [corner_triangle 0 4; corner_triangle 1 2; corner_triangle 2 1].

(** The same triangle three times, at three addresses. *)
Definition coincident (this : nat) : TrianglePrimitive :=
  TrianglePrimitive_ctor sqrt_floor this (Z.of_nat this)
    (mkvec3 0 0 0) (mkvec3 1 0 0) (mkvec3 0 1 0) None.

(* ================================================================= *)
(** ** Traversal against the linear scan *)

Section Agreement.

Context {E : Type} `{Entity E}.

(** What an entity's own test owes the hierarchy, for one ray: a miss is the
    default record, and a hit has its parameter in [[0, DBL_MAX)] and its
    point inside the entity's box. *)
Definition well_behaved (e : E) (ray : Ray) : Prop :=
  let record := GetIntersectionRecord e ray in
  if IR.has_intersection record
  then 0 <= IR.t record
       /\ IR.t record < DBL_MAX
       /\ AABB.contains_point (Get3DAABB e)
            (point (Ray_at ray (IR.t record))) = true
  else record = IR.default.

(** No two entities are hit at the same parameter, unless they give the same
    record. *)
Definition nearest_hit_unique (entities : list E) (ray : Ray) : Prop :=
  forall e e',
    In e entities -> In e' entities ->
    IR.has_intersection (GetIntersectionRecord e ray) = true ->
    IR.has_intersection (GetIntersectionRecord e' ray) = true ->
    IR.t (GetIntersectionRecord e ray) == IR.t (GetIntersectionRecord e' ray) ->
    GetIntersectionRecord e ray = GetIntersectionRecord e' ray.

(** Every node's box is the one [build_BVH] gives it. *)
Fixpoint boxes_built (node : BVH_Node E) : Prop :=
  match node with
  | Leaf b e => b = Get3DAABB e
  | Internal b l r =>
      b = AABB.Union_with_3D_AABB (bounding_volume l) (bounding_volume r)
      /\ boxes_built l /\ boxes_built r
  end.

(** A record is the nearest of the hits of [entities]: the default record
    when there is no hit to report, else the record of an entity that is
    hit, and in both cases no hit has a smaller parameter. *)
Definition nearest_among (entities : list E) (ray : Ray)
    (record : IntersectionRecord) : Prop :=
  (record = IR.default
   \/ exists e, In e entities
        /\ record = GetIntersectionRecord e ray
        /\ IR.has_intersection record = true)
  /\ forall e, In e entities ->
       IR.has_intersection (GetIntersectionRecord e ray) = true ->
       IR.t record <= IR.t (GetIntersectionRecord e ray).

End Agreement.

(** The hierarchy returns the hit primitive and the parameter of the linear
    scan, for every scene and every ray, under one of the two ways a scan
    can settle a tie. *)
Definition traversal_is_linear_scan (E : Type) `{Entity E} : Prop :=
  exists ties_to_last : bool,
  forall (sort : (E -> E -> bool) -> list E -> list E)
         (entities : list E) (ray : Ray) (bvh : BVH E),
    std_sort_contract sort ->
    entities <> [] ->
    BVH_ctor sort entities = Some bvh ->
    IR.hitted_entity (traverse_BVH_from_root bvh ray)
    = IR.hitted_entity (linear_scan ties_to_last entities ray)
    /\ IR.t (traverse_BVH_from_root bvh ray)
       == IR.t (linear_scan ties_to_last entities ray).

(** A ray that meets the plane z = 0 at parameter 1, inside the triangle of
    [coincident]; no component of its direction is zero. *)
Definition ray_to_triangle : Ray :=
  Ray_ctor (mkvec3 (1 # 4) (1 # 4) 1) (mkvec3 (1 # 8) (1 # 16) (-1)).

(** A ray that meets the unit square inside [square_upper], at parameter 1. *)
Definition ray_to_square : Ray :=
  Ray_ctor (mkvec3 (1 # 4) (1 # 2) 1) (mkvec3 (1 # 8) (1 # 16) (-1)).

(* ================================================================= *)
(** ** The stochastic integrator ([Renderer.h], [Renderer.cpp]) *)

(** The macro [INTERSECTION_CORRECTION] and the member
    [RR_survival_probability]. *)
Definition INTERSECTION_CORRECTION : Q := 1 # 100000.
Definition RR_survival_probability : Q := 8 # 10.

Section Integrator.

(** [std::sqrt], [std::cos] and [std::sin]. *)
Variables sqrt cos sin : Q -> Q.

(** [WhittedMaterial::Sampling]: a direction on the hemisphere about the
    normal, from two draws. *)
Definition Material_Sampling (m : WhittedMaterial)
    (W_out shading_point_normal : vec3) (g : RandomSource)
  : vec3 * RandomSource :=
  let '(z, g) := get_random_float_0_1 g in
  let radius_on_xy_plane := sqrt (1 - z * z) in
  let '(r, g) := get_random_float_0_1 g in
  let random_phi := 2 * PI * r in
  let x := radius_on_xy_plane * cos random_phi in
  let y := radius_on_xy_plane * sin random_phi in
  let n := shading_point_normal in
  let Y :=
    if Qltb (Qabs (vy n)) (Qabs (vx n))
    then glm_normalize sqrt (mkvec3 (vz n) 0 (- vx n))
    else glm_normalize sqrt (mkvec3 0 (vz n) (- vy n)) in
  let X := cross Y n in
  (vadd (vadd (vscale x X) (vscale y Y)) (vscale z n), g).

(** [TrianglePrimitive::Sampling] and [TrianglePrimitive::IsEmissive]. *)
Definition Triangle_Sampling (tr : TrianglePrimitive)
    (sample : IntersectionRecord) (g : RandomSource)
  : IntersectionRecord * Q * RandomSource :=
  let '(r, g) := get_random_float_0_1 g in
  let x := 1 - sqrt r in
  let '(y, g) := get_random_float_0_1 g in
  let location :=
    vadd (vadd (vscale x (vertice_a tr))
               (vscale ((1 - x) * y) (vertice_b tr)))
         (vscale ((1 - x) * (1 - y)) (vertice_c tr)) in
  ({| IR.has_intersection := IR.has_intersection sample;
      IR.t := IR.t sample;
      IR.location := location;
      IR.surface_normal := m_surface_normal tr;
      IR.hitted_entity := IR.hitted_entity sample;
      IR.hitted_entity_material := IR.hitted_entity_material sample;
      IR.emission := IR.emission sample;
      IR.primitive_id := IR.primitive_id sample |},
   1 / area tr, g).

(** The material pointer of a triangle is [nullptr] by default.  The code
    dereferences it, which is undefined for such a triangle; the model
    answers [false] there. *)
Definition Triangle_IsEmissive (tr : TrianglePrimitive) : bool :=
  match material tr with
  | Some m => IsEmitting m
  | None => false
  end.

#[export] Instance Triangle_Light : Light TrianglePrimitive := {
  IsEmissive := Triangle_IsEmissive;
  Sampling := Triangle_Sampling
}.

Context {E : Type} `{Entity E} `{Light E}.

(** The members of [Renderer] the integrator reads; [bvh] is the hierarchy
    [GenerateBVH] has built. *)
Record Renderer : Type := mkRenderer {
  entities : list E;
  bvh : BVH E
}.

Definition ray_BVH_intersection_record (r : Renderer) (ray : Ray)
  : IntersectionRecord :=
  traverse_BVH_from_root (bvh r) ray.

(** [SamplingAreaLight]: the first emissive entity is sampled; with none,
    [sample] and [PDF] keep what they held. *)
Fixpoint SamplingAreaLight_from (es : list E) (sample : IntersectionRecord)
    (PDF : Q) (g : RandomSource) : IntersectionRecord * Q * RandomSource :=
  match es with
  | [] => (sample, PDF, g)
  | e :: es' =>
      if IsEmissive e then Sampling e sample g
      else SamplingAreaLight_from es' sample PDF g
  end.

Definition SamplingAreaLight (r : Renderer) (sample : IntersectionRecord)
    (PDF : Q) (g : RandomSource) : IntersectionRecord * Q * RandomSource :=
  SamplingAreaLight_from (entities r) sample PDF g.

(** The normal at the shading point, turned towards [W_out], and the
    shading point, moved off the surface along it. *)
Definition shading_point_normal_of (record : IntersectionRecord)
    (W_out : vec3) : vec3 :=
  if Qltb (dot (IR.surface_normal record) W_out) 0
  then vneg (IR.surface_normal record)
  else IR.surface_normal record.

Definition shading_point_of (record : IntersectionRecord) (W_out : vec3)
  : vec3 :=
  vadd (IR.location record)
       (vscale_r (shading_point_normal_of record W_out)
                 INTERSECTION_CORRECTION).

(** The normal at the light sample, turned towards the shading point. *)
Definition arealight_sample_normal_of (arealight_sample : IntersectionRecord)
    (W_in_light_source : vec3) : vec3 :=
  if Qltb (dot (IR.surface_normal arealight_sample)
               (vneg W_in_light_source)) 0
  then vneg (IR.surface_normal arealight_sample)
  else IR.surface_normal arealight_sample.

(** The test that guards the direct term. *)
Definition not_occluded (shading_point_to_sample : vec3)
    (potential_occlusion : IntersectionRecord) : bool :=
  Qltb (glm_length sqrt shading_point_to_sample)
       (IR.t potential_occlusion + (1 # 100)).

(** The direct term as the code writes it. *)
Definition direct_term (emission brdf : vec3)
    (W_in_light_source shading_point_normal arealight_sample_normal
     shading_point_to_sample : vec3) (arealight_sample_PDF : Q) : vec3 :=
  vdiv
    (vdiv
       (vscale_r
          (vscale_r (vmul emission brdf)
                    (dot W_in_light_source shading_point_normal))
          (dot (vneg W_in_light_source) arealight_sample_normal))
       (dot shading_point_to_sample shading_point_to_sample))
    arealight_sample_PDF.

(** The part of [shading] under "Direct Illumination".  [PDF_before] is
    what the local [arealight_sample_PDF] holds before it is assigned. *)
Definition direct_illumination (r : Renderer) (m : WhittedMaterial)
    (record : IntersectionRecord) (W_out : vec3) (PDF_before : Q)
    (g : RandomSource) : vec3 * RandomSource :=
  let shading_point_normal := shading_point_normal_of record W_out in
  let shading_point := shading_point_of record W_out in
  let '(arealight_sample, arealight_sample_PDF, g) :=
    SamplingAreaLight r IR.default PDF_before g in
  let sample_location := IR.location arealight_sample in
  let shading_point_to_sample := vsub sample_location shading_point in
  let W_in_light_source := glm_normalize sqrt shading_point_to_sample in
  let arealight_sample_normal :=
    arealight_sample_normal_of arealight_sample W_in_light_source in
  let potential_occlusion :=
    ray_BVH_intersection_record r (Ray_ctor shading_point W_in_light_source) in
  (if not_occluded shading_point_to_sample potential_occlusion
   then direct_term (IR.emission arealight_sample)
          (BRDF m W_out W_in_light_source shading_point_normal)
          W_in_light_source shading_point_normal arealight_sample_normal
          shading_point_to_sample arealight_sample_PDF
   else vzero,
   g).

(** The indirect term as the code writes it, from the radiance the
    recursive call returns. *)
Definition indirect_term (m : WhittedMaterial) (radiance : vec3)
    (W_out W_in shading_point_normal : vec3) : vec3 :=
  vdiv
    (vdiv
       (vscale_r
          (vmul radiance (BRDF m W_out W_in shading_point_normal))
          (dot W_in shading_point_normal))
       (PDF_at_the_sample m W_out W_in shading_point_normal))
    RR_survival_probability.

(** [shading]; the recursion has no bound of its own, so it is counted by
    [fuel], and [None] stands for a call that has not returned within it,
    or that has dereferenced a null material. *)
Fixpoint shading (fuel : nat) (r : Renderer) (PDF_before : Q)
    (record : IntersectionRecord) (W_out : vec3) (g : RandomSource)
  : option (vec3 * RandomSource) :=
  match fuel with
  | O => None
  | S fuel =>
      match IR.hitted_entity_material record with
      | None => None
      | Some m =>
          if IsEmitting m then Some (GetEmission m, g)
          else
            let shading_point_normal := shading_point_normal_of record W_out in
            let shading_point := shading_point_of record W_out in
            let '(radiance_direct, g) :=
              direct_illumination r m record W_out PDF_before g in
            let radiance_indirect := vzero in
            let '(xi, g) := get_random_float_0_1 g in
            if Qltb xi RR_survival_probability
            then
              let '(sampled, g) :=
                Material_Sampling m W_out shading_point_normal g in
              let W_in := glm_normalize sqrt sampled in
              let deeper_ray_record :=
                ray_BVH_intersection_record r (Ray_ctor shading_point W_in) in
              if IR.has_intersection deeper_ray_record
              then
                match IR.hitted_entity_material deeper_ray_record with
                | None => None
                | Some deeper_material =>
                    if negb (IsEmitting deeper_material)
                    then
                      match shading fuel r PDF_before deeper_ray_record
                                    (vneg W_in) g with
                      | Some (radiance, g) =>
                          Some (vadd radiance_direct
                                  (indirect_term m radiance W_out W_in
                                     shading_point_normal),
                                g)
                      | None => None
                      end
                    else Some (vadd radiance_direct radiance_indirect, g)
                end
              else Some (vadd radiance_direct radiance_indirect, g)
            else Some (vadd radiance_direct radiance_indirect, g)
      end
  end.

End Integrator.

(** ** The direct term, as the specification words it *)

(** [L_e * BRDF * |cos_surface| * |cos_light| / distance^2 / pdf_area]. *)
Definition direct_term_spec (L_e brdf : vec3)
    (cos_surface cos_light distance_squared pdf_area : Q) : vec3 :=
  vdiv
    (vdiv
       (vscale_r (vscale_r (vmul L_e brdf) (Qabs cos_surface))
                 (Qabs cos_light))
       distance_squared)
    pdf_area.

Section DirectLighting.

Variable sqrt : Q -> Q.
Context {E : Type} `{Entity E} `{Light E}.

(** The locals of the direct-illumination part of [shading]. *)
Definition arealight_sample_of (r : Renderer) (PDF_before : Q)
    (g : RandomSource) : IntersectionRecord :=
  fst (fst (SamplingAreaLight r IR.default PDF_before g)).

Definition arealight_sample_PDF_of (r : Renderer) (PDF_before : Q)
    (g : RandomSource) : Q :=
  snd (fst (SamplingAreaLight r IR.default PDF_before g)).

Definition shading_point_to_sample_of (r : Renderer)
    (record : IntersectionRecord) (W_out : vec3) (PDF_before : Q)
    (g : RandomSource) : vec3 :=
  vsub (IR.location (arealight_sample_of r PDF_before g))
       (shading_point_of record W_out).

Definition potential_occlusion_of (r : Renderer)
    (record : IntersectionRecord) (W_out : vec3) (PDF_before : Q)
    (g : RandomSource) : IntersectionRecord :=
  ray_BVH_intersection_record r
    (Ray_ctor (shading_point_of record W_out)
       (glm_normalize sqrt
          (shading_point_to_sample_of r record W_out PDF_before g))).

(** At a shading point that does not emit, the direct term is added only
    if no occluder lies strictly before the light sample. *)
Definition direct_term_only_if_nothing_before : Prop :=
  forall (r : Renderer) (record : IntersectionRecord) (W_out : vec3)
         (PDF_before : Q) (g : RandomSource) (m : WhittedMaterial),
    IR.hitted_entity_material record = Some m ->
    IsEmitting m = false ->
    not_occluded sqrt
      (shading_point_to_sample_of r record W_out PDF_before g)
      (potential_occlusion_of r record W_out PDF_before g) = true ->
    ~ (IR.has_intersection
         (potential_occlusion_of r record W_out PDF_before g) = true
       /\ IR.t (potential_occlusion_of r record W_out PDF_before g)
          < glm_length sqrt
              (shading_point_to_sample_of r record W_out PDF_before g)).

End DirectLighting.

(** A scene for the shadow test: a light triangle just above z = 1, an
    occluding triangle 0.005 below the point the light is sampled at, and a
    surface point at the origin facing up. *)
Definition light_material : WhittedMaterial :=
  {| m_material_nature := Diffuse;
     refractive_index := 1;
     diffuse_coefficient := mkvec3 (7 # 10) (7 # 10) (7 # 10);
     m_diffuse_color := mkvec3 1 1 1;
     specular_size_factor := 0;
     m_emission := mkvec3 1 1 1;
     emitting := true |}.

Definition white_material : WhittedMaterial :=
  {| m_material_nature := Diffuse;
     refractive_index := 1;
     diffuse_coefficient := mkvec3 (7 # 10) (7 # 10) (7 # 10);
     m_diffuse_color := mkvec3 1 1 1;
     specular_size_factor := 0;
     m_emission := vzero;
     emitting := false |}.

Definition light_triangle : TrianglePrimitive :=
  TrianglePrimitive_ctor sqrt_floor 0 0
    (mkvec3 (-1) 1 (100001 # 100000)) (mkvec3 (-1) (-1) (100001 # 100000))
    (mkvec3 1 1 (100001 # 100000)) (Some light_material).

Definition occluding_triangle : TrianglePrimitive :=
  TrianglePrimitive_ctor sqrt_floor 1 1
    (mkvec3 (-1) (-1) (99501 # 100000)) (mkvec3 1 (-1) (99501 # 100000))
    (mkvec3 0 1 (99501 # 100000)) (Some white_material).

Definition shadow_scene : @Renderer TrianglePrimitive :=
  {| entities := [light_triangle; occluding_triangle];
     bvh := {| root := build_BVH stable_sort 2
                         [light_triangle; occluding_triangle];
               m_primitives := [light_triangle; occluding_triangle] |} |}.

Definition surface_point : IntersectionRecord :=
  {| IR.has_intersection := true;
     IR.t := 1;
     IR.location := mkvec3 0 0 0;
     IR.surface_normal := mkvec3 0 0 1;
     IR.hitted_entity := Some 2%nat;
     IR.hitted_entity_material := Some white_material;
     IR.emission := vzero;
     IR.primitive_id := 2 |}.

(** Draws 1 and then 1/2 for ever: the light is sampled at the midpoint of
    its edge from [vertice_b] to [vertice_c]. *)
Definition shadow_draws : RandomSource :=
  {| draws := fun n => match n with O => 1 | S _ => 1 # 2 end;
     cursor := 0 |}.

(** A point on the light, seen from below. *)
Definition light_point : IntersectionRecord :=
  {| IR.has_intersection := true;
     IR.t := 1;
     IR.location := mkvec3 0 0 (100001 # 100000);
     IR.surface_normal := mkvec3 0 0 1;
     IR.hitted_entity := Some 0%nat;
     IR.hitted_entity_material := Some light_material;
     IR.emission := vzero;
     IR.primitive_id := 0 |}.

(* ================================================================= *)
(** ** Frame buffers and the temporal filter ([Denoiser.h]) *)

Module FB.

Record FrameBuffer (T : Type) : Type := mk {
  frame_width : Z;
  frame_height : Z;
  buffer : list T
}.

Arguments mk {T} _ _ _.
Arguments frame_width {T} _.
Arguments frame_height {T} _.
Arguments buffer {T} _.

(** [operator()(column, row)]: the index [row * frame_width + column] is
    computed on [int]; [d] is read where the index is outside the vector. *)
Definition at_ {T : Type} (d : T) (f : FrameBuffer T) (column row : Z) : T :=
  let index := int_add (int_mul row (frame_width f)) column in
  if (index <? 0)%Z then d else nth (Z.to_nat index) (buffer f) d.

End FB.

Record vec4 : Type := mkvec4 { x4 : Q; y4 : Q; z4 : Q; w4 : Q }.

(** [glm::mat4], by columns. *)
Record mat4 : Type := mkmat4 { col0 : vec4; col1 : vec4; col2 : vec4; col3 : vec4 }.

Definition mat4_identity : mat4 :=
  mkmat4 (mkvec4 1 0 0 0) (mkvec4 0 1 0 0) (mkvec4 0 0 1 0) (mkvec4 0 0 0 1).

(** [m * v]. *)
Definition mat4_mul_vec4 (m : mat4) (v : vec4) : vec4 :=
  mkvec4
    (x4 (col0 m) * x4 v + x4 (col1 m) * y4 v + x4 (col2 m) * z4 v
     + x4 (col3 m) * w4 v)
    (y4 (col0 m) * x4 v + y4 (col1 m) * y4 v + y4 (col2 m) * z4 v
     + y4 (col3 m) * w4 v)
    (z4 (col0 m) * x4 v + z4 (col1 m) * y4 v + z4 (col2 m) * z4 v
     + z4 (col3 m) * w4 v)
    (w4 (col0 m) * x4 v + w4 (col1 m) * y4 v + w4 (col2 m) * z4 v
     + w4 (col3 m) * w4 v).

Record G_Buffer : Type := mkG_Buffer {
  pixel_world_position : FB.FrameBuffer vec3;
  pixel_color : FB.FrameBuffer vec3;
  pixel_world_surface_normal : FB.FrameBuffer vec3;
  contributor : FB.FrameBuffer Z;
  primitive_id_buffer : FB.FrameBuffer Z;
  projection_matrix : mat4;
  view_matrix : mat4
}.

Record Denoiser : Type := mkDenoiser {
  using_temporal_filtering : bool;
  Temporal_FilterKernelHalfSize : Z;
  tolerance : Q;
  current_frame_weighting : Q;
  accessible_previous_frame : bool;
  frame_height : Z;
  frame_width : Z;
  previous_frame_g_buffer : G_Buffer
}.

(** The conversion of a float to [int]: towards zero. *)
Definition to_int (q : Q) : Z := Z.quot (Qnum q) (Z.pos (Qden q)).

(** The integers from [lo] to [hi], both included. *)
Definition int_range (lo hi : Z) : list Z :=
  map (fun k => (lo + Z.of_nat k)%Z) (seq 0 (Z.to_nat (hi - lo + 1))).

(** [glm::min], [glm::max] and [glm::clamp] on finite values. *)
Definition q_glm_min (x y : Q) : Q := if Qltb y x then y else x.
Definition q_glm_max (x y : Q) : Q := if Qltb x y then y else x.
Definition glm_clamp (v lo hi : vec3) : vec3 :=
  vzip q_glm_min (vzip q_glm_max v lo) hi.

Section Temporal.

Variable sqrt : Q -> Q.

(** The kernel window of a pixel, column by column. *)
Definition temporal_kernel (dn : Denoiser) (x y : Z) : list (Z * Z) :=
  let half := Temporal_FilterKernelHalfSize dn in
  let kernel_left := Z.max 0 (x - half) in
  let kernel_right := Z.min (frame_width dn - 1) (x + half) in
  let kernel_bottom := Z.max 0 (y - half) in
  let kernel_top := Z.min (frame_height dn - 1) (y + half) in
  flat_map (fun i => map (fun j => (i, j)) (int_range kernel_bottom kernel_top))
           (int_range kernel_left kernel_right).

(** The two loops: the count, the sum of the colours, and the sum of the
    squared differences between the colour of the pixel itself and each
    colour of the window. *)
Definition kernel_sums (g : G_Buffer) (x y : Z) (kernel : list (Z * Z))
  : Z * vec3 * vec3 :=
  fold_left
    (fun '(n, mean, variance) '(i, j) =>
       let diff := vsub (FB.at_ vzero (pixel_color g) x y)
                        (FB.at_ vzero (pixel_color g) i j) in
       ((n + 1)%Z,
        vadd mean (FB.at_ vzero (pixel_color g) i j),
        vadd variance (vmul diff diff)))
    kernel (0%Z, vzero, vzero).

(** The colour of the previous frame after the clamp. *)
Definition clamped_previous_color (dn : Denoiser) (g : G_Buffer) (x y : Z)
    (color_from_previous_frame_pixel : vec3) : vec3 :=
  let '(n, mean, variance) := kernel_sums g x y (temporal_kernel dn x y) in
  let mean := vdiv mean (inject_Z n) in
  let variance :=
    vmap (fun c => sqrt (q_glm_max (c / inject_Z n) 0)) variance in
  glm_clamp color_from_previous_frame_pixel
    (vsub mean (vscale (tolerance dn) variance))
    (vadd mean (vscale (tolerance dn) variance)).

(** The position of the pixel in the clip space of the previous frame. *)
Definition canonical_position_4D_of (dn : Denoiser) (g : G_Buffer) (x y : Z)
  : vec4 :=
  let previous := previous_frame_g_buffer dn in
  let p := FB.at_ vzero (pixel_world_position g) x y in
  let world_position := mkvec4 (vx p) (vy p) (vz p) 1 in
  mat4_mul_vec4 (projection_matrix previous)
                (mat4_mul_vec4 (view_matrix previous) world_position).

(** Where the pixel was in the previous frame, for a [w] that is not
    zero. *)
Definition pixel_position_of (dn : Denoiser) (g : G_Buffer) (x y : Z)
  : Q * Q :=
  let canonical_position_4D := canonical_position_4D_of dn g x y in
  let canonical_x := x4 canonical_position_4D / w4 canonical_position_4D in
  let canonical_y := y4 canonical_position_4D / w4 canonical_position_4D in
  let screen_x := (canonical_x + 1) / 2 in
  let screen_y := (canonical_y + 1) / 2 in
  (screen_x * inject_Z (frame_width dn), screen_y * inject_Z (frame_height dn)).

(** The test on the reprojected position and on the identity stored
    there.  Dividing by a [w] that is zero gives an infinity or NaN in both
    coordinates, and every comparison of the test is false on those: the
    test fails. *)
Definition reprojection_available (dn : Denoiser) (g : G_Buffer) (x y : Z)
  : bool :=
  let id := FB.at_ 0%Z (primitive_id_buffer g) x y in
  let '(px, py) := pixel_position_of dn g x y in
  negb (id =? -1)%Z
  && negb (Qeq_bool (w4 (canonical_position_4D_of dn g x y)) 0)
  && (Qltb 0 px && Qltb px (inject_Z (frame_width dn))
      && Qltb 0 py && Qltb py (inject_Z (frame_height dn)))
  && (id =? FB.at_ 0%Z (primitive_id_buffer (previous_frame_g_buffer dn))
              (to_int px) (to_int py))%Z.

(** The body of the two nested loops over the pixels. *)
Definition TemporalFiltering_pixel (dn : Denoiser) (g : G_Buffer) (x y : Z)
  : vec3 :=
  let '(px, py) := pixel_position_of dn g x y in
  let '(color_from_previous_frame_pixel, temporal_blending_factor) :=
    if reprojection_available dn g x y
    then
      (clamped_previous_color dn g x y
         (FB.at_ vzero (pixel_color (previous_frame_g_buffer dn))
                 (to_int px) (to_int py)),
       current_frame_weighting dn)
    else (vzero, 1) in
  vadd (vscale (1 - temporal_blending_factor) color_from_previous_frame_pixel)
       (vscale temporal_blending_factor (FB.at_ vzero (pixel_color g) x y)).

(** The pixels in the order of the vector: row by row. *)
Definition all_pixels (dn : Denoiser) : list (Z * Z) :=
  flat_map (fun y => map (fun x => (x, y)) (int_range 0 (frame_width dn - 1)))
           (int_range 0 (frame_height dn - 1)).

(** [TemporalFiltering]: the denoiser, the G-buffer and the filtered frame
    after the call. *)
Definition TemporalFiltering (dn : Denoiser) (g : G_Buffer)
  : Denoiser * G_Buffer * FB.FrameBuffer vec3 :=
  let with_color (g : G_Buffer) (c : FB.FrameBuffer vec3) : G_Buffer :=
    mkG_Buffer (pixel_world_position g) c (pixel_world_surface_normal g)
               (contributor g) (primitive_id_buffer g)
               (projection_matrix g) (view_matrix g) in
  let remember (dn : Denoiser) (g : G_Buffer) (accessible : bool) : Denoiser :=
    mkDenoiser (using_temporal_filtering dn)
               (Temporal_FilterKernelHalfSize dn) (tolerance dn)
               (current_frame_weighting dn) accessible
               (frame_height dn) (frame_width dn) g in
  if negb (using_temporal_filtering dn)
  then (remember dn (previous_frame_g_buffer dn) false, g, pixel_color g)
  else if accessible_previous_frame dn
  then
    let filtered :=
      FB.mk (frame_width dn) (frame_height dn)
            (map (fun '(x, y) => TemporalFiltering_pixel dn g x y)
                 (all_pixels dn)) in
    let g := with_color g filtered in
    (remember dn g true, g, filtered)
  else (remember dn g true, g, pixel_color g).

(** ** The clamp, as the specification words it *)

(** The mean of the colours of the window. *)
Definition local_mean (g : G_Buffer) (kernel : list (Z * Z)) : vec3 :=
  vdiv (fold_left (fun s '(i, j) => vadd s (FB.at_ vzero (pixel_color g) i j))
                  kernel vzero)
       (inject_Z (Z.of_nat (length kernel))).

(** Their standard deviation: the root of the mean squared distance to the
    mean. *)
Definition local_stddev (g : G_Buffer) (kernel : list (Z * Z)) : vec3 :=
  let mean := local_mean g kernel in
  vmap (fun c => sqrt (c / inject_Z (Z.of_nat (length kernel))))
       (fold_left
          (fun s '(i, j) =>
             let diff := vsub (FB.at_ vzero (pixel_color g) i j) mean in
             vadd s (vmul diff diff))
          kernel vzero).

Definition variance_clamp (dn : Denoiser) (g : G_Buffer) (x y : Z)
    (color : vec3) : vec3 :=
  let kernel := temporal_kernel dn x y in
  glm_clamp color
    (vsub (local_mean g kernel) (vscale (tolerance dn) (local_stddev g kernel)))
    (vadd (local_mean g kernel) (vscale (tolerance dn) (local_stddev g kernel))).

End Temporal.

(** A frame of five pixels in one row.  The colours of the current frame
    are 0, 0, 0, 1/4, 1/2; every pixel shows primitive 7; the pixel in
    column 1 was in column 1 of the previous frame, where its colour was
    39/100. *)
Definition grey (c : Q) : vec3 := mkvec3 c c c.

Definition row_of {T : Type} (l : list T) : FB.FrameBuffer T :=
  FB.mk 5 1 l.

Definition previous_frame : G_Buffer :=
  {| pixel_world_position := row_of (repeat (mkvec3 (-2 # 5) 0 0) 5);
     pixel_color := row_of (repeat (grey (39 # 100)) 5);
     pixel_world_surface_normal := row_of (repeat (mkvec3 0 0 1) 5);
     contributor := row_of (repeat 1%Z 5);
     primitive_id_buffer := row_of (repeat 7%Z 5);
     projection_matrix := mat4_identity;
     view_matrix := mat4_identity |}.

Definition current_frame : G_Buffer :=
  {| pixel_world_position := row_of (repeat (mkvec3 (-2 # 5) 0 0) 5);
     pixel_color :=
       row_of [grey 0; grey 0; grey 0; grey (1 # 4); grey (1 # 2)];
     pixel_world_surface_normal := row_of (repeat (mkvec3 0 0 1) 5);
     contributor := row_of (repeat 1%Z 5);
     primitive_id_buffer := row_of (repeat 7%Z 5);
     projection_matrix := mat4_identity;
     view_matrix := mat4_identity |}.

Definition five_pixel_denoiser : Denoiser :=
  {| using_temporal_filtering := true;
     Temporal_FilterKernelHalfSize := 3;
     tolerance := 1;
     current_frame_weighting := 2 # 10;
     accessible_previous_frame := true;
     frame_height := 1;
     frame_width := 5;
     previous_frame_g_buffer := previous_frame |}.

(* ================================================================= *)
(** ** Boxes: the remaining members of [AABB_3D] *)

(** The lower corner of a box is below its upper corner, on every axis. *)
Definition AABB_ordered (b : AABB_3D) : Prop :=
  forall ax,
    ext_leb (axis_component ax (min_slab_values b))
            (axis_component ax (max_slab_values b)) = true.

(** The point with no defined coordinate. *)
Definition NaN3 : xvec3 := mkvec3 NaN NaN NaN.

(* ================================================================= *)
(** ** The shape of a hierarchy *)

Section Shape.

Context {E : Type}.

(** The number of edges on the longest path from a node down to a leaf. *)
Fixpoint height (node : BVH_Node E) : nat :=
  match node with
  | Leaf _ _ => 0
  | Internal _ l r => S (Nat.max (height l) (height r))
  end.

(** At every internal node the left child holds half of the leaves below
    the node, rounded down, and the right child the rest. *)
Fixpoint split_at_median (node : BVH_Node E) : Prop :=
  match node with
  | Leaf _ _ => True
  | Internal _ l r =>
      leaf_count l = ((leaf_count l + leaf_count r) / 2)%nat
      /\ split_at_median l /\ split_at_median r
  end.

End Shape.

(* ================================================================= *)
(** ** Utilities ([WhittedUtilities.h], [VectorFloat.h]) *)

(** [std::min(a, b)] is [(b < a) ? b : a] and [std::max(a, b)] is
    [(a < b) ? b : a], on finite values. *)
Definition Qstd_min (a b : Q) : Q := if Qltb b a then b else a.
Definition Qstd_max (a b : Q) : Q := if Qltb a b then b else a.

Definition clamp_float (value lower_bound upper_bound : Q) : Q :=
  Qstd_max (Qstd_min value upper_bound) lower_bound.

Definition lerp (a b : vec3) (t : Q) : vec3 :=
  vadd (vscale_r a (1 - t)) (vscale_r b t).

(* ================================================================= *)
(** ** Reflection and refraction ([Renderer.h]) *)

(** The macro [eta_Vacuum]. *)
Definition eta_Vacuum : Q := 1.

Definition mirror_reflection_direction
    (incident_ray_direction surface_normal : vec3) : vec3 :=
  vsub incident_ray_direction
       (vscale (2 * dot incident_ray_direction surface_normal) surface_normal).

(** The first lines that [snell_refraction_direction] and
    [accurate_fresnel_reflectance] share: the cosine of the incident
    angle, made positive, the two indices in the order the ray meets them,
    and the normal turned towards the incident ray. *)
Definition refraction_setting
    (incident_ray_direction surface_normal : vec3)
    (entity_refraction_index : Q) : Q * Q * Q * vec3 :=
  let eta_in := eta_Vacuum in
  let eta_out := entity_refraction_index in
  let normal := surface_normal in
  let cos_incident :=
    clamp_float (dot incident_ray_direction surface_normal) (-1) 1 in
  if Qltb cos_incident 0
  then (- cos_incident, eta_in, eta_out, normal)
  else (cos_incident, eta_out, eta_in, vneg normal).

Section Refraction.

(** [std::sqrtf]. *)
Variable sqrt : Q -> Q.

Definition snell_refraction_direction
    (incident_ray_direction surface_normal : vec3)
    (entity_refraction_index : Q) : vec3 :=
  let '(cos_incident, eta_in, eta_out, normal) :=
    refraction_setting incident_ray_direction surface_normal
                       entity_refraction_index in
  let eta_ratio := eta_in / eta_out in
  let cos_refract_squared :=
    1 - eta_ratio * eta_ratio * (1 - cos_incident * cos_incident) in
  if Qltb cos_refract_squared 0
  then vzero
  else vadd (vscale eta_ratio incident_ray_direction)
            (vscale (eta_ratio * cos_incident - sqrt cos_refract_squared)
                    normal).

Definition accurate_fresnel_reflectance
    (incident_ray_direction surface_normal : vec3)
    (entity_refraction_index : Q) : Q :=
  let '(cos_incident, eta_in, eta_out, _) :=
    refraction_setting incident_ray_direction surface_normal
                       entity_refraction_index in
  let sin_refract :=
    eta_in / eta_out
    * sqrt (Qstd_max 0 (1 - cos_incident * cos_incident)) in
  if Qltb 1 sin_refract
  then 1
  else
    let cos_refract := sqrt (Qstd_max 0 (1 - sin_refract * sin_refract)) in
    let R_s_sqrt :=
      (eta_in * cos_incident - eta_out * cos_refract)
      / (eta_in * cos_incident + eta_out * cos_refract) in
    let R_p_sqrt :=
      (eta_in * cos_refract - eta_out * cos_incident)
      / (eta_in * cos_refract + eta_out * cos_incident) in
    (R_s_sqrt * R_s_sqrt + R_p_sqrt * R_p_sqrt) / 2.

End Refraction.

(** The squared cosine of the refracted angle, as
    [snell_refraction_direction] computes it. *)
Definition cos_refract_squared_of
    (incident_ray_direction surface_normal : vec3)
    (entity_refraction_index : Q) : Q :=
  let '(cos_incident, eta_in, eta_out, _) :=
    refraction_setting incident_ray_direction surface_normal
                       entity_refraction_index in
  1 - (eta_in / eta_out) * (eta_in / eta_out)
      * (1 - cos_incident * cos_incident).

(* ================================================================= *)
(** ** Packing a colour ([Renderer.cpp]) *)

(** The conversion of a float to [uint8_t]: towards zero.  Outside the
    range of the type the C++ conversion is undefined; the model wraps. *)
Definition to_uint8 (q : Q) : Z := (to_int q mod 256)%Z.

(** [RTUtility::vecRGBA_to_0xABGR]; the four shifted bytes do not reach
    bit 32. *)
Definition vecRGBA_to_0xABGR (colorRGBA : vec4) : Z :=
  let r := to_uint8 (x4 colorRGBA * 255) in
  let g := to_uint8 (y4 colorRGBA * 255) in
  let b := to_uint8 (z4 colorRGBA * 255) in
  let a := to_uint8 (w4 colorRGBA * 255) in
  Z.lor (Z.lor (Z.lor (Z.shiftl a 24) (Z.shiftl b 16)) (Z.shiftl g 8)) r.

(* ================================================================= *)
(** ** Frame buffers: writing and resizing ([Denoiser.h]) *)

(** [v[n] = x] on a vector; outside the vector the C++ write is undefined,
    and the model leaves the vector as it is. *)
Fixpoint vector_assign {T : Type} (n : nat) (x : T) (v : list T) : list T :=
  match v, n with
  | [], _ => []
  | _ :: v', O => x :: v'
  | a :: v', S n' => a :: vector_assign n' x v'
  end.

(** [v.resize(n)]: the first [n] elements are kept, and the vector is
    filled up to [n] with value-initialised elements [d]. *)
Definition vector_resize {T : Type} (n : nat) (v : list T) (d : T) : list T :=
  firstn n v ++ repeat d (n - length v).

(** [f(column, row) = x], through the reference the second [operator()]
    returns; the index is computed on [int], as in the first. *)
Definition FrameBuffer_assign {T : Type} (f : FB.FrameBuffer T)
    (column row : Z) (x : T) : FB.FrameBuffer T :=
  let index := int_add (int_mul row (FB.frame_width f)) column in
  FB.mk (FB.frame_width f) (FB.frame_height f)
        (if (index <? 0)%Z then FB.buffer f
         else vector_assign (Z.to_nat index) x (FB.buffer f)).

(** [FrameBuffer::Reset], which the constructor with two arguments
    repeats.  The size [width * height] is computed on [int]; a negative
    one is, as the [size_t] that [resize] takes, beyond what a vector can
    hold, and [resize] throws: [None] stands for that. *)
Definition FrameBuffer_Reset {T : Type} (f : FB.FrameBuffer T)
    (width height : Z) (d : T) : option (FB.FrameBuffer T) :=
  let size := int_mul width height in
  if (size <? 0)%Z then None
  else Some (FB.mk width height
                   (vector_resize (Z.to_nat size) (FB.buffer f) d)).

(** A pixel of a frame of the given size. *)
Definition in_frame (width height column row : Z) : Prop :=
  (0 <= column < width /\ 0 <= row < height)%Z.



(* ================================================================= *)
(** ** Triangle meshes ([TriangleMesh.h]) *)

Record TriangleMesh : Type := mkTriangleMesh {
  mesh_this : nat;
  total_area : Q;
  (** [WhittedMaterial*]. *)
  unified_material : option WhittedMaterial;
  triangle_primitives : list TrianglePrimitive;
  bounding_AABB : AABB_3D;
  (** [BVH*]; the constructor always sets it. *)
  mesh_bvh : option (BVH TrianglePrimitive)
}.

(** The constant [mesh_scale] of the constructor. *)
Definition mesh_scale : Q := 1 # 100.

(** The two running corners of the constructor's loop, after one more
    vertex: [std::min] and [std::max] on each coordinate. *)
Definition extend_range (range : evec3 * evec3) (scaled_vertice : vec3)
  : evec3 * evec3 :=
  (vzip AABB.fmin (fst range) (fin3 scaled_vertice),
   vzip AABB.fmax (snd range) (fin3 scaled_vertice)).

Section Mesh.

Variable sqrt : Q -> Q.
Variable std_sort : (TrianglePrimitive -> TrianglePrimitive -> bool) ->
                    list TrianglePrimitive -> list TrianglePrimitive.

(** The first loop of the constructor, over the loaded vertices three at a
    time: the triangles, the id counter and the two corners after it.  [i]
    is the loop index, an [int], and [vertices] the part of the vector from
    it on; [address] is where the next triangle lies in the vector of
    triangles.  The loop goes on while [i], converted to the [size_t] the
    size is, is below the size: an index that has wrapped to a negative
    [int] is not.  [None] stands for a read outside the vector: of
    [Vertices[i + 1]] or [Vertices[i + 2]] when fewer than three vertices
    are left, or of [Vertices[i + 2]] when [i + 2] has wrapped.  Each
    triangle's constructor takes the counter as its id and increments
    it. *)
Fixpoint mesh_triangles (i : Z) (address : nat) (id_count : Z)
    (m : option WhittedMaterial) (range : evec3 * evec3)
    (vertices : list vec3)
  : option (list TrianglePrimitive * Z * (evec3 * evec3)) :=
  if (i <? 0)%Z then Some ([], id_count, range)
  else
    match vertices with
    | [] => Some ([], id_count, range)
    | p0 :: p1 :: p2 :: rest =>
        if (int_add i 2 <? 0)%Z then None
        else
          let v0 := vscale mesh_scale p0 in
          let range := extend_range range v0 in
          let v1 := vscale mesh_scale p1 in
          let range := extend_range range v1 in
          let v2 := vscale mesh_scale p2 in
          let range := extend_range range v2 in
          let triangle :=
            TrianglePrimitive_ctor sqrt address id_count v0 v1 v2 m in
          match mesh_triangles (int_add i 3) (S address) (int_add id_count 1)
                               m range rest with
          | Some (triangles, id_count, range) =>
              Some (triangle :: triangles, id_count, range)
          | None => None
          end
    | _ => None
    end.

(** The constructor, from the vertices the loader has read: the mesh and
    the id counter after it.  [this] is the address of the mesh and
    [storage] that of its vector of triangles. *)
Definition TriangleMesh_ctor (this storage : nat) (id_count : Z)
    (vertices : list vec3) (m : option WhittedMaterial)
  : option (TriangleMesh * Z) :=
  let mesh_range_min := mkvec3 PInf PInf PInf in
  let mesh_range_max := mkvec3 NInf NInf NInf in
  match mesh_triangles 0 storage id_count m (mesh_range_min, mesh_range_max)
                       vertices with
  | None => None
  | Some (triangles, id_count, (mesh_range_min, mesh_range_max)) =>
      match BVH_ctor std_sort triangles with
      | None => None
      | Some bvh =>
          Some ({| mesh_this := this;
                   total_area :=
                     fold_left (fun s tr => s + area tr) triangles 0;
                   unified_material := m;
                   triangle_primitives := triangles;
                   bounding_AABB :=
                     AABB.of_points mesh_range_min mesh_range_max;
                   mesh_bvh := Some bvh |},
                id_count)
      end
  end.

Definition Mesh_Get3DAABB (mesh : TriangleMesh) : AABB_3D :=
  bounding_AABB mesh.

Definition Mesh_GetIntersectionRecord (mesh : TriangleMesh) (ray : Ray)
  : IntersectionRecord :=
  match mesh_bvh mesh with
  | Some bvh => traverse_BVH_from_root bvh ray
  | None => IR.default
  end.

(** A mesh keeps the id [-1] that [Entity] starts with. *)
#[export] Instance Mesh_Entity : Entity TriangleMesh := {
  entity_address := mesh_this;
  entity_id := fun _ => (-1)%Z;
  Get3DAABB := Mesh_Get3DAABB;
  GetIntersectionRecord := Mesh_GetIntersectionRecord
}.

End Mesh.

(** A mesh of two triangles, the unit square scaled by [mesh_scale]. *)
Definition square_vertices : list vec3 :=
  [mkvec3 0 0 0; mkvec3 100 0 0; mkvec3 100 100 0;
   mkvec3 0 0 0; mkvec3 100 100 0; mkvec3 0 100 0].

(** The running corners only move outwards, and enclose each vertex they
    were extended with. *)
Definition range_within (inner outer : evec3 * evec3) : Prop :=
  forall ax,
    ext_leb (axis_component ax (fst outer)) (axis_component ax (fst inner))
    = true
    /\ ext_leb (axis_component ax (snd inner)) (axis_component ax (snd outer))
       = true.

Definition range_holds (range : evec3 * evec3) (v : vec3) : Prop :=
  forall ax,
    ext_leb (axis_component ax (fst range)) (Fin (axis_component ax v)) = true
    /\ ext_leb (Fin (axis_component ax v)) (axis_component ax (snd range))
       = true.

(* ================================================================= *)
(** * Properties *)

(** ** Comparisons *)

Arguments Qltb : simpl never.
Arguments Qeq_bool : simpl never.
Arguments Qle_bool : simpl never.

Lemma Qltb_lt (a b : Q) : Qltb a b = true <-> a < b.
Proof.
  unfold Qltb. rewrite negb_true_iff, <- not_true_iff_false, Qle_bool_iff.
  split; [apply Qnot_le_lt | apply Qlt_not_le].
Qed.

Lemma Qltb_ge (a b : Q) : Qltb a b = false <-> b <= a.
Proof.
  unfold Qltb. rewrite negb_false_iff. apply Qle_bool_iff.
Qed.

Lemma Qeq_bool_false (a b : Q) : Qeq_bool a b = false <-> ~ a == b.
Proof.
  rewrite <- not_true_iff_false, Qeq_bool_iff. tauto.
Qed.

Lemma negb_Qltb_le (a b : Q) : negb (Qltb a b) = true <-> b <= a.
Proof. rewrite negb_true_iff. apply Qltb_ge. Qed.

Lemma negb_Qltb_lt (a b : Q) : negb (Qltb a b) = false <-> a < b.
Proof. rewrite negb_false_iff. apply Qltb_lt. Qed.

(** Turn every boolean comparison of rationals in sight into its
    proposition. *)
Ltac q_props :=
  repeat match goal with
    | H : negb (Qltb _ _) = true |- _ => apply negb_Qltb_le in H
    | H : negb (Qltb _ _) = false |- _ => apply negb_Qltb_lt in H
    | |- negb (Qltb _ _) = true => apply negb_Qltb_le
    | |- negb (Qltb _ _) = false => apply negb_Qltb_lt
    | H : Qltb _ _ = true |- _ => apply Qltb_lt in H
    | H : Qltb _ _ = false |- _ => apply Qltb_ge in H
    | H : Qeq_bool _ _ = true |- _ => apply Qeq_bool_iff in H
    | H : Qeq_bool _ _ = false |- _ => apply Qeq_bool_false in H
    | H : Qle_bool _ _ = true |- _ => apply Qle_bool_iff in H
    | |- Qltb _ _ = true => apply Qltb_lt
    | |- Qltb _ _ = false => apply Qltb_ge
    | |- Qeq_bool _ _ = true => apply Qeq_bool_iff
    | |- Qeq_bool _ _ = false => apply Qeq_bool_false
    | |- Qle_bool _ _ = true => apply Qle_bool_iff
    end.

(** Split on every rational comparison the goal or a hypothesis branches
    on. *)
Ltac q_cases :=
  repeat match goal with
    | |- context [Qltb ?a ?b] =>
        let E := fresh "E" in destruct (Qltb a b) eqn:E; simpl in *
    | H : context [if Qltb ?a ?b then _ else _] |- _ =>
        let E := fresh "E" in destruct (Qltb a b) eqn:E; simpl in *
    | H : context [negb (Qltb ?a ?b)] |- _ =>
        let E := fresh "E" in destruct (Qltb a b) eqn:E; simpl in *
    | |- context [Qeq_bool ?a ?b] =>
        let E := fresh "E" in destruct (Qeq_bool a b) eqn:E; simpl in *
    | H : context [if Qeq_bool ?a ?b then _ else _] |- _ =>
        let E := fresh "E" in destruct (Qeq_bool a b) eqn:E; simpl in *
    end.

Ltac q_solve :=
  q_cases; q_props;
  try solve [ reflexivity | discriminate | contradiction | lra
            | exfalso; lra ].

Lemma ext_ltb_irrefl (a : ext) : ext_ltb a a = false.
Proof. destruct a; simpl; q_solve. Qed.

Lemma ext_ltb_trans (a b c : ext) :
  ext_ltb a b = true -> ext_ltb b c = true -> ext_ltb a c = true.
Proof. destruct a, b, c; simpl; intros; q_solve. Qed.

Lemma ext_leb_trans (a b c : ext) :
  ext_leb a b = true -> ext_leb b c = true -> ext_leb a c = true.
Proof.
  unfold ext_leb. destruct a, b, c; simpl; intros; q_solve.
Qed.

Lemma ext_leb_refl (a : ext) : ext_leb a a = true.
Proof. unfold ext_leb. now rewrite ext_ltb_irrefl. Qed.

Lemma ext_leb_antisym (a b : ext) :
  ext_leb a b = true -> ext_leb b a = true -> ext_eq a b.
Proof.
  unfold ext_leb. destruct a, b; simpl; intros; q_solve; try exact I.
Qed.

Lemma ext_eq_refl (a : ext) : ext_eq a a.
Proof. destruct a; simpl; auto. reflexivity. Qed.

(* ================================================================= *)
(** ** The longest axis of a box *)

Lemma f_lt_false_le (a b : xfloat) :
  a <> NaN -> b <> NaN -> f_lt a b = false -> f_le b a = true.
Proof.
  destruct a as [a|], b as [b|]; unfold NaN; try congruence.
  simpl. unfold ext_leb. now intros _ _ ->.
Qed.

Lemma f_lt_le (a b : xfloat) : f_lt a b = true -> f_le a b = true.
Proof.
  destruct a as [a|], b as [b|]; simpl; try discriminate.
  unfold ext_leb. destruct a, b; simpl; intros; q_solve.
Qed.

Lemma f_le_trans (a b c : xfloat) :
  f_le a b = true -> f_le b c = true -> f_le a c = true.
Proof.
  destruct a, b, c; simpl; try discriminate. apply ext_leb_trans.
Qed.

Lemma f_lt_le_trans (a b c : xfloat) :
  f_lt a b = true -> f_le b c = true -> f_lt a c = true.
Proof.
  destruct a as [a|], b as [b|], c as [c|]; simpl; try discriminate.
  unfold ext_leb. destruct a, b, c; simpl; intros; q_solve.
Qed.

Lemma f_le_refl (a : xfloat) : a <> NaN -> f_le a a = true.
Proof.
  destruct a; unfold NaN; [intros _; apply ext_leb_refl | congruence].
Qed.

(** C9, as stated, fails: on the unit square the X and Y extents are both 1
    and [longest_axis] answers Y, so the axis that comes first in the order
    X, Y, Z does not win the tie. *)
Lemma longest_axis_tie_not_X_first :
  ~ ties_broken_X_then_Y_then_Z square_box.
Proof.
  intros H. specialize (H X_axis). vm_compute in H.
  assert (Hlt : (0 < 1)%nat) by lia.
  specialize (H Hlt). discriminate.
Qed.

(** C9, amended: when no component of the diagonal is NaN, [longest_axis]
    returns an axis of largest extent, and among axes of that extent it
    returns the one that comes last in the order X, Y, Z: every axis after
    the chosen one is strictly shorter. *)
Theorem longest_axis_is_last_longest (b : AABB_3D) :
  diagonal_defined b ->
  forall a,
    f_le (extent b a) (extent b (AABB.longest_axis b)) = true
    /\ ((axis_index (AABB.longest_axis b) < axis_index a)%nat ->
        f_lt (extent b a) (extent b (AABB.longest_axis b)) = true).
Proof.
  intros Hd a.
  pose proof (Hd X_axis) as Hx. pose proof (Hd Y_axis) as Hy.
  pose proof (Hd Z_axis) as Hz. clear Hd.
  unfold extent, AABB.longest_axis, f_gt in *. cbv zeta.
  revert Hx Hy Hz. generalize (AABB.diagonal_vector b).
  intros [dx dy dz]; simpl; intros Hx Hy Hz.
  destruct (f_lt dy dx) eqn:Eyx; simpl.
  - destruct (f_lt dz dx) eqn:Ezx; simpl.
    + (* X is strictly the longest *)
      destruct a; simpl; split; intros; try lia; auto using f_le_refl, f_lt_le.
    + apply f_lt_false_le in Ezx; auto.
      destruct (f_lt dz dy) eqn:Ezy; simpl.
      * (* y < x <= z < y cannot be *)
        pose proof (f_lt_le_trans _ _ _ Eyx Ezx) as Hyz.
        destruct dy as [y|], dz as [z|]; simpl in *; try discriminate.
        destruct y, z; simpl in *; q_solve.
      * (* Z *)
        apply f_lt_false_le in Ezy; auto.
        destruct a; simpl; split; intros; try lia; auto using f_le_refl.
  - apply f_lt_false_le in Eyx; auto.
    destruct (f_lt dz dy) eqn:Ezy; simpl.
    + (* Y *)
      destruct a; simpl; split; intros; try lia; auto using f_le_refl, f_lt_le.
    + (* Z *)
      apply f_lt_false_le in Ezy; auto.
      destruct a; simpl; split; intros; try lia;
        eauto using f_le_refl, f_le_trans.
Qed.

Lemma longest_axis_is_last_longest_witness :
  diagonal_defined square_box
  /\ f_le (extent square_box X_axis)
          (extent square_box (AABB.longest_axis square_box)) = true.
Proof.
  assert (Hd : diagonal_defined square_box).
  { intros a. destruct a; vm_compute; discriminate. }
  split; [exact Hd |].
  exact (proj1 (longest_axis_is_last_longest square_box Hd X_axis)).
Defined.

(* ================================================================= *)
(** ** Union of boxes *)

Section UnionOneAxis.

Variables a b c : ext.

Lemma glm_min_le_l : ext_leb (AABB.glm_min a (Some b)) a = true.
Proof. unfold ext_leb. destruct a, b; simpl; q_solve; simpl; q_solve. Qed.

Lemma glm_min_le_r : ext_leb (AABB.glm_min a (Some b)) b = true.
Proof. unfold ext_leb. destruct a, b; simpl; q_solve; simpl; q_solve. Qed.

Lemma glm_max_ge_l : ext_leb a (AABB.glm_max a (Some b)) = true.
Proof. unfold ext_leb. destruct a, b; simpl; q_solve; simpl; q_solve. Qed.

Lemma glm_max_ge_r : ext_leb b (AABB.glm_max a (Some b)) = true.
Proof. unfold ext_leb. destruct a, b; simpl; q_solve; simpl; q_solve. Qed.

Lemma glm_min_comm :
  ext_eq (AABB.glm_min a (Some b)) (AABB.glm_min b (Some a)).
Proof. destruct a, b; simpl; q_solve; simpl; q_solve; exact I. Qed.

Lemma glm_max_comm :
  ext_eq (AABB.glm_max a (Some b)) (AABB.glm_max b (Some a)).
Proof. destruct a, b; simpl; q_solve; simpl; q_solve; exact I. Qed.

Lemma glm_min_assoc :
  ext_eq (AABB.glm_min (AABB.glm_min a (Some b)) (Some c))
         (AABB.glm_min a (Some (AABB.glm_min b (Some c)))).
Proof.
  destruct a, b, c; simpl; q_solve; simpl; q_solve; simpl; q_solve;
    exact I.
Qed.

Lemma glm_max_assoc :
  ext_eq (AABB.glm_max (AABB.glm_max a (Some b)) (Some c))
         (AABB.glm_max a (Some (AABB.glm_max b (Some c)))).
Proof.
  destruct a, b, c; simpl; q_solve; simpl; q_solve; simpl; q_solve;
    exact I.
Qed.

Lemma glm_min_PInf : AABB.glm_min a (Some PInf) = a.
Proof. destruct a; reflexivity. Qed.

Lemma glm_max_NInf : AABB.glm_max a (Some NInf) = a.
Proof. destruct a; reflexivity. Qed.

End UnionOneAxis.

Lemma f_le_glm_min_l (lo lo' : ext) (p : xfloat) :
  f_le (Some lo) p = true -> f_le (Some (AABB.glm_min lo (Some lo'))) p = true.
Proof.
  intros H. apply f_le_trans with (b := Some lo); [| exact H].
  simpl. apply glm_min_le_l.
Qed.

Lemma f_le_glm_min_r (lo lo' : ext) (p : xfloat) :
  f_le (Some lo') p = true -> f_le (Some (AABB.glm_min lo (Some lo'))) p = true.
Proof.
  intros H. apply f_le_trans with (b := Some lo'); [| exact H].
  simpl. apply glm_min_le_r.
Qed.

Lemma f_le_glm_max_l (hi hi' : ext) (p : xfloat) :
  f_le p (Some hi) = true -> f_le p (Some (AABB.glm_max hi (Some hi'))) = true.
Proof.
  intros H. apply f_le_trans with (b := Some hi); [exact H |].
  simpl. apply glm_max_ge_l.
Qed.

Lemma f_le_glm_max_r (hi hi' : ext) (p : xfloat) :
  f_le p (Some hi') = true -> f_le p (Some (AABB.glm_max hi (Some hi'))) = true.
Proof.
  intros H. apply f_le_trans with (b := Some hi'); [exact H |].
  simpl. apply glm_max_ge_r.
Qed.

(** Break a box-membership fact into its six comparisons, and back. *)
Ltac slabs :=
  unfold AABB.contains_point, AABB.Union_with_3D_AABB, AABB.Union_with_point,
    some3, vmap, vzip;
  cbn [vx vy vz min_slab_values max_slab_values];
  repeat rewrite andb_true_iff.

Lemma contains_point_union_l (A B : AABB_3D) (p : xvec3) :
  AABB.contains_point A p = true ->
  AABB.contains_point (AABB.Union_with_3D_AABB A B) p = true.
Proof.
  slabs. intros [[[? ?] [? ?]] [? ?]].
  repeat split; auto using f_le_glm_min_l, f_le_glm_max_l.
Qed.

Lemma contains_point_union_r (A B : AABB_3D) (p : xvec3) :
  AABB.contains_point B p = true ->
  AABB.contains_point (AABB.Union_with_3D_AABB A B) p = true.
Proof.
  slabs. intros [[[? ?] [? ?]] [? ?]].
  repeat split; auto using f_le_glm_min_r, f_le_glm_max_r.
Qed.

Lemma within_union_l (A B : AABB_3D) :
  AABB_within A (AABB.Union_with_3D_AABB A B).
Proof.
  intros ax; destruct ax;
    cbn [axis_component AABB.Union_with_3D_AABB vzip some3 vmap vx vy vz
         min_slab_values max_slab_values];
    split; auto using glm_min_le_l, glm_max_ge_l.
Qed.

Lemma within_union_r (A B : AABB_3D) :
  AABB_within B (AABB.Union_with_3D_AABB A B).
Proof.
  intros ax; destruct ax;
    cbn [axis_component AABB.Union_with_3D_AABB vzip some3 vmap vx vy vz
         min_slab_values max_slab_values];
    split; auto using glm_min_le_r, glm_max_ge_r.
Qed.

Lemma union_comm (A B : AABB_3D) :
  AABB.eq (AABB.Union_with_3D_AABB A B) (AABB.Union_with_3D_AABB B A).
Proof.
  unfold AABB.eq, AABB.evec3_eq, AABB.Union_with_3D_AABB, vzip, some3, vmap;
    cbn [vx vy vz min_slab_values max_slab_values].
  repeat split; auto using glm_min_comm, glm_max_comm.
Qed.

Lemma union_assoc (A B C : AABB_3D) :
  AABB.eq (AABB.Union_with_3D_AABB (AABB.Union_with_3D_AABB A B) C)
          (AABB.Union_with_3D_AABB A (AABB.Union_with_3D_AABB B C)).
Proof.
  unfold AABB.eq, AABB.evec3_eq, AABB.Union_with_3D_AABB, vzip, some3, vmap;
    cbn [vx vy vz min_slab_values max_slab_values].
  repeat split; auto using glm_min_assoc, glm_max_assoc.
Qed.

Lemma union_empty_r (A : AABB_3D) :
  AABB.Union_with_3D_AABB A AABB.empty = A.
Proof.
  destruct A as [[lx ly lz] [hx hy hz]].
  unfold AABB.Union_with_3D_AABB, AABB.empty, vzip, some3, vmap;
    cbn [vx vy vz min_slab_values max_slab_values].
  now rewrite !glm_min_PInf, !glm_max_NInf.
Qed.

Lemma union_empty_l (A : AABB_3D) :
  AABB.Union_with_3D_AABB AABB.empty A = A.
Proof.
  destruct A as [[lx ly lz] [hx hy hz]].
  unfold AABB.Union_with_3D_AABB, vzip; simpl.
  destruct lx, ly, lz, hx, hy, hz; reflexivity.
Qed.

Lemma empty_contains_no_point (p : xvec3) :
  AABB.contains_point AABB.empty p = false.
Proof.
  unfold AABB.contains_point; simpl.
  destruct (vx p) as [[| |]|]; reflexivity.
Qed.

Lemma empty_intersects_iff (box : AABB_3D) :
  AABB.intersects_with_3D_AABB AABB.empty box = true
  <-> box = AABB_everything.
Proof.
  destruct box as [[lx ly lz] [hx hy hz]].
  unfold AABB.intersects_with_3D_AABB, AABB_everything; simpl. split.
  - rewrite !andb_true_iff. unfold ext_leb.
    intros [[[? ?] [? ?]] [? ?]].
    destruct lx, ly, lz, hx, hy, hz; simpl in *; try discriminate.
    reflexivity.
  - intros H; inversion H; reflexivity.
Qed.

Lemma intersects_empty_iff (box : AABB_3D) :
  AABB.intersects_with_3D_AABB box AABB.empty = true
  <-> box = AABB_everything.
Proof.
  destruct box as [[lx ly lz] [hx hy hz]].
  unfold AABB.intersects_with_3D_AABB, AABB_everything; simpl. split.
  - rewrite !andb_true_iff. unfold ext_leb.
    intros [[[? ?] [? ?]] [? ?]].
    destruct lx, ly, lz, hx, hy, hz; simpl in *; try discriminate.
    reflexivity.
  - intros H; inversion H; reflexivity.
Qed.

(** C6, as stated, fails: the empty box passes the box-box test against the
    box of everything, which is not the empty box. *)
Lemma empty_box_intersects_everything :
  ~ empty_box_intersects_only_empty.
Proof.
  intros H. specialize (H AABB_everything).
  assert (Hne : ~ AABB.eq AABB_everything AABB.empty).
  { unfold AABB.eq, AABB.evec3_eq; simpl. tauto. }
  specialize (H Hne). vm_compute in H. discriminate.
Qed.

(** C6, amended: the union of two boxes contains every point of either box
    and encloses both; union is commutative and associative; the empty box
    is its identity on both sides; the empty box contains no point; and the
    empty box passes the box-box test, in either order, against the box of
    everything and against no other box, so not against itself either. *)
Theorem union_monotone_monoid_and_empty_box (A B C : AABB_3D) (p : xvec3) :
  (AABB.contains_point A p = true ->
   AABB.contains_point (AABB.Union_with_3D_AABB A B) p = true)
  /\ (AABB.contains_point B p = true ->
      AABB.contains_point (AABB.Union_with_3D_AABB A B) p = true)
  /\ AABB_within A (AABB.Union_with_3D_AABB A B)
  /\ AABB_within B (AABB.Union_with_3D_AABB A B)
  /\ AABB.eq (AABB.Union_with_3D_AABB A B) (AABB.Union_with_3D_AABB B A)
  /\ AABB.eq (AABB.Union_with_3D_AABB (AABB.Union_with_3D_AABB A B) C)
             (AABB.Union_with_3D_AABB A (AABB.Union_with_3D_AABB B C))
  /\ AABB.Union_with_3D_AABB A AABB.empty = A
  /\ AABB.Union_with_3D_AABB AABB.empty A = A
  /\ AABB.contains_point AABB.empty p = false
  /\ (AABB.intersects_with_3D_AABB AABB.empty A = true
      <-> A = AABB_everything)
  /\ (AABB.intersects_with_3D_AABB A AABB.empty = true
      <-> A = AABB_everything)
  /\ AABB.intersects_with_3D_AABB AABB.empty AABB.empty = false.
Proof.
  split; [apply contains_point_union_l |].
  split; [apply contains_point_union_r |].
  split; [apply within_union_l |].
  split; [apply within_union_r |].
  split; [apply union_comm |].
  split; [apply union_assoc |].
  split; [apply union_empty_r |].
  split; [apply union_empty_l |].
  split; [apply empty_contains_no_point |].
  split; [apply empty_intersects_iff |].
  split; [apply intersects_empty_iff |].
  reflexivity.
Qed.

(* ================================================================= *)
(** ** The slab test *)

Lemma Qinv_neg (d : Q) : d < 0 -> / d < 0.
Proof.
  destruct d as [[|n|n] den]; unfold Qlt, Qinv; simpl; intros; try lia.
Qed.

Lemma div_le_pos (a t d : Q) : 0 < d -> a <= t * d -> a * / d <= t.
Proof. intros Hd H. apply Qle_shift_div_r; assumption. Qed.

Lemma div_ge_pos (a t d : Q) : 0 < d -> t * d <= a -> t <= a * / d.
Proof. intros Hd H. apply Qle_shift_div_l; assumption. Qed.

Lemma div_neg_flip (a d : Q) : ~ d == 0 -> a * / d == (- a) * / (- d).
Proof. intros Hd. field. exact Hd. Qed.

Lemma div_le_neg (a t d : Q) : d < 0 -> a <= t * d -> t <= a * / d.
Proof.
  intros Hd H. rewrite div_neg_flip by lra.
  apply Qle_shift_div_l; lra.
Qed.

Lemma div_ge_neg (a t d : Q) : d < 0 -> t * d <= a -> a * / d <= t.
Proof.
  intros Hd H. rewrite div_neg_flip by lra.
  apply Qle_shift_div_r; lra.
Qed.

Lemma reciprocal_nonzero (d : Q) : ~ d == 0 -> reciprocal d = Fin (/ d).
Proof.
  intros Hd. unfold reciprocal.
  destruct (Qeq_bool d 0) eqn:E; [| reflexivity].
  apply Qeq_bool_iff in E. contradiction.
Qed.

(** Distance to a plane along a ray that goes up on the axis. *)
Lemma slab_distance_pos (s : ext) (o d : Q) :
  0 < d ->
  AABB.slab_distance s o (Fin (/ d))
  = Some match s with
         | NInf => NInf
         | Fin q => Fin ((q + - o) * / d)
         | PInf => PInf
         end.
Proof.
  intros Hd. pose proof (Qinv_lt_0_compat d Hd) as Hi.
  apply Qltb_lt in Hi.
  unfold AABB.slab_distance, finite, f_mul, f_sub, f_lift2.
  destruct s; cbn [ext_add ext_opp ext_mul ext_sign]; rewrite ?Hi; reflexivity.
Qed.

(** Distance to a plane along a ray that goes down on the axis. *)
Lemma slab_distance_neg (s : ext) (o d : Q) :
  d < 0 ->
  AABB.slab_distance s o (Fin (/ d))
  = Some match s with
         | NInf => PInf
         | Fin q => Fin ((q + - o) * / d)
         | PInf => NInf
         end.
Proof.
  intros Hd. pose proof (Qinv_neg d Hd) as Hi.
  assert (H0 : Qltb 0 (/ d) = false) by (apply Qltb_ge; lra).
  apply Qltb_lt in Hi.
  unfold AABB.slab_distance, finite, f_mul, f_sub, f_lift2.
  destruct s; cbn [ext_add ext_opp ext_mul ext_sign]; rewrite ?H0, ?Hi;
    reflexivity.
Qed.

(** On one axis, with a direction that is not zero there: entry and exit
    are numbers, and a point of the ray between the two planes has its
    parameter between entry and exit. *)
Lemma axis_entry_exit_sound (b : AABB_3D) (o d : vec3) (a : Axis) (t pt : Q) :
  ~ axis_component a d == 0 ->
  pt == axis_component a o + t * axis_component a d ->
  ext_leb (axis_component a (min_slab_values b)) (Fin pt) = true ->
  ext_leb (Fin pt) (axis_component a (max_slab_values b)) = true ->
  exists e x : ext,
    axis_entry_exit b (Ray_ctor o d) a = (Some e, Some x)
    /\ ext_leb e (Fin t) = true /\ ext_leb (Fin t) x = true.
Proof.
  intros Hd Hpt Hlo Hhi.
  unfold axis_entry_exit.
  assert (Hr : axis_component a (direction_reciprocal (Ray_ctor o d))
               = Fin (/ axis_component a d)).
  { destruct a; simpl; now apply reciprocal_nonzero. }
  rewrite Hr. cbn [m_origin m_direction Ray_ctor].
  set (da := axis_component a d) in *.
  set (oa := axis_component a o) in *.
  revert Hlo Hhi.
  generalize (axis_component a (min_slab_values b)) as lo.
  generalize (axis_component a (max_slab_values b)) as hi.
  intros hi lo Hlo Hhi. unfold ext_leb in *.
  destruct (Qltb da 0) eqn:Eneg.
  - apply Qltb_lt in Eneg.
    rewrite !slab_distance_neg by assumption.
    eexists; eexists; split; [reflexivity |].
    destruct lo, hi; simpl in *; try discriminate; try (split; reflexivity);
      q_props; split; q_props; try reflexivity;
      try (apply div_ge_neg; [assumption | lra]);
      try (apply div_le_neg; [assumption | lra]).
  - apply Qltb_ge in Eneg.
    assert (Hpos : 0 < da) by (destruct (Qlt_le_dec 0 da); [assumption |];
                               exfalso; apply Hd; lra).
    rewrite !slab_distance_pos by assumption.
    eexists; eexists; split; [reflexivity |].
    destruct lo, hi; simpl in *; try discriminate; try (split; reflexivity);
      q_props; split; q_props; try reflexivity;
      try (apply div_le_pos; [assumption | lra]);
      try (apply div_ge_pos; [assumption | lra]).
Qed.

Lemma ext_ltb_leb (a b : ext) : ext_ltb a b = true -> ext_leb a b = true.
Proof. unfold ext_leb. destruct a, b; simpl; intros; q_solve. Qed.

Lemma ext_ltb_false_leb (a b : ext) : ext_ltb a b = false -> ext_leb b a = true.
Proof. unfold ext_leb. now intros ->. Qed.

Create HintDb slab.
#[local] Hint Resolve ext_ltb_leb ext_ltb_false_leb ext_leb_refl : slab.

Lemma std_max3 (a b c : ext) :
  exists m,
    std_max (Some a) (std_max (Some b) (Some c)) = Some m
    /\ (m = a \/ m = b \/ m = c)
    /\ ext_leb a m = true /\ ext_leb b m = true /\ ext_leb c m = true.
Proof.
  unfold std_max. cbn [f_lt].
  destruct (ext_ltb b c) eqn:Ebc; cbn [f_lt];
    [destruct (ext_ltb a c) eqn:Ea | destruct (ext_ltb a b) eqn:Ea];
    eexists; (split; [reflexivity |]); (split; [tauto |]);
    repeat split; eauto using ext_leb_trans with slab.
Qed.

Lemma std_min3 (a b c : ext) :
  exists m,
    std_min (Some a) (std_min (Some b) (Some c)) = Some m
    /\ (m = a \/ m = b \/ m = c)
    /\ ext_leb m a = true /\ ext_leb m b = true /\ ext_leb m c = true.
Proof.
  unfold std_min. cbn [f_lt].
  destruct (ext_ltb c b) eqn:Ebc; cbn [f_lt];
    [destruct (ext_ltb c a) eqn:Ea | destruct (ext_ltb b a) eqn:Ea];
    eexists; (split; [reflexivity |]); (split; [tauto |]);
    repeat split; eauto using ext_leb_trans with slab.
Qed.

(** The code's test, read through the per-axis entry and exit distances. *)
Lemma intersects_with_ray_unfold (b : AABB_3D) (ray : Ray) :
  AABB.intersects_with_ray b ray (direction_reciprocal ray)
                           (AABB.direction_is_negative ray)
  = (let t_in :=
       std_max (fst (axis_entry_exit b ray X_axis))
               (std_max (fst (axis_entry_exit b ray Y_axis))
                        (fst (axis_entry_exit b ray Z_axis))) in
     let t_out :=
       std_min (snd (axis_entry_exit b ray X_axis))
               (std_min (snd (axis_entry_exit b ray Y_axis))
                        (snd (axis_entry_exit b ray Z_axis))) in
     f_ge t_out (finite 0) && f_le t_in t_out).
Proof.
  unfold AABB.intersects_with_ray, AABB.direction_is_negative, axis_entry_exit.
  cbn [axis_component].
  destruct (Qltb (vx (m_direction ray)) 0),
           (Qltb (vy (m_direction ray)) 0),
           (Qltb (vz (m_direction ray)) 0); cbn [fst snd];
    match goal with |- (if ?c then true else false) = _ => destruct c end;
    reflexivity.
Qed.

Lemma axis_entry_exit_defined (b : AABB_3D) (o d : vec3) (a : Axis) :
  ~ axis_component a d == 0 ->
  exists e x : ext, axis_entry_exit b (Ray_ctor o d) a = (Some e, Some x).
Proof.
  intros Hd. unfold axis_entry_exit.
  assert (Hr : axis_component a (direction_reciprocal (Ray_ctor o d))
               = Fin (/ axis_component a d)).
  { destruct a; simpl; now apply reciprocal_nonzero. }
  rewrite Hr. cbn [m_origin m_direction Ray_ctor].
  destruct (Qltb (axis_component a d) 0) eqn:Eneg.
  - apply Qltb_lt in Eneg. rewrite !slab_distance_neg by assumption.
    eexists; eexists; reflexivity.
  - apply Qltb_ge in Eneg.
    assert (Hpos : 0 < axis_component a d).
    { destruct (Qlt_le_dec 0 (axis_component a d)); [assumption |].
      exfalso; apply Hd; lra. }
    rewrite !slab_distance_pos by assumption.
    eexists; eexists; reflexivity.
Qed.

(** A point of the ray, at a parameter that is not negative, lies in the
    box: the slab test accepts the ray, with that parameter between entry
    and exit. *)
Lemma slab_test_point_on_ray (b : AABB_3D) (o d : vec3) (t : Q) (pt : vec3) :
  no_axis_aligned_component d ->
  veq pt (Ray_at (Ray_ctor o d) t) ->
  AABB.contains_point b (point pt) = true ->
  exists entry exit : xfloat,
    is_maximum_of entry (axis_entries b (Ray_ctor o d))
    /\ is_minimum_of exit (axis_exits b (Ray_ctor o d))
    /\ AABB.intersects_with_ray b (Ray_ctor o d)
         (direction_reciprocal (Ray_ctor o d))
         (AABB.direction_is_negative (Ray_ctor o d))
       = f_ge exit (finite 0) && f_le entry exit
    /\ f_le entry (finite t) = true /\ f_le (finite t) exit = true.
Proof.
  intros (Hdx & Hdy & Hdz) (Hx & Hy & Hz) Hin.
  unfold AABB.contains_point, point, some3, fin3, vmap in Hin.
  cbn [vx vy vz f_le] in Hin.
  rewrite !andb_true_iff in Hin.
  destruct Hin as [[[Hlx Hhx] [Hly Hhy]] [Hlz Hhz]].
  cbn in Hx, Hy, Hz.
  destruct (axis_entry_exit_sound b o d X_axis t (vx pt) Hdx Hx Hlx Hhx)
    as (ex & xx & EX & Hex & Hxx).
  destruct (axis_entry_exit_sound b o d Y_axis t (vy pt) Hdy Hy Hly Hhy)
    as (ey & xy & EY & Hey & Hxy).
  destruct (axis_entry_exit_sound b o d Z_axis t (vz pt) Hdz Hz Hlz Hhz)
    as (ez & xz & EZ & Hez & Hxz).
  destruct (std_max3 ex ey ez) as (m & Em & Hm & Hmx & Hmy & Hmz).
  destruct (std_min3 xx xy xz) as (n & En & Hn & Hnx & Hny & Hnz).
  exists (Some m), (Some n).
  rewrite intersects_with_ray_unfold.
  unfold axis_entries, axis_exits, is_maximum_of, is_minimum_of.
  cbn [map]. rewrite EX, EY, EZ. cbn [fst snd]. rewrite Em, En.
  split; [| split; [| split; [reflexivity |]]].
  - split.
    + destruct Hm as [-> | [-> | ->]]; simpl; auto.
    + intros e [<- | [<- | [<- | []]]]; assumption.
  - split.
    + destruct Hn as [-> | [-> | ->]]; simpl; auto.
    + intros e [<- | [<- | [<- | []]]]; assumption.
  - cbn [f_le finite]. split.
    + destruct Hm as [-> | [-> | ->]]; assumption.
    + destruct Hn as [-> | [-> | ->]]; assumption.
Qed.

Lemma slab_test_sound (b : AABB_3D) (o d : vec3) (t : Q) (pt : vec3) :
  no_axis_aligned_component d ->
  0 <= t ->
  veq pt (Ray_at (Ray_ctor o d) t) ->
  AABB.contains_point b (point pt) = true ->
  AABB.intersects_with_ray b (Ray_ctor o d)
    (direction_reciprocal (Ray_ctor o d))
    (AABB.direction_is_negative (Ray_ctor o d)) = true.
Proof.
  intros Hd Ht Hpt Hin.
  destruct (slab_test_point_on_ray b o d t pt Hd Hpt Hin)
    as (entry & exit & _ & _ & -> & Hen & Hex).
  apply andb_true_iff; split.
  - unfold f_ge. apply f_le_trans with (b := finite t); [| exact Hex].
    cbn. unfold ext_leb. simpl. q_props. exact Ht.
  - apply f_le_trans with (b := finite t); assumption.
Qed.

(** The code's test, read through the greatest entry and the least exit of
    the pairs it computes. *)
Lemma slab_test_code_entry_exit (b : AABB_3D) (o d : vec3) :
  no_axis_aligned_component d ->
  exists entry exit : xfloat,
    is_maximum_of entry (axis_entries b (Ray_ctor o d))
    /\ is_minimum_of exit (axis_exits b (Ray_ctor o d))
    /\ AABB.intersects_with_ray b (Ray_ctor o d)
         (direction_reciprocal (Ray_ctor o d))
         (AABB.direction_is_negative (Ray_ctor o d))
       = f_ge exit (finite 0) && f_le entry exit
    /\ (AABB.contains_point b (point o) = true ->
        f_le entry (finite 0) = true
        /\ f_le (finite 0) exit = true
        /\ AABB.intersects_with_ray b (Ray_ctor o d)
             (direction_reciprocal (Ray_ctor o d))
             (AABB.direction_is_negative (Ray_ctor o d)) = true).
Proof.
  intros Hd. pose proof Hd as (Hdx & Hdy & Hdz).
  destruct (axis_entry_exit_defined b o d X_axis Hdx) as (ex & xx & EX).
  destruct (axis_entry_exit_defined b o d Y_axis Hdy) as (ey & xy & EY).
  destruct (axis_entry_exit_defined b o d Z_axis Hdz) as (ez & xz & EZ).
  destruct (std_max3 ex ey ez) as (m & Em & Hm & Hmx & Hmy & Hmz).
  destruct (std_min3 xx xy xz) as (n & En & Hn & Hnx & Hny & Hnz).
  exists (Some m), (Some n).
  assert (Hmax : is_maximum_of (Some m) (axis_entries b (Ray_ctor o d))).
  { unfold axis_entries, is_maximum_of. cbn [map].
    rewrite EX, EY, EZ. cbn [fst]. split.
    - destruct Hm as [-> | [-> | ->]]; simpl; auto.
    - intros e [<- | [<- | [<- | []]]]; assumption. }
  assert (Hmin : is_minimum_of (Some n) (axis_exits b (Ray_ctor o d))).
  { unfold axis_exits, is_minimum_of. cbn [map].
    rewrite EX, EY, EZ. cbn [snd]. split.
    - destruct Hn as [-> | [-> | ->]]; simpl; auto.
    - intros e [<- | [<- | [<- | []]]]; assumption. }
  assert (Heq : AABB.intersects_with_ray b (Ray_ctor o d)
                  (direction_reciprocal (Ray_ctor o d))
                  (AABB.direction_is_negative (Ray_ctor o d))
                = f_ge (Some n) (finite 0) && f_le (Some m) (Some n)).
  { rewrite intersects_with_ray_unfold. rewrite EX, EY, EZ.
    cbn [fst snd]. now rewrite Em, En. }
  split; [exact Hmax |]. split; [exact Hmin |]. split; [exact Heq |].
  intros Hin.
  assert (Hpt : veq o (Ray_at (Ray_ctor o d) 0)).
  { unfold veq, Ray_at; cbn. repeat split; ring. }
  destruct (slab_test_point_on_ray b o d 0 o Hd Hpt Hin)
    as (entry & exit & Hmax' & Hmin' & _ & Hen & Hex).
  (* the maximum and the minimum are the ones computed above *)
  assert (Hen0 : f_le (Some m) (finite 0) = true).
  { apply f_le_trans with (b := entry); [| exact Hen].
    apply (proj2 Hmax'). apply (proj1 Hmax). }
  assert (Hex0 : f_le (finite 0) (Some n) = true).
  { apply f_le_trans with (b := exit); [exact Hex |].
    apply (proj2 Hmin'). apply (proj1 Hmin). }
  split; [exact Hen0 |]. split; [exact Hex0 |].
  rewrite Heq. apply andb_true_iff; split.
  - exact Hex0.
  - apply f_le_trans with (b := finite 0); assumption.
Qed.

(** The reciprocal a ray carries is the reciprocal of its direction, and
    the pair the code computes on an axis is the pair the specification
    words. *)
Lemma axis_entry_exit_spec (b : AABB_3D) (o d : vec3) (a : Axis) :
  ~ axis_component a d == 0 ->
  axis_entry_exit b (Ray_ctor o d) a = spec_axis_entry_exit b o d a.
Proof.
  intros Hd.
  unfold axis_entry_exit, spec_axis_entry_exit, spec_parametric_distance,
    AABB.slab_distance.
  assert (Hr : axis_component a (direction_reciprocal (Ray_ctor o d))
               = Fin (/ axis_component a d)).
  { destruct a; simpl; now apply reciprocal_nonzero. }
  rewrite Hr. reflexivity.
Qed.

(** The parametric distance to a plane is the parameter at which the ray
    meets the plane. *)
Lemma spec_parametric_distance_meets_plane (plane origin direction : Q) :
  ~ direction == 0 ->
  exists t : Q,
    spec_parametric_distance (Fin plane) origin direction = finite t
    /\ origin + t * direction == plane.
Proof.
  intros Hd. exists ((plane + - origin) * / direction). split.
  - reflexivity.
  - field. exact Hd.
Qed.

(** C2: for a ray with no component of its direction exactly zero, the
    parametric distance to a plane is the offset of the plane from the
    origin times the reciprocal of the direction, which is the parameter at
    which the ray meets the plane; on each axis the entry and exit are the
    distances to the two planes of the box, exchanged where the direction
    is negative; with [entry] the largest of the three entries and [exit]
    the smallest of the three exits, the test answers
    [exit >= 0 && entry <= exit]; and a ray whose origin lies in the box is
    accepted, with [entry <= 0 <= exit]. *)
Theorem slab_test_entry_exit (b : AABB_3D) (o d : vec3) :
  no_axis_aligned_component d ->
  (forall (a : Axis) (plane : Q),
      exists t : Q,
        spec_parametric_distance (Fin plane) (axis_component a o)
                                 (axis_component a d) = finite t
        /\ axis_component a o + t * axis_component a d == plane)
  /\ exists entry exit : xfloat,
      is_maximum_of entry (spec_entries b o d)
      /\ is_minimum_of exit (spec_exits b o d)
      /\ AABB.intersects_with_ray b (Ray_ctor o d)
           (direction_reciprocal (Ray_ctor o d))
           (AABB.direction_is_negative (Ray_ctor o d))
         = f_ge exit (finite 0) && f_le entry exit
      /\ (AABB.contains_point b (point o) = true ->
          f_le entry (finite 0) = true
          /\ f_le (finite 0) exit = true
          /\ AABB.intersects_with_ray b (Ray_ctor o d)
               (direction_reciprocal (Ray_ctor o d))
               (AABB.direction_is_negative (Ray_ctor o d)) = true).
Proof.
  intros Hd. pose proof Hd as (Hdx & Hdy & Hdz). split.
  - intros a plane. apply spec_parametric_distance_meets_plane.
    destruct a; assumption.
  - destruct (slab_test_code_entry_exit b o d Hd)
      as (entry & exit & Hmax & Hmin & Heq & Hin).
    exists entry, exit.
    unfold axis_entries, axis_exits in Hmax, Hmin. cbn [map] in Hmax, Hmin.
    rewrite !axis_entry_exit_spec in Hmax, Hmin by assumption.
    split; [exact Hmax |]. split; [exact Hmin |].
    split; [exact Heq | exact Hin].
Qed.

Lemma slab_test_entry_exit_witness :
  no_axis_aligned_component (mkvec3 1 1 1)
  /\ exists entry exit : xfloat,
       is_maximum_of entry
         (spec_entries square_box (mkvec3 (1 # 2) (1 # 2) 0) (mkvec3 1 1 1))
       /\ f_le entry exit = true.
Proof.
  assert (Hd : no_axis_aligned_component (mkvec3 1 1 1)).
  { unfold no_axis_aligned_component; simpl. repeat split; lra. }
  split; [exact Hd |].
  destruct (slab_test_entry_exit square_box (mkvec3 (1 # 2) (1 # 2) 0)
              (mkvec3 1 1 1) Hd)
    as (_ & entry & exit & Hmax & _ & _ & Hin).
  exists entry, exit. split; [exact Hmax |].
  destruct (Hin eq_refl) as (Hen & Hex & _).
  apply f_le_trans with (b := finite 0); assumption.
Defined.

(* ================================================================= *)
(** ** Roots of the quadratic and the sphere *)

Section Quadratic.

Variable sqrt : Q -> Q.

Lemma QuadraticFormula_ordered (A B C x_small x_large : Q) :
  QuadraticFormula sqrt A B C = Some (x_small, x_large) ->
  x_small <= x_large.
Proof.
  unfold QuadraticFormula.
  destruct (Qltb (B * B - 4 * A * C) 0); [discriminate |].
  destruct (if Qeq_bool (B * B - 4 * A * C) 0 then _ else _) as [u v].
  destruct (Qltb v u) eqn:E; intros H; inversion H; subst; q_props; lra.
Qed.

Lemma QuadraticFormula_returns (A B C : Q) :
  0 <= B * B - 4 * A * C ->
  exists x_small x_large,
    QuadraticFormula sqrt A B C = Some (x_small, x_large).
Proof.
  intros Hd. unfold QuadraticFormula.
  destruct (Qltb (B * B - 4 * A * C) 0) eqn:E; [q_props; lra |].
  destruct (if Qeq_bool (B * B - 4 * A * C) 0 then _ else _) as [u v].
  destruct (Qltb v u); eexists; eexists; reflexivity.
Qed.

Lemma QuadraticFormula_none (A B C : Q) :
  QuadraticFormula sqrt A B C = None <-> B * B - 4 * A * C < 0.
Proof.
  unfold QuadraticFormula.
  destruct (Qltb (B * B - 4 * A * C) 0) eqn:E; q_props.
  - tauto.
  - destruct (if Qeq_bool (B * B - 4 * A * C) 0 then _ else _) as [u v].
    destruct (Qltb v u); split; intros H; try discriminate; lra.
Qed.

(** With a square root that is exact on the discriminant, the two values
    are the roots of the quadratic. *)
Lemma QuadraticFormula_roots (A B C x_small x_large : Q) :
  ~ A == 0 ->
  0 <= sqrt (B * B - 4 * A * C) ->
  sqrt (B * B - 4 * A * C) * sqrt (B * B - 4 * A * C) == B * B - 4 * A * C ->
  QuadraticFormula sqrt A B C = Some (x_small, x_large) ->
  is_root A B C x_small /\ is_root A B C x_large.
Proof.
  intros HA Hs0 Hss. unfold QuadraticFormula, is_root.
  set (D := B * B - 4 * A * C) in *. set (s := sqrt D) in *.
  destruct (Qltb D 0) eqn:ED; [discriminate |].
  destruct (Qeq_bool D 0) eqn:E0.
  - q_props.
    assert (HD : B * B == 4 * A * C) by (unfold D in E0; lra).
    assert (Hroot : A * (- (1 # 2) * B / A) * (- (1 # 2) * B / A)
                    + B * (- (1 # 2) * B / A) + C == 0).
    { assert (E : A * (- (1 # 2) * B / A) * (- (1 # 2) * B / A)
                  + B * (- (1 # 2) * B / A) + C
                  == (4 * A * C - B * B) / (4 * A)) by (field; exact HA).
      rewrite E, <- HD. field. exact HA. }
    destruct (Qltb _ _); intros H; inversion H; subst; split; exact Hroot.
  - q_props.
    set (q := if Qltb 0 B then - (1 # 2) * (B + s) else - (1 # 2) * (B - s)).
    assert (Hq : q * q + B * q + A * C == 0).
    { unfold q. destruct (Qltb 0 B).
      - assert (E : - (1 # 2) * (B + s) * (- (1 # 2) * (B + s))
                    + B * (- (1 # 2) * (B + s)) + A * C
                    == (1 # 4) * (s * s - (B * B - 4 * A * C))) by ring.
        rewrite E, Hss. unfold D. ring.
      - assert (E : - (1 # 2) * (B - s) * (- (1 # 2) * (B - s))
                    + B * (- (1 # 2) * (B - s)) + A * C
                    == (1 # 4) * (s * s - (B * B - 4 * A * C))) by ring.
        rewrite E, Hss. unfold D. ring. }
    assert (Hq0 : ~ q == 0).
    { intros Hq0. rewrite Hq0 in Hq.
      assert (HAC : A * C == 0) by lra.
      apply E0. unfold q in Hq0.
      destruct (Qltb 0 B) eqn:EB; q_props.
      - exfalso. lra.
      - assert (Hs : s == 0) by lra.
        rewrite Hs in Hss. lra. }
    assert (R1 : A * (q / A) * (q / A) + B * (q / A) + C == 0).
    { assert (E : A * (q / A) * (q / A) + B * (q / A) + C
                  == (q * q + B * q + A * C) / A) by (field; exact HA).
      rewrite E, Hq. field. exact HA. }
    assert (R2 : A * (C / q) * (C / q) + B * (C / q) + C == 0).
    { assert (E : A * (C / q) * (C / q) + B * (C / q) + C
                  == C * (q * q + B * q + A * C) / (q * q))
        by (field; exact Hq0).
      rewrite E, Hq. field. exact Hq0. }
    fold q. intros H.
    destruct (Qltb (C / q) (q / A)); inversion H; subst; split; assumption.
Qed.

End Quadratic.



(** The record for the unit sphere and the ray along Z: a hit at [t = 2]. *)
Example unit_sphere_hit :
  IR.has_intersection
    (Sphere_GetIntersectionRecord sqrt_floor unit_sphere ray_along_z) = true
  /\ IR.t (Sphere_GetIntersectionRecord sqrt_floor unit_sphere ray_along_z)
     == 2.
Proof. split; vm_compute; reflexivity. Qed.

(* ================================================================= *)
(** ** The ray-triangle test *)

Ltac vec_components :=
  unfold triangle_determinant, solves_ray_triangle, veq, vadd, vscale, vsub,
    dot, cross, vzip, vmap in *;
  cbn [vx vy vz] in *.

Section MollerTrumbore.

Variables v1 v2 v3 o d : vec3.

Let E_1 := vsub v2 v1.
Let E_2 := vsub v3 v1.
Let S := vsub o v1.
Let S_1 := cross d E_2.
Let S_2 := cross S E_1.
Let det := triangle_determinant v1 v2 v3 d.

(** The three numbers the function computes. *)
Let t := dot S_2 E_2 * (1 / det).
Let u := dot S_1 S * (1 / det).
Let v := dot S_2 d * (1 / det).

Lemma RayTriangleIntersection_unfold :
  RayTriangleIntersection v1 v2 v3 o d
  = (Qltb 0 t && Qltb 0 u && Qltb 0 v && Qltb 0 (1 - u - v), t).
Proof. reflexivity. Qed.

Lemma moller_trumbore_solves :
  ~ det == 0 -> solves_ray_triangle v1 v2 v3 o d t u v.
Proof.
  subst t u v det S_2 S_1 S E_2 E_1.
  destruct v1 as [ax ay az], v2 as [bx by_ bz], v3 as [cx cy cz],
           o as [ox oy oz], d as [dx dy dz].
  vec_components. intros Hdet.
  repeat split; field; exact Hdet.
Qed.

Lemma moller_trumbore_unique (t' u' v' : Q) :
  ~ det == 0 ->
  solves_ray_triangle v1 v2 v3 o d t' u' v' ->
  t' == t /\ u' == u /\ v' == v.
Proof.
  subst t u v det S_2 S_1 S E_2 E_1.
  destruct v1 as [ax ay az], v2 as [bx by_ bz], v3 as [cx cy cz],
           o as [ox oy oz], d as [dx dy dz].
  vec_components. intros Hdet (Hx & Hy & Hz).
  repeat split;
    (eapply Qmult_inj_r; [exact Hdet |]);
    match goal with
    | |- _ == ?a * (1 / ?b) * ?b =>
        let E := fresh in
        assert (E : a * (1 / b) * b == a) by (field; exact Hdet); rewrite E
    end;
    nsatz.
Qed.

End MollerTrumbore.

Lemma strictly_inside_iff (t u v : Q) :
  Qltb 0 t && Qltb 0 u && Qltb 0 v && Qltb 0 (1 - u - v) = true
  <-> 0 < t /\ 0 < u /\ 0 < v /\ u + v < 1.
Proof.
  rewrite !andb_true_iff, !Qltb_lt. split.
  - intros [[[Ht Hu] Hv] Huv]. repeat split; try assumption. lra.
  - intros (Ht & Hu & Hv & Huv). repeat split; try assumption. lra.
Qed.

(** C7: the function computes the solution [(t, u, v)] of the ray-triangle
    system (the solution, and the only one, when the determinant is not
    zero), leaves [t] in [t_intersection], and reports an intersection
    exactly when [t > 0], [u > 0], [v > 0] and [u + v < 1], all strict. *)
Theorem RayTriangleIntersection_strictly_inside (v1 v2 v3 o d : vec3) :
  exists t u v : Q,
    snd (RayTriangleIntersection v1 v2 v3 o d) = t
    /\ (fst (RayTriangleIntersection v1 v2 v3 o d) = true
        <-> 0 < t /\ 0 < u /\ 0 < v /\ u + v < 1)
    /\ (~ triangle_determinant v1 v2 v3 d == 0 ->
        solves_ray_triangle v1 v2 v3 o d t u v
        /\ forall t' u' v',
            solves_ray_triangle v1 v2 v3 o d t' u' v' ->
            t' == t /\ u' == u /\ v' == v).
Proof.
  rewrite RayTriangleIntersection_unfold. cbn [fst snd].
  eexists; eexists; eexists. split; [reflexivity |]. split.
  - apply strictly_inside_iff.
  - intros Hdet. split.
    + now apply moller_trumbore_solves.
    + intros t' u' v'. now apply moller_trumbore_unique.
Qed.

(** A graze is rejected: a ray through the vertex [v1] of a triangle. *)
Example vertex_graze_rejected :
  fst (RayTriangleIntersection (mkvec3 0 0 0) (mkvec3 1 0 0) (mkvec3 0 1 0)
                               (mkvec3 0 0 1) (mkvec3 0 0 (-1))) = false.
Proof. reflexivity. Qed.

(* ================================================================= *)
(** ** Sorting *)

Section SortingFacts.

Context {A : Type}.
Variable cmp : A -> A -> bool.

Let ordered : list A -> Prop := Sorted (fun a b => cmp b a = false).

Lemma insert_before_ties_perm (x : A) (l : list A) :
  Permutation (x :: l) (insert_before_ties cmp x l).
Proof.
  induction l as [| y l IH]; simpl; [reflexivity |].
  destruct (cmp y x); [| reflexivity].
  rewrite perm_swap. now apply perm_skip.
Qed.

Lemma insert_after_ties_perm (x : A) (l : list A) :
  Permutation (x :: l) (insert_after_ties cmp x l).
Proof.
  induction l as [| y l IH]; simpl; [reflexivity |].
  destruct (cmp x y); [reflexivity |].
  rewrite perm_swap. now apply perm_skip.
Qed.

Lemma stable_sort_perm (l : list A) : Permutation l (stable_sort cmp l).
Proof.
  induction l as [| x l IH]; simpl; [reflexivity |].
  rewrite <- insert_before_ties_perm. now apply perm_skip.
Qed.

Lemma reversing_sort_perm (l : list A) : Permutation l (reversing_sort cmp l).
Proof.
  induction l as [| x l IH]; simpl; [reflexivity |].
  rewrite <- insert_after_ties_perm. now apply perm_skip.
Qed.

Lemma strict_weak_order_asymmetric (L : list A) :
  strict_weak_order_on cmp L -> asymmetric_on cmp L.
Proof.
  intros (Hirr & Htr & _) x y Hx Hy Hxy.
  destruct (cmp y x) eqn:Hyx; [| reflexivity].
  rewrite <- (Hirr x Hx). symmetry. now apply (Htr x y x).
Qed.

Lemma insert_before_ties_ordered (L : list A) (x : A) (l : list A) :
  asymmetric_on cmp L -> In x L -> incl l L ->
  ordered l -> ordered (insert_before_ties cmp x l).
Proof.
  intros Has Hx. induction l as [| y l IH]; intros Hl Hs; simpl.
  - repeat constructor.
  - destruct (cmp y x) eqn:Eyx.
    + assert (Hy : In y L) by (apply Hl; now left).
      assert (Hl' : incl l L) by (intros z Hz; apply Hl; now right).
      inversion Hs as [| ? ? Hs' Hd]; subst.
      constructor; [now apply IH |].
      destruct l as [| z l]; simpl.
      * constructor. now apply Has.
      * destruct (cmp z x); constructor.
        -- now inversion Hd.
        -- now apply Has.
    + constructor; [exact Hs | constructor; exact Eyx].
Qed.

Lemma insert_after_ties_ordered (L : list A) (x : A) (l : list A) :
  asymmetric_on cmp L -> In x L -> incl l L ->
  ordered l -> ordered (insert_after_ties cmp x l).
Proof.
  intros Has Hx. induction l as [| y l IH]; intros Hl Hs; simpl.
  - repeat constructor.
  - assert (Hy : In y L) by (apply Hl; now left).
    assert (Hl' : incl l L) by (intros z Hz; apply Hl; now right).
    destruct (cmp x y) eqn:Exy.
    + constructor; [exact Hs | constructor; now apply Has].
    + inversion Hs as [| ? ? Hs' Hd]; subst.
      constructor; [now apply IH |].
      destruct l as [| z l]; simpl.
      * constructor. exact Exy.
      * destruct (cmp x z); constructor.
        -- exact Exy.
        -- now inversion Hd.
Qed.

Lemma stable_sort_ordered (l : list A) :
  strict_weak_order_on cmp l -> ordered (stable_sort cmp l).
Proof.
  intros Hswo. apply strict_weak_order_asymmetric in Hswo.
  assert (G : forall l', incl l' l -> ordered (stable_sort cmp l')).
  { induction l' as [| x l' IH]; intros Hl'; simpl; [constructor |].
    apply insert_before_ties_ordered with (L := l); auto.
    - apply Hl'; now left.
    - intros z Hz. apply Hl'. right.
      now apply (Permutation_in _ (Permutation_sym (stable_sort_perm l'))).
    - apply IH. intros z Hz; apply Hl'; now right. }
  apply G, incl_refl.
Qed.

Lemma reversing_sort_ordered (l : list A) :
  strict_weak_order_on cmp l -> ordered (reversing_sort cmp l).
Proof.
  intros Hswo. apply strict_weak_order_asymmetric in Hswo.
  assert (G : forall l', incl l' l -> ordered (reversing_sort cmp l')).
  { induction l' as [| x l' IH]; intros Hl'; simpl; [constructor |].
    apply insert_after_ties_ordered with (L := l); auto.
    - apply Hl'; now left.
    - intros z Hz. apply Hl'. right.
      now apply (Permutation_in _ (Permutation_sym (reversing_sort_perm l'))).
    - apply IH. intros z Hz; apply Hl'; now right. }
  apply G, incl_refl.
Qed.

End SortingFacts.

Lemma stable_sort_contract (A : Type) : std_sort_contract (@stable_sort A).
Proof.
  intros cmp l. split; [apply stable_sort_perm | apply stable_sort_ordered].
Qed.

Lemma reversing_sort_contract (A : Type) :
  std_sort_contract (@reversing_sort A).
Proof.
  intros cmp l.
  split; [apply reversing_sort_perm | apply reversing_sort_ordered].
Qed.

(* ================================================================= *)
(** ** Building the hierarchy *)

Section Build.

Context {E : Type} `{Entity E}.
Variable std_sort : (E -> E -> bool) -> list E -> list E.
Hypothesis std_sort_permutes : forall cmp l, Permutation l (std_sort cmp l).

Lemma sort_along_longest_axis_perm (entities : list E) :
  Permutation entities (sort_along_longest_axis std_sort entities).
Proof.
  unfold sort_along_longest_axis.
  destruct (AABB.longest_axis _); apply std_sort_permutes.
Qed.

Lemma sort_along_longest_axis_length (entities : list E) :
  length (sort_along_longest_axis std_sort entities) = length entities.
Proof.
  symmetry. apply Permutation_length, sort_along_longest_axis_perm.
Qed.

(** One step of [build_BVH] on three entities or more. *)
Lemma build_BVH_split (fuel : nat) (entities : list E) :
  (3 <= length entities)%nat ->
  build_BVH std_sort (S fuel) entities
  = let sorted := sort_along_longest_axis std_sort entities in
    let median := (length sorted / 2)%nat in
    match build_BVH std_sort fuel (firstn median sorted),
          build_BVH std_sort fuel (skipn median sorted) with
    | Some l, Some r =>
        Some (Internal
                (AABB.Union_with_3D_AABB (bounding_volume l)
                                         (bounding_volume r))
                l r)
    | _, _ => None
    end.
Proof.
  destruct entities as [| e0 [| e1 [| e2 rest]]]; simpl length; intros Hn;
    try lia.
  reflexivity.
Qed.

Lemma build_BVH_single (fuel : nat) (e : E) :
  build_BVH std_sort (S fuel) [e] = Some (Leaf (Get3DAABB e) e).
Proof. reflexivity. Qed.

Lemma build_BVH_pair (fuel : nat) (e0 e1 : E) :
  build_BVH std_sort (S (S fuel)) [e0; e1]
  = Some (Internal
            (AABB.Union_with_3D_AABB (Get3DAABB e0) (Get3DAABB e1))
            (Leaf (Get3DAABB e0) e0) (Leaf (Get3DAABB e1) e1)).
Proof. reflexivity. Qed.

Lemma halves_lengths (n : nat) :
  (3 <= n)%nat ->
  (1 <= n / 2 /\ n / 2 < n /\ 1 <= n - n / 2 /\ n - n / 2 < n)%nat.
Proof.
  intros Hn.
  pose proof (Nat.div_mod_eq n 2) as Hdm.
  pose proof (Nat.mod_upper_bound n 2) as Hm.
  lia.
Qed.

(** The call returns: fuel equal to the number of entities is enough. *)
Lemma build_BVH_returns (fuel : nat) (entities : list E) :
  entities <> [] ->
  (length entities <= fuel)%nat ->
  exists tree, build_BVH std_sort fuel entities = Some tree.
Proof.
  revert entities. induction fuel as [| fuel IH]; intros entities Hne Hlen.
  - destruct entities; [congruence | simpl in Hlen; lia].
  - destruct (Nat.le_gt_cases 3 (length entities)) as [H3 | H3].
    + rewrite build_BVH_split by assumption. cbv zeta.
      set (sorted := sort_along_longest_axis std_sort entities).
      assert (Hs : length sorted = length entities)
        by apply sort_along_longest_axis_length.
      pose proof (halves_lengths (length sorted)) as Hh.
      rewrite Hs in Hh. specialize (Hh H3). rewrite Hs.
      destruct (IH (firstn (length entities / 2) sorted)) as [l ->].
      * intros Hnil. apply (f_equal (@length E)) in Hnil.
        rewrite length_firstn in Hnil. cbn [length] in Hnil. lia.
      * rewrite length_firstn. lia.
      * destruct (IH (skipn (length entities / 2) sorted)) as [r ->].
        -- intros Hnil. apply (f_equal (@length E)) in Hnil.
           rewrite length_skipn in Hnil. cbn [length] in Hnil. lia.
        -- rewrite length_skipn. lia.
        -- eexists; reflexivity.
    + destruct entities as [| e0 [| e1 [| e2 rest]]]; simpl in *;
        try congruence; try lia.
      * eexists; reflexivity.
      * destruct fuel; [lia |]. eexists; reflexivity.
Qed.

(** On no entity at all the call never returns. *)
Lemma build_BVH_nil (fuel : nat) : build_BVH std_sort fuel [] = None.
Proof.
  induction fuel as [| fuel IH]; [reflexivity |]. simpl.
  assert (Hnil : sort_along_longest_axis std_sort [] = []).
  { apply Permutation_nil, sort_along_longest_axis_perm. }
  rewrite Hnil. simpl. now rewrite IH.
Qed.

(** More fuel does not change the result. *)
Lemma build_BVH_fuel_mono (fuel fuel' : nat) (entities : list E)
    (tree : BVH_Node E) :
  (fuel <= fuel')%nat ->
  build_BVH std_sort fuel entities = Some tree ->
  build_BVH std_sort fuel' entities = Some tree.
Proof.
  revert fuel' entities tree.
  induction fuel as [| fuel IH]; intros fuel' entities tree Hle Hb;
    [discriminate |].
  destruct fuel' as [| fuel']; [lia |].
  assert (Hle' : (fuel <= fuel')%nat) by lia.
  destruct (Nat.le_gt_cases 3 (length entities)) as [H3 | H3].
  - rewrite build_BVH_split in * by assumption. cbv zeta in *.
    destruct (build_BVH std_sort fuel (firstn _ _)) as [l |] eqn:El;
      [| discriminate].
    destruct (build_BVH std_sort fuel (skipn _ _)) as [r |] eqn:Er;
      [| discriminate].
    rewrite (IH _ _ _ Hle' El), (IH _ _ _ Hle' Er). exact Hb.
  - destruct entities as [| e0 [| e1 [| e2 rest]]]; simpl in H3; try lia.
    + rewrite build_BVH_nil in Hb. discriminate.
    + exact Hb.
    + simpl in *.
      destruct (build_BVH std_sort fuel [e0]) as [l |] eqn:El;
        [| discriminate].
      destruct (build_BVH std_sort fuel [e1]) as [r |] eqn:Er;
        [| discriminate].
      rewrite (IH _ _ _ Hle' El), (IH _ _ _ Hle' Er). exact Hb.
Qed.

(** The leaves of the tree are the entities, rearranged. *)
Lemma build_BVH_leaves (fuel : nat) (entities : list E) (tree : BVH_Node E) :
  build_BVH std_sort fuel entities = Some tree ->
  Permutation entities (leaves tree).
Proof.
  revert entities tree.
  induction fuel as [| fuel IH]; intros entities tree Hb; [discriminate |].
  destruct (Nat.le_gt_cases 3 (length entities)) as [H3 | H3].
  - rewrite build_BVH_split in Hb by assumption. cbv zeta in Hb.
    destruct (build_BVH std_sort fuel (firstn _ _)) as [l |] eqn:El;
      [| discriminate].
    destruct (build_BVH std_sort fuel (skipn _ _)) as [r |] eqn:Er;
      [| discriminate].
    inversion Hb; subst; simpl.
    rewrite <- (IH _ _ El), <- (IH _ _ Er), firstn_skipn.
    apply sort_along_longest_axis_perm.
  - destruct entities as [| e0 [| e1 [| e2 rest]]]; simpl in H3; try lia.
    + rewrite build_BVH_nil in Hb. discriminate.
    + inversion Hb; subst; reflexivity.
    + simpl in Hb.
      destruct (build_BVH std_sort fuel [e0]) as [l |] eqn:El;
        [| discriminate].
      destruct (build_BVH std_sort fuel [e1]) as [r |] eqn:Er;
        [| discriminate].
      inversion Hb; subst; simpl.
      rewrite <- (IH _ _ El), <- (IH _ _ Er). reflexivity.
Qed.

Lemma leaf_count_leaves (tree : BVH_Node E) :
  leaf_count tree = length (leaves tree).
Proof.
  induction tree; simpl; [reflexivity |].
  rewrite length_app. congruence.
Qed.

Lemma internal_count_leaf_count (tree : BVH_Node E) :
  S (internal_count tree) = leaf_count tree.
Proof. induction tree; simpl; lia. Qed.

End Build.

Lemma centroid_less_strict_weak_order {E : Type} `{Entity E}
    (a : Axis) (entities : list E) :
  centroids_defined entities ->
  strict_weak_order_on (centroid_less a) entities.
Proof.
  intros Hdef. unfold strict_weak_order_on, centroid_less.
  assert (Hsome : forall e, In e entities ->
            exists k, axis_component a (AABB.center_vector (Get3DAABB e))
                      = Some k).
  { intros e He. specialize (Hdef e a He).
    destruct (axis_component a _) as [k |]; [now exists k |].
    now contradiction Hdef. }
  split; [| split].
  - intros x Hx. destruct (Hsome x Hx) as [k ->]. apply ext_ltb_irrefl.
  - intros x y z Hx Hy Hz.
    destruct (Hsome x Hx) as [kx ->], (Hsome y Hy) as [ky ->],
             (Hsome z Hz) as [kz ->].
    apply ext_ltb_trans.
  - intros x y z Hx Hy Hz.
    destruct (Hsome x Hx) as [kx ->], (Hsome y Hy) as [ky ->],
             (Hsome z Hz) as [kz ->].
    cbn [f_lt]. destruct kx, ky, kz; simpl; intros; split; q_solve.
Qed.

(** X31 ([build_BVH]).  Whatever [std::sort] does within its promise, on a
    list that is not empty [build_BVH] returns.  One entity gives a leaf
    with that entity and its box; two give an internal node over two such
    leaves, so one internal node and two leaves; three or more are sorted
    by [std::sort] along the longest axis of the box of their centroids (a
    rearrangement in which no centroid coordinate is less than the one
    before it, the order of equal ones being left to [std::sort]), split
    at the median index, and the node is the internal node over the trees
    of the two halves, its box the union of theirs.  The leaves of the
    tree are the entities. *)
Theorem build_BVH_shape {E : Type} `{Entity E}
    (std_sort : (E -> E -> bool) -> list E -> list E) (entities : list E) :
  std_sort_contract std_sort ->
  entities <> [] ->
  exists tree,
    build_BVH std_sort (length entities) entities = Some tree
    /\ Permutation entities (leaves tree)
    /\ (forall e, entities = [e] -> tree = Leaf (Get3DAABB e) e)
    /\ (forall e0 e1, entities = [e0; e1] ->
        tree = Internal
                 (AABB.Union_with_3D_AABB (Get3DAABB e0) (Get3DAABB e1))
                 (Leaf (Get3DAABB e0) e0) (Leaf (Get3DAABB e1) e1)
        /\ internal_count tree = 1%nat /\ leaf_count tree = 2%nat)
    /\ ((3 <= length entities)%nat ->
        let sorted := sort_along_longest_axis std_sort entities in
        let axis := AABB.longest_axis (AABB_of_all_centroids entities) in
        let median := (length entities / 2)%nat in
        Permutation entities sorted
        /\ (centroids_defined entities ->
            Sorted (fun a b => centroid_less axis b a = false) sorted)
        /\ exists l r,
            build_BVH std_sort (length (firstn median sorted))
                      (firstn median sorted) = Some l
            /\ build_BVH std_sort (length (skipn median sorted))
                         (skipn median sorted) = Some r
            /\ tree = Internal
                        (AABB.Union_with_3D_AABB (bounding_volume l)
                                                 (bounding_volume r))
                        l r).
Proof.
  intros Hsort Hne.
  assert (Hperm : forall cmp l, Permutation l (std_sort cmp l))
    by (intros cmp l; apply Hsort).
  destruct (build_BVH_returns std_sort Hperm (length entities) entities Hne
              (Nat.le_refl _)) as [tree Hb].
  exists tree. split; [exact Hb |].
  split; [exact (build_BVH_leaves std_sort Hperm _ _ _ Hb) |].
  split; [| split].
  - intros e ->. simpl in Hb. now inversion Hb.
  - intros e0 e1 ->. simpl in Hb. inversion Hb; subst. auto.
  - intros H3 sorted axis median.
    split; [apply sort_along_longest_axis_perm, Hperm |].
    split.
    + intros Hdef. subst sorted axis. unfold sort_along_longest_axis.
      destruct (AABB.longest_axis (AABB_of_all_centroids entities));
        apply Hsort; now apply centroid_less_strict_weak_order.
    + assert (Hs : length sorted = length entities)
        by apply sort_along_longest_axis_length, Hperm.
      pose proof (halves_lengths (length entities) H3) as Hh.
      destruct (length entities) as [| n] eqn:En; [lia |].
      rewrite build_BVH_split in Hb by lia. cbv zeta in Hb.
      fold sorted in Hb. rewrite Hs in Hb. fold median in Hb.
      destruct (build_BVH std_sort n (firstn median sorted)) as [l |] eqn:El;
        [| discriminate].
      destruct (build_BVH std_sort n (skipn median sorted)) as [r |] eqn:Er;
        [| discriminate].
      exists l, r.
      assert (Hl : firstn median sorted <> []).
      { intros Hnil. apply (f_equal (@length E)) in Hnil.
        rewrite length_firstn in Hnil. cbn [length] in Hnil.
        subst median. lia. }
      assert (Hr : skipn median sorted <> []).
      { intros Hnil. apply (f_equal (@length E)) in Hnil.
        rewrite length_skipn in Hnil. cbn [length] in Hnil.
        subst median. lia. }
      destruct (build_BVH_returns std_sort Hperm _ _ Hl (Nat.le_refl _))
        as [l' Hl'].
      destruct (build_BVH_returns std_sort Hperm _ _ Hr (Nat.le_refl _))
        as [r' Hr'].
      assert (Hfl : (length (firstn median sorted) <= n)%nat)
        by (rewrite length_firstn; subst median; lia).
      assert (Hfr : (length (skipn median sorted) <= n)%nat)
        by (rewrite length_skipn; subst median; lia).
      pose proof (build_BVH_fuel_mono std_sort Hperm _ _ _ _ Hfl Hl') as Hl2.
      pose proof (build_BVH_fuel_mono std_sort Hperm _ _ _ _ Hfr Hr') as Hr2.
      rewrite El in Hl2. rewrite Er in Hr2.
      inversion Hl2; inversion Hr2; subst l' r'.
      split; [exact Hl' |]. split; [exact Hr' |].
      now inversion Hb.
Qed.

Lemma build_BVH_shape_witness :
  exists tree,
    build_BVH stable_sort 2 [square_lower; square_upper] = Some tree
    /\ internal_count tree = 1%nat /\ leaf_count tree = 2%nat.
Proof.
  assert (Hne : [square_lower; square_upper] <> []) by discriminate.
  destruct (build_BVH_shape stable_sort [square_lower; square_upper]
              (stable_sort_contract TrianglePrimitive) Hne)
    as (tree & Hb & _ & _ & Hpair & _).
  exists tree. split; [exact Hb |].
  exact (proj2 (Hpair square_lower square_upper eq_refl)).
Defined.

(** The promise of [std::sort] does not settle the order of entities whose
    centroids tie: on three triangles whose centroids coincide, a sort that
    keeps the promise and leaves equivalent elements in reverse order gives
    a tree whose left half holds the last triangle, where a stable sort
    puts the first.  Which of the two the program builds is the library's
    choice. *)
Lemma std_sort_promise_leaves_ties_open :
  ~ build_BVH_sorts_stably TrianglePrimitive.
Proof.
  intros Hstable.
  specialize (Hstable reversing_sort (reversing_sort_contract _)
                [coincident 0; coincident 1; coincident 2]).
  assert (H3 : (3 <= length [coincident 0; coincident 1; coincident 2])%nat)
    by (simpl; lia).
  specialize (Hstable H3).
  vm_compute in Hstable. discriminate.
Qed.

(* ================================================================= *)
(** ** Traversal against the linear scan *)

(** C1, as stated, fails, however the scan settles a tie.  Two coincident
    triangles are both hit at parameter 1: a scan that keeps the first of
    the nearest hits returns the first triangle, and the traversal, which
    returns the right child unless the left one is strictly nearer, returns
    the second.  Three nested triangles are all hit at parameter 1: a scan
    that keeps the last returns the third triangle, and the traversal, after
    the sort has put the first triangle last, returns the first. *)
Lemma traversal_tie_other_primitive :
  ~ traversal_is_linear_scan TrianglePrimitive.
Proof.
  intros [[|] Hsame].
  - destruct (Hsame stable_sort nested_triangles ray_to_triangle
                {| root := build_BVH stable_sort 3 nested_triangles;
                   m_primitives := nested_triangles |}
                (stable_sort_contract _)) as [Hent _].
    + discriminate.
    + reflexivity.
    + vm_compute in Hent. discriminate.
  - destruct (Hsame stable_sort [coincident 0; coincident 1] ray_to_triangle
                {| root := build_BVH stable_sort 2
                             [coincident 0; coincident 1];
                   m_primitives := [coincident 0; coincident 1] |}
                (stable_sort_contract _)) as [Hent _].
    + discriminate.
    + reflexivity.
    + vm_compute in Hent. discriminate.
Qed.

Example traversal_tie_records :
  IR.hitted_entity
    (linear_scan false [coincident 0; coincident 1] ray_to_triangle)
  = Some 0%nat
  /\ option_map
       (fun node =>
          IR.hitted_entity (traverse_BVH_from_node node ray_to_triangle))
       (build_BVH stable_sort 2 [coincident 0; coincident 1])
     = Some (Some 1%nat)
  /\ IR.hitted_entity (linear_scan true nested_triangles ray_to_triangle)
     = Some 2%nat
  /\ option_map
       (fun node =>
          IR.hitted_entity (traverse_BVH_from_node node ray_to_triangle))
       (build_BVH stable_sort 3 nested_triangles)
     = Some (Some 0%nat).
Proof. repeat split; vm_compute; reflexivity. Qed.

Section AgreementFacts.

Context {E : Type} `{Entity E}.
Variables o d : vec3.
Hypothesis direction_not_aligned : no_axis_aligned_component d.

Let ray : Ray := Ray_ctor o d.

Lemma contains_point_built (tree : BVH_Node E) (e : E) (p : xvec3) :
  boxes_built tree ->
  In e (leaves tree) ->
  AABB.contains_point (Get3DAABB e) p = true ->
  AABB.contains_point (bounding_volume tree) p = true.
Proof.
  induction tree as [b e' | b l IHl r IHr]; simpl.
  - intros -> [<- | []]. trivial.
  - intros (-> & Hl & Hr) Hin Hc. apply in_app_or in Hin.
    destruct Hin as [Hin | Hin].
    + apply contains_point_union_l. now apply IHl.
    + apply contains_point_union_r. now apply IHr.
Qed.

(** The box of a node accepts a ray that hits one of its leaves. *)
Lemma box_accepts_hit (tree : BVH_Node E) (e : E) :
  boxes_built tree ->
  In e (leaves tree) ->
  well_behaved e ray ->
  IR.has_intersection (GetIntersectionRecord e ray) = true ->
  AABB.intersects_with_ray (bounding_volume tree) ray
    (direction_reciprocal ray) (AABB.direction_is_negative ray) = true.
Proof.
  intros Hb Hin Hwb Hhit. unfold well_behaved in Hwb.
  rewrite Hhit in Hwb. destruct Hwb as (H0 & _ & Hc).
  apply slab_test_sound
    with (t := IR.t (GetIntersectionRecord e ray))
         (pt := Ray_at ray (IR.t (GetIntersectionRecord e ray))).
  - exact direction_not_aligned.
  - exact H0.
  - unfold veq. repeat split; reflexivity.
  - now apply contains_point_built with (e := e).
Qed.

Lemma nearest_among_incl (l l' : list E) (record : IntersectionRecord) :
  (forall e, In e l <-> In e l') ->
  nearest_among l ray record -> nearest_among l' ray record.
Proof.
  intros Hiff [Hrec Hmin]. split.
  - destruct Hrec as [-> | (e & He & Hr & Hh)]; [now left |].
    right. exists e. split; [now apply Hiff | auto].
  - intros e He. apply Hmin. now apply Hiff.
Qed.

Lemma traverse_nearest (tree : BVH_Node E) :
  boxes_built tree ->
  (forall e, In e (leaves tree) -> well_behaved e ray) ->
  nearest_among (leaves tree) ray (traverse_BVH_from_node tree ray).
Proof.
  induction tree as [b e | b l IHl r IHr]; intros Hb Hwb.
  - (* a leaf *)
    cbn [traverse_BVH_from_node bounding_volume leaves].
    destruct (AABB.intersects_with_ray b ray _ _) eqn:Ebox; cbn [negb].
    + pose proof (Hwb e (or_introl eq_refl)) as Hw. unfold well_behaved in Hw.
      destruct (IR.has_intersection (GetIntersectionRecord e ray)) eqn:Eh.
      * split.
        -- right. exists e. repeat split; auto. now left.
        -- intros e' [<- | []] _. apply Qle_refl.
      * split; [now left |].
        intros e' [<- | []] Hh. congruence.
    + split; [now left |].
      intros e' [<- | []] Hh.
      pose proof (box_accepts_hit (Leaf b e) e Hb (or_introl eq_refl)
                    (Hwb e (or_introl eq_refl)) Hh) as Hacc.
      cbn [bounding_volume] in Hacc. congruence.
  - (* an internal node *)
    cbn [traverse_BVH_from_node bounding_volume leaves].
    destruct (AABB.intersects_with_ray b ray _ _) eqn:Ebox; cbn [negb].
    + destruct Hb as (Hbox & Hbl & Hbr).
      assert (Hl : nearest_among (leaves l) ray (traverse_BVH_from_node l ray)).
      { apply IHl; [exact Hbl |]. intros e He. apply Hwb.
        cbn [leaves]. apply in_or_app. now left. }
      assert (Hr : nearest_among (leaves r) ray (traverse_BVH_from_node r ray)).
      { apply IHr; [exact Hbr |]. intros e He. apply Hwb.
        cbn [leaves]. apply in_or_app. now right. }
      destruct Hl as [Hl1 Hl2], Hr as [Hr1 Hr2].
      destruct (Qltb (IR.t (traverse_BVH_from_node l ray))
                     (IR.t (traverse_BVH_from_node r ray))) eqn:Et;
        q_props; split.
      * destruct Hl1 as [-> | (e & He & Hrec & Hh)]; [now left |].
        right. exists e. split; [apply in_or_app; now left | auto].
      * intros e He Hh. apply in_app_or in He. destruct He as [He | He].
        -- now apply Hl2.
        -- specialize (Hr2 e He Hh). lra.
      * destruct Hr1 as [-> | (e & He & Hrec & Hh)]; [now left |].
        right. exists e. split; [apply in_or_app; now right | auto].
      * intros e He Hh. apply in_app_or in He. destruct He as [He | He].
        -- specialize (Hl2 e He Hh). lra.
        -- now apply Hr2.
    + split; [now left |].
      intros e He Hh.
      pose proof (box_accepts_hit (Internal b l r) e Hb He (Hwb e He) Hh)
        as Hacc.
      cbn [bounding_volume] in Hacc. congruence.
Qed.

Lemma nearer_le (ties_to_last : bool) (local closest : IntersectionRecord) :
  nearer ties_to_last local closest = true -> IR.t local <= IR.t closest.
Proof.
  unfold nearer. destruct ties_to_last; intros Hn; q_props; lra.
Qed.

Lemma not_nearer_le (ties_to_last : bool)
    (local closest : IntersectionRecord) :
  nearer ties_to_last local closest = false -> IR.t closest <= IR.t local.
Proof.
  unfold nearer. destruct ties_to_last; intros Hn.
  - apply not_true_iff_false in Hn. rewrite Qle_bool_iff in Hn.
    apply Qlt_le_weak, Qnot_le_lt. exact Hn.
  - q_props. exact Hn.
Qed.

Lemma linear_scan_nearest_from (ties_to_last : bool) (rest done : list E)
    (closest : IntersectionRecord) :
  nearest_among done ray closest ->
  nearest_among (done ++ rest) ray
    (fold_left
       (fun closest e =>
          let local := GetIntersectionRecord e ray in
          if IR.has_intersection local && nearer ties_to_last local closest
          then local else closest)
       rest closest).
Proof.
  revert done closest.
  induction rest as [| e rest IH]; intros done closest Hn.
  - rewrite app_nil_r. exact Hn.
  - cbn [fold_left].
    replace (done ++ e :: rest) with ((done ++ [e]) ++ rest)
      by (rewrite <- app_assoc; reflexivity).
    apply IH. destruct Hn as [Hrec Hmin]. cbv zeta.
    destruct (IR.has_intersection (GetIntersectionRecord e ray)) eqn:Eh;
      cbn [andb].
    + destruct (nearer ties_to_last (GetIntersectionRecord e ray) closest)
        eqn:Et; split.
      * right. exists e. split; [apply in_or_app; right; now left | auto].
      * apply nearer_le in Et.
        intros e' He' Hh. apply in_app_or in He'.
        destruct He' as [He' | [<- | []]].
        -- specialize (Hmin e' He' Hh). lra.
        -- apply Qle_refl.
      * destruct Hrec as [-> | (e0 & He0 & Hr0 & Hh0)]; [now left |].
        right. exists e0. split; [apply in_or_app; now left | auto].
      * apply not_nearer_le in Et.
        intros e' He' Hh. apply in_app_or in He'.
        destruct He' as [He' | [<- | []]]; [now apply Hmin | exact Et].
    + split.
      * destruct Hrec as [-> | (e0 & He0 & Hr0 & Hh0)]; [now left |].
        right. exists e0. split; [apply in_or_app; now left | auto].
      * intros e' He' Hh. apply in_app_or in He'.
        destruct He' as [He' | [<- | []]]; [now apply Hmin | congruence].
Qed.

Lemma linear_scan_nearest (ties_to_last : bool) (entities : list E) :
  nearest_among entities ray (linear_scan ties_to_last entities ray).
Proof.
  apply (linear_scan_nearest_from ties_to_last entities [] IR.default).
  split; [now left |]. intros e [].
Qed.

(** Two records that are both the nearest of the same hits agree. *)
Lemma nearest_among_agree (entities : list E) (r s : IntersectionRecord) :
  (forall e, In e entities -> well_behaved e ray) ->
  nearest_among entities ray r ->
  nearest_among entities ray s ->
  IR.has_intersection r = IR.has_intersection s
  /\ IR.t r == IR.t s
  /\ (nearest_hit_unique entities ray -> r = s).
Proof.
  intros Hwb [Hr Hrmin] [Hs Hsmin].
  assert (Hlt : forall e, In e entities ->
            IR.has_intersection (GetIntersectionRecord e ray) = true ->
            IR.t (GetIntersectionRecord e ray) < IR.t IR.default).
  { intros e He Hh. specialize (Hwb e He). unfold well_behaved in Hwb.
    rewrite Hh in Hwb. apply Hwb. }
  destruct Hr as [-> | (e1 & He1 & -> & Hh1)],
           Hs as [-> | (e2 & He2 & -> & Hh2)].
  - repeat split; reflexivity.
  - exfalso. specialize (Hrmin e2 He2 Hh2). specialize (Hlt e2 He2 Hh2). lra.
  - exfalso. specialize (Hsmin e1 He1 Hh1). specialize (Hlt e1 He1 Hh1). lra.
  - specialize (Hrmin e2 He2 Hh2). specialize (Hsmin e1 He1 Hh1).
    assert (Heq : IR.t (GetIntersectionRecord e1 ray)
                  == IR.t (GetIntersectionRecord e2 ray)) by lra.
    split; [congruence |]. split; [exact Heq |].
    intros Hu. now apply Hu.
Qed.

End AgreementFacts.

(** Why the direction must have no zero component.  The grazing ray
    touches the unit sphere at [t = 2], and the sphere's own test reports
    it; in the slab test the distance to the plane x = -1 is zero times
    infinity, a NaN, every comparison with it is false, and the box turns
    the ray away. *)
Example grazing_ray_turned_away :
  IR.has_intersection
    (@linear_scan Sphere (Sphere_Entity sqrt_floor) false [unit_sphere]
       grazing_ray)
  = true
  /\ option_map
       (fun node =>
          IR.has_intersection
            (@traverse_BVH_from_node Sphere (Sphere_Entity sqrt_floor)
               node grazing_ray))
       (@build_BVH Sphere (Sphere_Entity sqrt_floor) stable_sort 1
          [unit_sphere])
     = Some false.
Proof. split; vm_compute; reflexivity. Qed.

Lemma build_BVH_boxes {E : Type} `{Entity E}
    (sort : (E -> E -> bool) -> list E -> list E)
    (fuel : nat) (entities : list E) (tree : BVH_Node E) :
  build_BVH sort fuel entities = Some tree -> boxes_built tree.
Proof.
  revert entities tree.
  induction fuel as [| fuel IH]; intros entities tree Hb; [discriminate |].
  destruct entities as [| e0 [| e1 [| e2 rest]]]; cbn [build_BVH] in Hb.
  - cbv zeta in Hb.
    destruct (build_BVH sort fuel _) as [l |] eqn:El; [| discriminate].
    destruct (build_BVH sort fuel (skipn _ _)) as [r |] eqn:Er;
      [| discriminate].
    inversion Hb; subst. simpl. eauto.
  - inversion Hb; subst. reflexivity.
  - destruct (build_BVH sort fuel [e0]) as [l |] eqn:El; [| discriminate].
    destruct (build_BVH sort fuel [e1]) as [r |] eqn:Er; [| discriminate].
    inversion Hb; subst. simpl. eauto.
  - cbv zeta in Hb.
    destruct (build_BVH sort fuel (firstn _ _)) as [l |] eqn:El;
      [| discriminate].
    destruct (build_BVH sort fuel (skipn _ _)) as [r |] eqn:Er;
      [| discriminate].
    inversion Hb; subst. simpl. eauto.
Qed.

(** C1, amended: for a ray with no component of its direction exactly zero
    and entities whose own tests keep [well_behaved], the constructor
    returns a hierarchy, and the traversal from its root agrees with the
    linear scan (however the scan settles a tie) on whether there is a hit
    and on the parameter [t]; the
    record is the default one or that of an entity that is hit, and no hit
    is nearer.  The two return the same record, hence the same primitive,
    when no two entities are hit at the same parameter; on such a tie the
    traversal may return another of the tied primitives.  At an internal
    node whose box accepts the ray both children are traversed and the left
    record is returned when its [t] is strictly smaller, the right one
    otherwise; the default record carries [t = DBL_MAX], so against a hit
    with a smaller [t] it is never the one returned. *)
Theorem traversal_agrees_with_linear_scan {E : Type} `{Entity E}
    (sort : (E -> E -> bool) -> list E -> list E)
    (entities : list E) (o d : vec3) (ties_to_last : bool) :
  std_sort_contract sort ->
  no_axis_aligned_component d ->
  (forall e, In e entities -> well_behaved e (Ray_ctor o d)) ->
  exists bvh,
    BVH_ctor sort entities = Some bvh
    /\ IR.has_intersection (traverse_BVH_from_root bvh (Ray_ctor o d))
       = IR.has_intersection (linear_scan ties_to_last entities (Ray_ctor o d))
    /\ IR.t (traverse_BVH_from_root bvh (Ray_ctor o d))
       == IR.t (linear_scan ties_to_last entities (Ray_ctor o d))
    /\ nearest_among entities (Ray_ctor o d)
         (traverse_BVH_from_root bvh (Ray_ctor o d))
    /\ (nearest_hit_unique entities (Ray_ctor o d) ->
        traverse_BVH_from_root bvh (Ray_ctor o d)
        = linear_scan ties_to_last entities (Ray_ctor o d))
    /\ (forall b l r ray,
          AABB.intersects_with_ray b ray (direction_reciprocal ray)
            (AABB.direction_is_negative ray) = true ->
          traverse_BVH_from_node (Internal b l r) ray
          = if Qltb (IR.t (traverse_BVH_from_node l ray))
                    (IR.t (traverse_BVH_from_node r ray))
            then traverse_BVH_from_node l ray
            else traverse_BVH_from_node r ray)
    /\ IR.has_intersection IR.default = false
    /\ IR.t IR.default = DBL_MAX
    /\ (forall hit : IntersectionRecord,
          IR.t hit < DBL_MAX ->
          (if Qltb (IR.t IR.default) (IR.t hit) then IR.default else hit) = hit
          /\ (if Qltb (IR.t hit) (IR.t IR.default) then hit else IR.default)
             = hit).
Proof.
  intros Hsort Hd Hwb.
  assert (Hperm : forall cmp l, Permutation l (sort cmp l))
    by (intros cmp l; apply Hsort).
  assert (Hnode : forall b l r ray,
            AABB.intersects_with_ray b ray (direction_reciprocal ray)
              (AABB.direction_is_negative ray) = true ->
            traverse_BVH_from_node (Internal b l r) ray
            = if Qltb (IR.t (traverse_BVH_from_node l ray))
                      (IR.t (traverse_BVH_from_node r ray))
              then traverse_BVH_from_node l ray
              else traverse_BVH_from_node r ray).
  { intros b l r ray Hacc. cbn [traverse_BVH_from_node bounding_volume].
    rewrite Hacc. reflexivity. }
  assert (Hdefault : forall hit : IntersectionRecord,
            IR.t hit < DBL_MAX ->
            (if Qltb (IR.t IR.default) (IR.t hit) then IR.default else hit)
            = hit
            /\ (if Qltb (IR.t hit) (IR.t IR.default) then hit else IR.default)
               = hit).
  { intros hit Hlt. cbn [IR.t IR.default].
    assert (E1 : Qltb DBL_MAX (IR.t hit) = false) by (apply Qltb_ge; lra).
    assert (E2 : Qltb (IR.t hit) DBL_MAX = true) by (apply Qltb_lt; exact Hlt).
    now rewrite E1, E2. }
  destruct entities as [| e0 rest] eqn:Eent.
  - (* no entity: no root, and nothing to scan *)
    exists {| root := None; m_primitives := [] |}.
    split; [reflexivity |].
    unfold traverse_BVH_from_root, linear_scan; cbn [root fold_left].
    split; [reflexivity |]. split; [reflexivity |].
    split; [split; [now left | intros e []] |].
    split; [reflexivity |].
    split; [exact Hnode |]. split; [reflexivity |].
    split; [reflexivity | exact Hdefault].
  - rewrite <- Eent in *.
    assert (Hne : entities <> []) by (rewrite Eent; discriminate).
    destruct (build_BVH_returns sort Hperm (length entities) entities Hne
                (Nat.le_refl _)) as [tree Hb].
    exists {| root := Some tree; m_primitives := entities |}.
    assert (Hctor : BVH_ctor sort entities
                    = Some {| root := Some tree; m_primitives := entities |}).
    { unfold BVH_ctor. rewrite Hb. now rewrite Eent at 1. }
    split; [exact Hctor |].
    unfold traverse_BVH_from_root; cbn [root].
    pose proof (build_BVH_leaves sort Hperm _ _ _ Hb) as Hleaves.
    pose proof (build_BVH_boxes sort _ _ _ Hb) as Hboxes.
    assert (Hiff : forall e, In e (leaves tree) <-> In e entities).
    { intros e. split; apply Permutation_in;
        [now apply Permutation_sym | exact Hleaves]. }
    assert (Htrav : nearest_among entities (Ray_ctor o d)
                      (traverse_BVH_from_node tree (Ray_ctor o d))).
    { apply nearest_among_incl with (l := leaves tree); [exact Hiff |].
      apply traverse_nearest; [exact Hd | exact Hboxes |].
      intros e He. apply Hwb. now apply Hiff. }
    pose proof (linear_scan_nearest o d ties_to_last entities) as Hscan.
    destruct (nearest_among_agree o d entities _ _ Hwb Htrav Hscan)
      as (Hhas & Ht & Huniq).
    split; [exact Hhas |]. split; [exact Ht |]. split; [exact Htrav |].
    split; [exact Huniq |].
    split; [exact Hnode |]. split; [reflexivity |].
    split; [reflexivity | exact Hdefault].
Qed.

Lemma traversal_agrees_with_linear_scan_witness :
  exists bvh,
    BVH_ctor stable_sort [square_lower; square_upper] = Some bvh
    /\ IR.t (traverse_BVH_from_root bvh ray_to_square)
       == IR.t (linear_scan false [square_lower; square_upper] ray_to_square).
Proof.
  assert (Hd : no_axis_aligned_component (mkvec3 (1 # 8) (1 # 16) (-1))).
  { unfold no_axis_aligned_component; simpl. repeat split; lra. }
  assert (Hwb : forall e, In e [square_lower; square_upper] ->
                  well_behaved e (Ray_ctor (mkvec3 (1 # 4) (1 # 2) 1)
                                           (mkvec3 (1 # 8) (1 # 16) (-1)))).
  { intros e [<- | [<- | []]]; vm_compute;
      repeat split; try reflexivity; discriminate. }
  destruct (traversal_agrees_with_linear_scan
              stable_sort [square_lower; square_upper]
              (mkvec3 (1 # 4) (1 # 2) 1) (mkvec3 (1 # 8) (1 # 16) (-1)) false
              (stable_sort_contract _) Hd Hwb)
    as (bvh & Hctor & _ & Ht & _).
  exists bvh. split; [exact Hctor | exact Ht].
Defined.

(* ================================================================= *)
(** ** The triangle's own test keeps [well_behaved] *)

Lemma convex_lower (a b c m u v : Q) :
  0 < u -> 0 < v -> u + v < 1 ->
  m <= a -> m <= b -> m <= c ->
  m <= (1 - u - v) * a + u * b + v * c.
Proof.
  intros Hu Hv Huv Ha Hb Hc.
  assert (H1 : 0 <= (1 - u - v) * (a - m)) by (apply Qmult_le_0_compat; lra).
  assert (H2 : 0 <= u * (b - m)) by (apply Qmult_le_0_compat; lra).
  assert (H3 : 0 <= v * (c - m)) by (apply Qmult_le_0_compat; lra).
  lra.
Qed.

Lemma convex_upper (a b c m u v : Q) :
  0 < u -> 0 < v -> u + v < 1 ->
  a <= m -> b <= m -> c <= m ->
  (1 - u - v) * a + u * b + v * c <= m.
Proof.
  intros Hu Hv Huv Ha Hb Hc.
  assert (H1 : 0 <= (1 - u - v) * (m - a)) by (apply Qmult_le_0_compat; lra).
  assert (H2 : 0 <= u * (m - b)) by (apply Qmult_le_0_compat; lra).
  assert (H3 : 0 <= v * (m - c)) by (apply Qmult_le_0_compat; lra).
  lra.
Qed.

(** On one axis, a point with barycentric coordinates strictly inside the
    triangle lies between the least and the greatest vertex coordinate. *)
Lemma barycentric_in_slab (a b c p u v : Q) :
  0 < u -> 0 < v -> u + v < 1 ->
  p == (1 - u - v) * a + u * b + v * c ->
  ext_leb (AABB.glm_min (AABB.fmin (Fin a) (Fin b)) (Some (Fin c))) (Fin p)
  = true
  /\ ext_leb (Fin p) (AABB.glm_max (AABB.fmax (Fin a) (Fin b)) (Some (Fin c)))
     = true.
Proof.
  intros Hu Hv Huv Hp.
  unfold AABB.glm_min, AABB.glm_max, AABB.fmin, AABB.fmax, ext_leb.
  cbn [ext_ltb].
  split.
  - destruct (Qltb b a) eqn:E1; cbn [ext_ltb];
      match goal with |- context [Qltb c ?m] => destruct (Qltb c m) eqn:E2 end;
      cbn [ext_ltb]; q_props; rewrite Hp; apply convex_lower; lra.
  - destruct (Qltb a b) eqn:E1; cbn [ext_ltb];
      match goal with |- context [Qltb ?m c] => destruct (Qltb m c) eqn:E2 end;
      cbn [ext_ltb]; q_props; rewrite Hp; apply convex_upper; lra.
Qed.

Lemma hit_determinant (v1 v2 v3 o d : vec3) :
  fst (RayTriangleIntersection v1 v2 v3 o d) = true ->
  ~ triangle_determinant v1 v2 v3 d == 0.
Proof.
  rewrite RayTriangleIntersection_unfold. cbn [fst].
  rewrite strictly_inside_iff. intros (Ht & _) Hdet.
  rewrite Hdet in Ht.
  assert (E : forall x, x * (1 / 0) == 0)
    by (intros x; unfold Qdiv; change (/ 0) with 0; ring).
  rewrite E in Ht. lra.
Qed.

(** A triangle that is hit is hit at a positive parameter, at a point inside
    its box; a triangle that is missed gives the default record. *)
Lemma Triangle_well_behaved (tr : TrianglePrimitive) (ray : Ray) :
  (IR.has_intersection (GetIntersectionRecord tr ray) = true ->
   IR.t (GetIntersectionRecord tr ray) < DBL_MAX) ->
  well_behaved tr ray.
Proof.
  unfold well_behaved. cbn [GetIntersectionRecord Triangle_Entity Get3DAABB].
  unfold Triangle_GetIntersectionRecord.
  pose proof (hit_determinant (vertice_a tr) (vertice_b tr) (vertice_c tr)
                (m_origin ray) (m_direction ray)) as Hdet.
  pose proof (moller_trumbore_solves (vertice_a tr) (vertice_b tr)
                (vertice_c tr) (m_origin ray) (m_direction ray)) as Hsol.
  rewrite RayTriangleIntersection_unfold in *. cbn [fst] in Hdet.
  set (t := dot _ _ * (1 / _)) in *.
  set (u := dot (cross (m_direction ray) _) _ * (1 / _)) in *.
  set (v := dot _ (m_direction ray) * (1 / _)) in *.
  destruct (Qltb 0 t && Qltb 0 u && Qltb 0 v && Qltb 0 (1 - u - v)) eqn:Ehit;
    cbn [IR.has_intersection IR.t]; [| reflexivity].
  intros Hmax. specialize (Hmax eq_refl).
  specialize (Hsol (Hdet eq_refl)).
  apply strictly_inside_iff in Ehit. destruct Ehit as (Ht & Hu & Hv & Huv).
  split; [lra |]. split; [exact Hmax |].
  destruct Hsol as (Hx & Hy & Hz).
  unfold Triangle_Get3DAABB, AABB.contains_point, AABB.Union_with_point,
    AABB.of_points, point, some3, fin3, vmap, vzip, Ray_at.
  cbn [vx vy vz min_slab_values max_slab_values f_le].
  unfold vadd, vscale, vzip, vmap in *. cbn [vx vy vz] in *.
  destruct (barycentric_in_slab _ _ _ _ u v Hu Hv Huv Hx) as [Hx1 Hx2].
  destruct (barycentric_in_slab _ _ _ _ u v Hu Hv Huv Hy) as [Hy1 Hy2].
  destruct (barycentric_in_slab _ _ _ _ u v Hu Hv Huv Hz) as [Hz1 Hz2].
  rewrite Hx1, Hx2, Hy1, Hy2, Hz1, Hz2. reflexivity.
Qed.

(* ================================================================= *)
(** ** Direct illumination *)

Lemma Qabs_nonneg_id (x : Q) : 0 <= x -> Qabs x == x.
Proof. intros Hx. now apply Qabs_pos. Qed.

Lemma Qabs_opp_id (x : Q) : Qabs (- x) == Qabs x.
Proof. apply Qabs_opp. Qed.

Section DirectLightingFacts.

Variable sqrt : Q -> Q.
Context {E : Type} `{Entity E} `{Light E}.

(** The loop of [SamplingAreaLight] stops at the first emissive entity. *)
Lemma SamplingAreaLight_first_emissive (before after : list E) (e : E)
    (sample : IntersectionRecord) (PDF : Q) (g : RandomSource) :
  (forall x, In x before -> IsEmissive x = false) ->
  IsEmissive e = true ->
  SamplingAreaLight_from (before ++ e :: after) sample PDF g
  = Sampling e sample g.
Proof.
  intros Hb He. induction before as [| x before IH]; simpl.
  - now rewrite He.
  - rewrite (Hb x (or_introl eq_refl)). apply IH.
    intros y Hy. apply Hb. now right.
Qed.

Lemma SamplingAreaLight_no_light (es : list E)
    (sample : IntersectionRecord) (PDF : Q) (g : RandomSource) :
  (forall x, In x es -> IsEmissive x = false) ->
  SamplingAreaLight_from es sample PDF g = (sample, PDF, g).
Proof.
  intros Hes. induction es as [| x es IH]; simpl; [reflexivity |].
  rewrite (Hes x (or_introl eq_refl)). apply IH.
  intros y Hy. apply Hes. now right.
Qed.

(** The surface factor: the BRDF is zero where the cosine is negative. *)
Lemma brdf_times_cosine (m : WhittedMaterial) (L W_out W_in n : vec3) :
  veq (vscale_r (vmul L (BRDF m W_out W_in n)) (dot W_in n))
      (vscale_r (vmul L (BRDF m W_out W_in n)) (Qabs (dot W_in n))).
Proof.
  unfold BRDF. destruct (Qle_bool 0 (dot W_in n)) eqn:E0.
  - apply Qle_bool_iff in E0.
    unfold veq, vscale_r, vmap; cbn [vx vy vz].
    rewrite (Qabs_nonneg_id _ E0). repeat split; reflexivity.
  - unfold veq, vscale_r, vmul, vzip, vmap, vzero; cbn [vx vy vz].
    repeat split; ring.
Qed.

(** The light factor: the normal is turned so that the cosine is positive. *)
Lemma light_cosine_abs (sample : IntersectionRecord) (W_in : vec3) :
  dot (vneg W_in) (arealight_sample_normal_of sample W_in)
  == Qabs (dot (vneg W_in) (IR.surface_normal sample)).
Proof.
  unfold arealight_sample_normal_of.
  assert (Hcomm : dot (IR.surface_normal sample) (vneg W_in)
                  == dot (vneg W_in) (IR.surface_normal sample))
    by (unfold dot; ring).
  destruct (Qltb (dot (IR.surface_normal sample) (vneg W_in)) 0) eqn:E0;
    q_props.
  - assert (Hneg : dot (vneg W_in) (vneg (IR.surface_normal sample))
                   == - dot (vneg W_in) (IR.surface_normal sample))
      by (unfold dot, vneg, vmap; cbn [vx vy vz]; ring).
    rewrite Hneg, <- Qabs_opp_id. symmetry. apply Qabs_nonneg_id. lra.
  - symmetry. apply Qabs_nonneg_id. lra.
Qed.

Lemma direct_term_is_spec (m : WhittedMaterial) (sample : IntersectionRecord)
    (W_out W_in n s2s : vec3) (pdf : Q) :
  veq (direct_term (IR.emission sample) (BRDF m W_out W_in n) W_in n
         (arealight_sample_normal_of sample W_in) s2s pdf)
      (direct_term_spec (IR.emission sample) (BRDF m W_out W_in n)
         (dot W_in n) (dot (vneg W_in) (IR.surface_normal sample))
         (dot s2s s2s) pdf).
Proof.
  unfold direct_term, direct_term_spec.
  pose proof (brdf_times_cosine m (IR.emission sample) W_out W_in n)
    as (Hx & Hy & Hz).
  pose proof (light_cosine_abs sample W_in) as Hl.
  unfold veq, vdiv, vscale_r, vmap in *; cbn [vx vy vz] in *.
  rewrite Hx, Hy, Hz, Hl. repeat split; reflexivity.
Qed.

End DirectLightingFacts.

(** C4, amended: at a shading point that does not emit, one sample is drawn
    from the first emissive entity of the scene and a shadow ray is cast
    towards it; the direct term is added exactly when the distance to the
    sample is less than the [t] of the nearest hit of the shadow ray plus
    0.01, so always when nothing lies strictly before the sample, and never
    when something lies 0.01 or more before it; and the term added is
    [L_e * BRDF * |cos_surface| * |cos_light| / distance^2 / pdf_area], with
    the PDF the sampling routine returned. *)
Theorem direct_illumination_guard_and_term
    (sqrt : Q -> Q) {E : Type} `{Entity E} `{Light E}
    (r : Renderer) (m : WhittedMaterial) (record : IntersectionRecord)
    (W_out : vec3) (PDF_before : Q) (g : RandomSource) :
  let n := shading_point_normal_of record W_out in
  let sample := arealight_sample_of r PDF_before g in
  let pdf_area := arealight_sample_PDF_of r PDF_before g in
  let s2s := shading_point_to_sample_of r record W_out PDF_before g in
  let W_in := glm_normalize sqrt s2s in
  let occlusion := potential_occlusion_of sqrt r record W_out PDF_before g in
  (forall before e after,
      entities r = before ++ e :: after ->
      (forall x, In x before -> IsEmissive x = false) ->
      IsEmissive e = true ->
      SamplingAreaLight r IR.default PDF_before g
      = Sampling e IR.default g)
  /\ fst (direct_illumination sqrt r m record W_out PDF_before g)
     = (if not_occluded sqrt s2s occlusion
        then direct_term (IR.emission sample) (BRDF m W_out W_in n) W_in n
               (arealight_sample_normal_of sample W_in) s2s pdf_area
        else vzero)
  /\ (not_occluded sqrt s2s occlusion = true
      <-> glm_length sqrt s2s < IR.t occlusion + (1 # 100))
  /\ (~ IR.t occlusion < glm_length sqrt s2s ->
      not_occluded sqrt s2s occlusion = true)
  /\ (IR.t occlusion + (1 # 100) <= glm_length sqrt s2s ->
      fst (direct_illumination sqrt r m record W_out PDF_before g) = vzero)
  /\ veq (direct_term (IR.emission sample) (BRDF m W_out W_in n) W_in n
            (arealight_sample_normal_of sample W_in) s2s pdf_area)
         (direct_term_spec (IR.emission sample) (BRDF m W_out W_in n)
            (dot W_in n) (dot (vneg W_in) (IR.surface_normal sample))
            (dot s2s s2s) pdf_area).
Proof.
  intros n sample pdf_area s2s W_in occlusion.
  assert (Hfst : fst (direct_illumination sqrt r m record W_out PDF_before g)
                 = (if not_occluded sqrt s2s occlusion
                    then direct_term (IR.emission sample)
                           (BRDF m W_out W_in n) W_in n
                           (arealight_sample_normal_of sample W_in) s2s
                           pdf_area
                    else vzero)).
  { subst n sample pdf_area s2s W_in occlusion.
    unfold direct_illumination, potential_occlusion_of,
      shading_point_to_sample_of, arealight_sample_of,
      arealight_sample_PDF_of.
    destruct (SamplingAreaLight r IR.default PDF_before g) as [[s p] g'].
    reflexivity. }
  split.
  { intros before e after Hent Hb He. unfold SamplingAreaLight.
    rewrite Hent. now apply SamplingAreaLight_first_emissive. }
  split; [exact Hfst |].
  split; [unfold not_occluded; apply Qltb_lt |].
  split.
  { intros Hnot. unfold not_occluded. apply Qltb_lt.
    assert (Hle : glm_length sqrt s2s <= IR.t occlusion)
      by (apply Qnot_lt_le; exact Hnot).
    lra. }
  split.
  { intros Hfar. rewrite Hfst.
    assert (E0 : not_occluded sqrt s2s occlusion = false)
      by (unfold not_occluded; apply Qltb_ge; exact Hfar).
    now rewrite E0. }
  apply direct_term_is_spec.
Qed.

(** C4, as stated, fails: in [shadow_scene] the shadow ray meets the
    occluding triangle at [t = 0.995], strictly before the light sample at
    distance 1, and the test still lets the direct term through, because
    [1 < 0.995 + 0.01]. *)
Lemma direct_term_despite_near_occluder :
  ~ @direct_term_only_if_nothing_before sqrt_floor TrianglePrimitive _
      (Triangle_Light sqrt_floor).
Proof.
  intros Honly.
  apply (Honly shadow_scene surface_point (mkvec3 0 0 1) 0 shadow_draws
           white_material eq_refl eq_refl).
  - vm_compute. reflexivity.
  - split; vm_compute; reflexivity.
Qed.

(* ================================================================= *)
(** ** Emission, roulette and the indirect term *)

Lemma div_div_mult (x a b : Q) : x / a / b == x / (a * b).
Proof. unfold Qdiv. rewrite Qinv_mult_distr. ring. Qed.

(** C5: a surface that emits returns its emission, with no draw and no
    further call.  Otherwise one number is drawn and compared with the
    constant [RR_survival_probability = 0.8], the same at every depth; when
    the draw is not below it, or the bounce ray misses, or it hits a surface
    that emits, the result is the direct term alone; and when the bounce ray
    hits a surface that does not emit, the indirect term is the radiance of
    the recursive call times the BRDF times the cosine, divided by
    [PDF(w_in) * RR_survival_probability], with [PDF(w_in) = 1 / (2 PI)]. *)
Theorem shading_emission_roulette_indirect
    (sqrt cos sin : Q -> Q) {E : Type} `{Entity E} `{Light E}
    (fuel : nat) (r : Renderer) (PDF_before : Q)
    (record : IntersectionRecord) (W_out : vec3) (g : RandomSource)
    (m : WhittedMaterial) :
  IR.hitted_entity_material record = Some m ->
  let n := shading_point_normal_of record W_out in
  let direct := fst (direct_illumination sqrt r m record W_out PDF_before g) in
  let g1 := snd (direct_illumination sqrt r m record W_out PDF_before g) in
  let xi := fst (get_random_float_0_1 g1) in
  let g2 := snd (get_random_float_0_1 g1) in
  let W_in :=
    glm_normalize sqrt (fst (Material_Sampling sqrt cos sin m W_out n g2)) in
  let g3 := snd (Material_Sampling sqrt cos sin m W_out n g2) in
  let deeper :=
    ray_BVH_intersection_record r
      (Ray_ctor (shading_point_of record W_out) W_in) in
  RR_survival_probability == 8 # 10
  /\ (IsEmitting m = true ->
      shading sqrt cos sin (S fuel) r PDF_before record W_out g
      = Some (GetEmission m, g))
  /\ (IsEmitting m = false ->
      (~ xi < RR_survival_probability ->
       shading sqrt cos sin (S fuel) r PDF_before record W_out g
       = Some (vadd direct vzero, g2))
      /\ (xi < RR_survival_probability ->
          IR.has_intersection deeper = false ->
          shading sqrt cos sin (S fuel) r PDF_before record W_out g
          = Some (vadd direct vzero, g3))
      /\ (xi < RR_survival_probability ->
          IR.has_intersection deeper = true ->
          forall deeper_material,
            IR.hitted_entity_material deeper = Some deeper_material ->
            IsEmitting deeper_material = true ->
            shading sqrt cos sin (S fuel) r PDF_before record W_out g
            = Some (vadd direct vzero, g3))
      /\ (xi < RR_survival_probability ->
          IR.has_intersection deeper = true ->
          forall deeper_material,
            IR.hitted_entity_material deeper = Some deeper_material ->
            IsEmitting deeper_material = false ->
            shading sqrt cos sin (S fuel) r PDF_before record W_out g
            = match shading sqrt cos sin fuel r PDF_before deeper
                            (vneg W_in) g3 with
              | Some (radiance, g4) =>
                  Some (vadd direct (indirect_term m radiance W_out W_in n),
                        g4)
              | None => None
              end))
  /\ (forall radiance,
        veq (indirect_term m radiance W_out W_in n)
            (vdiv (vscale_r (vmul radiance (BRDF m W_out W_in n))
                            (dot W_in n))
                  (PDF_at_the_sample m W_out W_in n
                   * RR_survival_probability)))
  /\ PDF_at_the_sample m W_out W_in n == 1 / (2 * PI).
Proof.
  intros Hm n direct g1 xi g2 W_in g3 deeper.
  split; [reflexivity |].
  split.
  { intros Hem. cbn [shading]. now rewrite Hm, Hem. }
  split.
  { intros Hem.
    assert (Hstep :
      shading sqrt cos sin (S fuel) r PDF_before record W_out g
      = if Qltb xi RR_survival_probability
        then
          if IR.has_intersection deeper
          then
            match IR.hitted_entity_material deeper with
            | None => None
            | Some deeper_material =>
                if negb (IsEmitting deeper_material)
                then
                  match shading sqrt cos sin fuel r PDF_before deeper
                                (vneg W_in) g3 with
                  | Some (radiance, g4) =>
                      Some (vadd direct
                              (indirect_term m radiance W_out W_in n), g4)
                  | None => None
                  end
                else Some (vadd direct vzero, g3)
            end
          else Some (vadd direct vzero, g3)
        else Some (vadd direct vzero, g2)).
    { cbn [shading]. rewrite Hm, Hem.
      subst deeper g3 W_in g2 xi g1 direct n.
      destruct (direct_illumination sqrt r m record W_out PDF_before g)
        as [rd gd].
      cbn [fst snd].
      destruct (get_random_float_0_1 gd) as [x gx]. cbn [fst snd].
      destruct (Material_Sampling sqrt cos sin m W_out
                  (shading_point_normal_of record W_out) gx) as [w gw].
      cbn [fst snd]. reflexivity. }
    rewrite Hstep. clear Hstep.
    split; [| split; [| split]].
    - intros Hge.
      assert (E0 : Qltb xi RR_survival_probability = false)
        by (apply Qltb_ge, Qnot_lt_le; exact Hge).
      now rewrite E0.
    - intros Hlt Hmiss. apply Qltb_lt in Hlt. now rewrite Hlt, Hmiss.
    - intros Hlt Hhit dm Hdm Hdem. apply Qltb_lt in Hlt.
      now rewrite Hlt, Hhit, Hdm, Hdem.
    - intros Hlt Hhit dm Hdm Hdem. apply Qltb_lt in Hlt.
      now rewrite Hlt, Hhit, Hdm, Hdem. }
  split.
  { intros radiance. unfold indirect_term, veq, vdiv, vmap; cbn [vx vy vz].
    repeat split; apply div_div_mult. }
  reflexivity.
Qed.

Lemma shading_emission_roulette_indirect_witness :
  @shading sqrt_floor (fun _ => 1) (fun _ => 0)
    TrianglePrimitive _ (Triangle_Light sqrt_floor) 1
    shadow_scene 0 light_point (mkvec3 0 0 (-1)) shadow_draws
  = Some (mkvec3 1 1 1, shadow_draws).
Proof.
  exact (proj1 (proj2
    (@shading_emission_roulette_indirect sqrt_floor (fun _ => 1) (fun _ => 0)
       TrianglePrimitive _ (Triangle_Light sqrt_floor)
       0 shadow_scene 0 light_point (mkvec3 0 0 (-1)) shadow_draws
       light_material eq_refl)) eq_refl).
Defined.

(* ================================================================= *)
(** ** The temporal filter *)

Section TemporalFacts.

Variable sqrt : Q -> Q.

(** Without a reprojected colour the pixel keeps the colour of the current
    frame. *)
Lemma TemporalFiltering_pixel_unavailable (dn : Denoiser) (g : G_Buffer)
    (x y : Z) :
  reprojection_available dn g x y = false ->
  veq (TemporalFiltering_pixel sqrt dn g x y)
      (FB.at_ vzero (pixel_color g) x y).
Proof.
  intros Hno. unfold TemporalFiltering_pixel.
  destruct (pixel_position_of dn g x y) as [px py]. rewrite Hno.
  unfold veq, vadd, vscale, vzip, vmap, vzero; cbn [vx vy vz].
  repeat split; ring.
Qed.


(** With a reprojected colour the pixel blends the clamped colour of the
    previous frame with the colour of the current one. *)
Lemma TemporalFiltering_pixel_available (dn : Denoiser) (g : G_Buffer)
    (x y : Z) :
  reprojection_available dn g x y = true ->
  TemporalFiltering_pixel sqrt dn g x y
  = vadd
      (vscale (1 - current_frame_weighting dn)
         (clamped_previous_color sqrt dn g x y
            (FB.at_ vzero (pixel_color (previous_frame_g_buffer dn))
               (to_int (fst (pixel_position_of dn g x y)))
               (to_int (snd (pixel_position_of dn g x y))))))
      (vscale (current_frame_weighting dn) (FB.at_ vzero (pixel_color g) x y)).
Proof.
  intros Hyes. unfold TemporalFiltering_pixel.
  destruct (pixel_position_of dn g x y) as [px py]. now rewrite Hyes.
Qed.

End TemporalFacts.

(** C8 at the five-pixel frame.  The colours of the window have mean 3/20
    and standard deviation 1/5, so the specified clamp takes the previous
    colour 39/100 down to 7/20.  The code measures the spread from the
    colour of the pixel itself (here 0) and gets 1/4: its interval reaches
    2/5, the previous colour is left at 39/100, and the pixel comes out as
    39/125 where the specified clamp gives 7/25. *)
Theorem temporal_clamp_measures_from_center_pixel :
  reprojection_available five_pixel_denoiser current_frame 1 0 = true
  /\ veq (local_mean current_frame (temporal_kernel five_pixel_denoiser 1 0))
         (grey (3 # 20))
  /\ veq (local_stddev sqrt_floor current_frame
            (temporal_kernel five_pixel_denoiser 1 0))
         (grey (1 # 5))
  /\ veq (variance_clamp sqrt_floor five_pixel_denoiser current_frame 1 0
            (grey (39 # 100)))
         (grey (7 # 20))
  /\ veq (clamped_previous_color sqrt_floor five_pixel_denoiser current_frame
            1 0 (grey (39 # 100)))
         (grey (39 # 100))
  /\ veq (TemporalFiltering_pixel sqrt_floor five_pixel_denoiser
            current_frame 1 0)
         (grey (39 # 125))
  /\ ~ veq (TemporalFiltering_pixel sqrt_floor five_pixel_denoiser
              current_frame 1 0)
           (vadd (vscale (1 - (2 # 10)) (grey (7 # 20)))
                 (vscale (2 # 10) (grey 0))).
Proof.
  split; [vm_compute; reflexivity |].
  split; [vm_compute; repeat split; reflexivity |].
  split; [vm_compute; repeat split; reflexivity |].
  split; [vm_compute; repeat split; reflexivity |].
  split; [vm_compute; repeat split; reflexivity |].
  split; [vm_compute; repeat split; reflexivity |].
  intros [Hx _]. vm_compute in Hx. discriminate.
Qed.

(* ================================================================= *)
(** ** The sphere's own test keeps [well_behaved] *)

Lemma square_bound (x r : Q) : x * x <= r * r -> 0 <= r -> - r <= x /\ x <= r.
Proof. intros Hx Hr. split; nra. Qed.

(** On one axis, a point of the sphere lies between the two planes of the
    sphere's box. *)
Lemma sphere_point_in_slab (c r p y z : Q) :
  (p - c) * (p - c) + y * y + z * z == r * r ->
  ext_leb (AABB.fmin (Fin (c + r)) (Fin (c - r))) (Fin p) = true
  /\ ext_leb (Fin p) (AABB.fmax (Fin (c + r)) (Fin (c - r))) = true.
Proof.
  intros Hs.
  assert (Hsq : (p - c) * (p - c) <= r * r) by nra.
  unfold AABB.fmin, AABB.fmax, ext_leb. cbn [ext_ltb].
  destruct (Qlt_le_dec r 0) as [Hr | Hr].
  - assert (Hb : - (- r) <= p - c /\ p - c <= - r).
    { apply square_bound; [| lra].
      assert (E : - r * - r == r * r) by ring. rewrite E. exact Hsq. }
    split; q_cases; q_props; lra.
  - destruct (square_bound (p - c) r Hsq Hr).
    split; q_cases; q_props; lra.
Qed.

(** With a square root that is exact on the discriminant, a sphere that is
    hit is hit at a point inside its box, at a parameter that is not
    negative; a sphere that is missed gives the default record. *)
Lemma Sphere_well_behaved (sqrt : Q -> Q) (this : nat) (c : vec3) (r : Q)
    (ray : Ray) (A B C : Q) :
  sphere_quadratic (Sphere_ctor this c r) ray = (A, B, C) ->
  ~ A == 0 ->
  0 <= sqrt (B * B - 4 * A * C) ->
  sqrt (B * B - 4 * A * C) * sqrt (B * B - 4 * A * C) == B * B - 4 * A * C ->
  (IR.has_intersection
     (Sphere_GetIntersectionRecord sqrt (Sphere_ctor this c r) ray) = true ->
   IR.t (Sphere_GetIntersectionRecord sqrt (Sphere_ctor this c r) ray)
   < DBL_MAX) ->
  @well_behaved Sphere (Sphere_Entity sqrt) (Sphere_ctor this c r) ray.
Proof.
  intros Hq HA Hs0 Hss.
  unfold well_behaved.
  cbn [GetIntersectionRecord Sphere_Entity Get3DAABB].
  unfold Sphere_GetIntersectionRecord.
  unfold sphere_quadratic in Hq.
  cbn [m_center m_radius radius_squared Sphere_ctor] in *.
  inversion Hq as [[EA EB EC]]. clear Hq.
  rewrite EA, EB, EC.
  destruct (QuadraticFormula sqrt A B C) as [[xs xl] |] eqn:HQ;
    [| reflexivity].
  destruct (QuadraticFormula_roots sqrt A B C xs xl HA Hs0 Hss HQ)
    as [Rs Rl].
  set (t := if Qltb xs 0 then xl else xs).
  assert (Rt : is_root A B C t) by (subst t; destruct (Qltb xs 0); assumption).
  destruct (Qltb t 0) eqn:Et; [reflexivity |].
  cbn [IR.has_intersection IR.t]. intros Hmax. specialize (Hmax eq_refl).
  q_props. split; [exact Et |]. split; [exact Hmax |].
  unfold is_root in Rt. rewrite <- EA, <- EB, <- EC in Rt.
  destruct c as [cx cy cz], ray as [[ox oy oz] [dx dy dz] rec tmin tmax].
  cbv [Sphere_Get3DAABB AABB.contains_point AABB.of_points point some3 fin3
       vmap vzip vadd_scalar vsub_scalar Ray_at vadd vscale vx vy vz
       min_slab_values max_slab_values f_le m_center m_radius Sphere_ctor
       m_origin m_direction].
  cbv [dot vsub vzip vmap vx vy vz m_origin m_direction] in Rt.
  assert (Hsphere : (ox + t * dx - cx) * (ox + t * dx - cx)
                    + (oy + t * dy - cy) * (oy + t * dy - cy)
                    + (oz + t * dz - cz) * (oz + t * dz - cz) == r * r).
  { assert (E : (ox + t * dx - cx) * (ox + t * dx - cx)
                + (oy + t * dy - cy) * (oy + t * dy - cy)
                + (oz + t * dz - cz) * (oz + t * dz - cz) - r * r
                == (dx * dx + dy * dy + dz * dz) * t * t
                   + 2 * (dx * (ox - cx) + dy * (oy - cy) + dz * (oz - cz)) * t
                   + ((ox - cx) * (ox - cx) + (oy - cy) * (oy - cy)
                      + (oz - cz) * (oz - cz) - r * r)) by ring.
    rewrite Rt in E. lra. }
  destruct (sphere_point_in_slab cx r (ox + t * dx)
              (oy + t * dy - cy) (oz + t * dz - cz)) as [Hx1 Hx2];
    [lra |].
  destruct (sphere_point_in_slab cy r (oy + t * dy)
              (ox + t * dx - cx) (oz + t * dz - cz)) as [Hy1 Hy2];
    [lra |].
  destruct (sphere_point_in_slab cz r (oz + t * dz)
              (ox + t * dx - cx) (oy + t * dy - cy)) as [Hz1 Hz2];
    [lra |].
  rewrite Hx1, Hx2, Hy1, Hy2, Hz1, Hz2. reflexivity.
Qed.

(* ================================================================= *)
(** * Further properties of the code *)

(** ** Boxes from two points, and their intersection *)

Lemma ext_leb_fmin (c a b : ext) :
  ext_leb c a = true -> ext_leb c b = true -> ext_leb c (AABB.fmin a b) = true.
Proof. unfold AABB.fmin. now destruct (ext_ltb b a). Qed.

Lemma ext_leb_fmax (c a b : ext) :
  ext_leb a c = true -> ext_leb b c = true -> ext_leb (AABB.fmax a b) c = true.
Proof. unfold AABB.fmax. now destruct (ext_ltb a b). Qed.

Lemma fmin_comm (a b : ext) : ext_eq (AABB.fmin a b) (AABB.fmin b a).
Proof. exact (glm_min_comm a b). Qed.

Lemma fmax_comm (a b : ext) : ext_eq (AABB.fmax a b) (AABB.fmax b a).
Proof. exact (glm_max_comm a b). Qed.

Lemma of_points_contains_first (p q : evec3) :
  AABB.contains_point (AABB.of_points p q) (some3 p) = true.
Proof.
  unfold AABB.of_points. slabs. cbn [f_le].
  repeat split; first [apply (glm_min_le_l _ _) | apply (glm_max_ge_l _ _)].
Qed.

Lemma of_points_contains_second (p q : evec3) :
  AABB.contains_point (AABB.of_points p q) (some3 q) = true.
Proof.
  unfold AABB.of_points. slabs. cbn [f_le].
  repeat split; first [apply (glm_min_le_r _ _) | apply (glm_max_ge_r _ _)].
Qed.

(** X1 ([AABB_3D(point_1, point_2)]).  The box built from two points is the
    smallest box that contains both: it contains each of them, it does not
    depend on their order, and it lies within every box that contains
    both. *)
Theorem of_points_smallest_enclosing (p q : evec3) :
  AABB.contains_point (AABB.of_points p q) (some3 p) = true
  /\ AABB.contains_point (AABB.of_points p q) (some3 q) = true
  /\ AABB.eq (AABB.of_points p q) (AABB.of_points q p)
  /\ forall b,
       AABB.contains_point b (some3 p) = true ->
       AABB.contains_point b (some3 q) = true ->
       AABB_within (AABB.of_points p q) b.
Proof.
  split; [apply of_points_contains_first |].
  split; [apply of_points_contains_second |].
  split.
  - unfold AABB.eq, AABB.evec3_eq, AABB.of_points, vzip;
      cbn [vx vy vz min_slab_values max_slab_values].
    repeat split; auto using fmin_comm, fmax_comm.
  - intros b. slabs. cbn [f_le].
    intros [[[? ?] [? ?]] [? ?]] [[[? ?] [? ?]] [? ?]] ax.
    destruct ax;
      cbn [axis_component AABB.of_points vzip vx vy vz
           min_slab_values max_slab_values];
      split; auto using ext_leb_fmin, ext_leb_fmax.
Qed.
Lemma Intersection_one_axis (al ah bl bh : ext) (x : xfloat) :
  ext_leb al ah = true -> ext_leb bl bh = true ->
  ext_leb bl ah = true -> ext_leb al bh = true ->
  f_le (Some (AABB.fmin (AABB.fmin ah bh) (AABB.fmax al bl))) x
  && f_le x (Some (AABB.fmax (AABB.fmin ah bh) (AABB.fmax al bl)))
  = (f_le (Some al) x && f_le x (Some ah))
    && (f_le (Some bl) x && f_le x (Some bh)).
Proof.
  destruct x as [x |]; [| reflexivity].
  unfold AABB.fmin, AABB.fmax, ext_leb. cbn [f_le]. unfold ext_leb.
  destruct al, ah, bl, bh, x; cbn [ext_ltb negb andb]; intros; try reflexivity; try discriminate; q_solve.
Qed.

Ltac bool_atoms :=
  repeat match goal with
    | |- context [f_le ?u ?v] =>
        let b := fresh "b" in generalize (f_le u v); intro b
    end;
  repeat match goal with
    | b : bool |- _ => destruct b; cbn [andb]; try reflexivity
    end.

(** After [intersects_with_3D_AABB] has answered true, for two boxes whose
    lower corners are below their upper corners, the result contains
    exactly the points that both boxes contain. *)
Lemma Intersection_of_overlapping_boxes (a b : AABB_3D) (p : xvec3) :
  AABB_ordered a ->
  AABB_ordered b ->
  AABB.intersects_with_3D_AABB a b = true ->
  AABB.contains_point (AABB.Intersection_with_3D_AABB a b) p
  = AABB.contains_point a p && AABB.contains_point b p.
Proof.
  intros Ha Hb.
  pose proof (Ha X_axis) as Hax. pose proof (Ha Y_axis) as Hay.
  pose proof (Ha Z_axis) as Haz. pose proof (Hb X_axis) as Hbx.
  pose proof (Hb Y_axis) as Hby. pose proof (Hb Z_axis) as Hbz.
  clear Ha Hb.
  unfold AABB.intersects_with_3D_AABB, AABB.Intersection_with_3D_AABB,
    AABB.of_points, AABB.contains_point, some3, vmap, vzip.
  cbn [axis_component vx vy vz min_slab_values max_slab_values] in *.
  rewrite !andb_true_iff. intros [[[Hx1 Hx2] [Hy1 Hy2]] [Hz1 Hz2]].
  rewrite !Intersection_one_axis by assumption.
  bool_atoms.
Qed.

Lemma contains_both_intersects (a b : AABB_3D) (p : xvec3) :
  AABB.contains_point a p = true ->
  AABB.contains_point b p = true ->
  AABB.intersects_with_3D_AABB a b = true.
Proof.
  unfold AABB.intersects_with_3D_AABB. slabs.
  intros [[[? ?] [? ?]] [? ?]] [[[? ?] [? ?]] [? ?]].
  repeat split;
    match goal with
    | |- ext_leb ?u ?v = true =>
        change (f_le (Some u) (Some v) = true); eauto using f_le_trans
    end.
Qed.

(** When the two boxes do not intersect, no point lies in both, and yet
    the result is a box that contains a point. *)
Lemma Intersection_of_disjoint_boxes (a b : AABB_3D) :
  AABB.intersects_with_3D_AABB a b = false ->
  (forall p, AABB.contains_point a p && AABB.contains_point b p = false)
  /\ exists p,
       AABB.contains_point (AABB.Intersection_with_3D_AABB a b) p = true.
Proof.
  intros Hno. split.
  - intros p.
    destruct (AABB.contains_point a p) eqn:Ea; [| reflexivity].
    destruct (AABB.contains_point b p) eqn:Eb; [| reflexivity].
    rewrite (contains_both_intersects a b p Ea Eb) in Hno. discriminate.
  - exists (some3 (vzip AABB.fmin (max_slab_values a) (max_slab_values b))).
    apply of_points_contains_first.
Qed.

(** X2 ([Intersection_with_3D_AABB]).  Used as its comment asks, after
    [intersects_with_3D_AABB] has answered true, on two boxes whose lower
    corners are below their upper corners, the result contains exactly the
    points that both boxes contain.  Used on two boxes that do not
    intersect, it gives a box that contains a point although no point lies
    in both: the result is not the empty intersection. *)
Theorem Intersection_with_3D_AABB_cases (a b : AABB_3D) :
  (AABB_ordered a ->
   AABB_ordered b ->
   AABB.intersects_with_3D_AABB a b = true ->
   forall p,
     AABB.contains_point (AABB.Intersection_with_3D_AABB a b) p
     = AABB.contains_point a p && AABB.contains_point b p)
  /\ (AABB.intersects_with_3D_AABB a b = false ->
      (forall p, AABB.contains_point a p && AABB.contains_point b p = false)
      /\ exists p,
           AABB.contains_point (AABB.Intersection_with_3D_AABB a b) p = true).
Proof.
  split.
  - intros Ha Hb Hi p. now apply Intersection_of_overlapping_boxes.
  - apply Intersection_of_disjoint_boxes.
Qed.

Lemma Intersection_with_3D_AABB_cases_witness :
  AABB.contains_point
    (AABB.Intersection_with_3D_AABB (box_of (mkvec3 0 0 0) (mkvec3 2 2 2))
                                    (box_of (mkvec3 1 1 1) (mkvec3 3 3 3)))
    (point (mkvec3 (3 # 2) (3 # 2) 1))
  = true
  /\ exists p,
       AABB.contains_point
         (AABB.Intersection_with_3D_AABB
            (box_of (mkvec3 0 0 0) (mkvec3 1 1 1))
            (box_of (mkvec3 2 2 2) (mkvec3 3 3 3)))
         p = true.
Proof.
  split.
  - rewrite (proj1 (Intersection_with_3D_AABB_cases
                      (box_of (mkvec3 0 0 0) (mkvec3 2 2 2))
                      (box_of (mkvec3 1 1 1) (mkvec3 3 3 3)))).
    + reflexivity.
    + intros []; reflexivity.
    + intros []; reflexivity.
    + reflexivity.
  - exact (proj2 (proj2 (Intersection_with_3D_AABB_cases
                           (box_of (mkvec3 0 0 0) (mkvec3 1 1 1))
                           (box_of (mkvec3 2 2 2) (mkvec3 3 3 3)))
                    eq_refl)).
Defined.

(** ** The centre and the area of a box *)

(** X3 ([center_vector]).  A box with finite corners, the lower below the
    upper, has its centre halfway between them, and contains it. *)
Theorem center_vector_inside (lo hi : vec3) :
  vle lo hi ->
  AABB.center_vector (box_of lo hi) = point (vscale (1 # 2) (vadd hi lo))
  /\ AABB.contains_point (box_of lo hi) (AABB.center_vector (box_of lo hi))
     = true.
Proof.
  intros (Hx & Hy & Hz). split; [reflexivity |].
  destruct lo as [lx ly lz], hi as [hx hy hz].
  cbv [box_of AABB.center_vector AABB.contains_point fin3 some3 vmap vzip
       f_mul f_lift2 finite ext_add ext_mul f_le ext_leb ext_ltb
       vx vy vz min_slab_values max_slab_values] in *.
  q_solve.
Qed.

Lemma center_vector_inside_witness :
  AABB.contains_point (box_of (mkvec3 0 0 0) (mkvec3 1 2 0))
    (AABB.center_vector (box_of (mkvec3 0 0 0) (mkvec3 1 2 0))) = true.
Proof.
  apply (center_vector_inside (mkvec3 0 0 0) (mkvec3 1 2 0)).
  unfold vle; cbn [vx vy vz]. repeat split; lra.
Defined.

(** The extent of a union on one axis: finite, and no less than the extent
    of the first box. *)
Lemma union_extent_one_axis (l h l' h' : Q) :
  l <= h -> l' <= h' ->
  exists d,
    ext_add (AABB.glm_max (Fin h) (Some (Fin h')))
            (ext_opp (AABB.glm_min (Fin l) (Some (Fin l'))))
    = Some (Fin d)
    /\ h - l <= d.
Proof.
  intros Hl Hl'. unfold AABB.glm_max, AABB.glm_min. cbn [ext_ltb].
  destruct (Qltb h h') eqn:E1, (Qltb l' l) eqn:E2; cbn [ext_opp ext_add];
    eexists; (split; [reflexivity |]); q_props; lra.
Qed.

(** X4 ([total_area]).  For boxes with finite corners, the lower below the
    upper, the area is finite and not negative, and the union with another
    such box has at least the area of the box. *)
Theorem total_area_monotone (lo hi lo' hi' : vec3) :
  vle lo hi ->
  vle lo' hi' ->
  exists s s' : Q,
    AABB.total_area (box_of lo hi) = finite s
    /\ AABB.total_area
         (AABB.Union_with_3D_AABB (box_of lo hi) (box_of lo' hi'))
       = finite s'
    /\ 0 <= s /\ s <= s'.
Proof.
  intros (Hx & Hy & Hz) (Hx' & Hy' & Hz').
  destruct (union_extent_one_axis _ _ _ _ Hx Hx') as (dx & Ex & Dx).
  destruct (union_extent_one_axis _ _ _ _ Hy Hy') as (dy & Ey & Dy).
  destruct (union_extent_one_axis _ _ _ _ Hz Hz') as (dz & Ez & Dz).
  exists (((vx hi - vx lo) * (vy hi - vy lo)
           + (vy hi - vy lo) * (vz hi - vz lo)
           + (vx hi - vx lo) * (vz hi - vz lo)) * 2).
  exists ((dx * dy + dy * dz + dx * dz) * 2).
  split; [reflexivity |].
  split.
  { unfold AABB.total_area, AABB.diagonal_vector, AABB.Union_with_3D_AABB,
      box_of, fin3, some3, vmap, vzip.
    cbn [vx vy vz min_slab_values max_slab_values].
    rewrite Ex, Ey, Ez. reflexivity. }
  split; nra.
Qed.

Lemma total_area_monotone_witness :
  exists s s' : Q,
    AABB.total_area (box_of (mkvec3 0 0 0) (mkvec3 1 1 1)) = finite s
    /\ AABB.total_area
         (AABB.Union_with_3D_AABB (box_of (mkvec3 0 0 0) (mkvec3 1 1 1))
                                  (box_of (mkvec3 0 0 0) (mkvec3 2 1 1)))
       = finite s'
    /\ 0 <= s /\ s <= s'.
Proof.
  apply (total_area_monotone (mkvec3 0 0 0) (mkvec3 1 1 1)
                             (mkvec3 0 0 0) (mkvec3 2 1 1));
    unfold vle; cbn [vx vy vz]; repeat split; lra.
Defined.

(** ** The union with a point *)

Lemma glm_min_le (a : ext) (y : xfloat) : ext_leb (AABB.glm_min a y) a = true.
Proof.
  destruct y as [b |]; [apply glm_min_le_l | apply ext_leb_refl].
Qed.

Lemma glm_max_ge (a : ext) (y : xfloat) : ext_leb a (AABB.glm_max a y) = true.
Proof.
  destruct y as [b |]; [apply glm_max_ge_l | apply ext_leb_refl].
Qed.

(** X5 ([Union_with_point]).  The union never gives a smaller box, it
    contains the point when no coordinate of the point is NaN, and a point
    whose coordinates are all NaN leaves the box as it is. *)
Theorem Union_with_point_never_shrinks (b : AABB_3D) (p : xvec3) (e : evec3) :
  AABB_within b (AABB.Union_with_point b p)
  /\ AABB.contains_point (AABB.Union_with_point b (some3 e)) (some3 e) = true
  /\ AABB.Union_with_point b NaN3 = b.
Proof.
  split; [| split].
  - intros ax; destruct ax;
      cbn [axis_component AABB.Union_with_point vzip vx vy vz
           min_slab_values max_slab_values];
      split; auto using glm_min_le, glm_max_ge.
  - slabs. cbn [f_le].
    repeat split;
      first [apply (glm_min_le_r _ _) | apply (glm_max_ge_r _ _)].
  - destruct b as [[lx ly lz] [hx hy hz]]. reflexivity.
Qed.

(** ** The slab test on a bounded box *)

Lemma axis_component_fin3 (a : Axis) (v : vec3) :
  axis_component a (fin3 v) = Fin (axis_component a v).
Proof. now destruct a. Qed.

Lemma mul_inv_le_pos (a t d : Q) : 0 < d -> a * / d <= t -> a <= t * d.
Proof.
  intros Hd H. assert (E : a == a * / d * d) by (field; lra).
  rewrite E. apply Qmult_le_compat_r; lra.
Qed.

Lemma mul_inv_ge_pos (a t d : Q) : 0 < d -> t <= a * / d -> t * d <= a.
Proof.
  intros Hd H. assert (E : a == a * / d * d) by (field; lra).
  rewrite E. apply Qmult_le_compat_r; lra.
Qed.

Lemma mul_inv_le_neg (a t d : Q) : d < 0 -> a * / d <= t -> t * d <= a.
Proof.
  intros Hd H. assert (E : a == (- (a * / d)) * (- d)) by (field; lra).
  assert (E' : t * d == (- t) * (- d)) by ring.
  rewrite E, E'. apply Qmult_le_compat_r; lra.
Qed.

Lemma mul_inv_ge_neg (a t d : Q) : d < 0 -> t <= a * / d -> a <= t * d.
Proof.
  intros Hd H. assert (E : a == (- (a * / d)) * (- d)) by (field; lra).
  assert (E' : t * d == (- t) * (- d)) by ring.
  rewrite E, E'. apply Qmult_le_compat_r; lra.
Qed.

(** On one axis of a box with finite corners: entry and exit are numbers,
    and a parameter between them gives a point between the two planes. *)
Lemma axis_entry_exit_finite (lo hi o d : vec3) (a : Axis) :
  ~ axis_component a d == 0 ->
  exists e x : Q,
    axis_entry_exit (box_of lo hi) (Ray_ctor o d) a = (finite e, finite x)
    /\ forall t, e <= t -> t <= x ->
         axis_component a lo <= axis_component a o + t * axis_component a d
         /\ axis_component a o + t * axis_component a d
            <= axis_component a hi.
Proof.
  intros Hd. unfold axis_entry_exit.
  assert (Hr : axis_component a (direction_reciprocal (Ray_ctor o d))
               = Fin (/ axis_component a d)).
  { destruct a; simpl; now apply reciprocal_nonzero. }
  rewrite Hr. cbn [m_origin m_direction Ray_ctor box_of
                   min_slab_values max_slab_values].
  rewrite !axis_component_fin3.
  set (da := axis_component a d) in *.
  set (oa := axis_component a o).
  set (la := axis_component a lo).
  set (ha := axis_component a hi).
  destruct (Qltb da 0) eqn:Eneg.
  - apply Qltb_lt in Eneg.
    rewrite !slab_distance_neg by assumption.
    eexists; eexists; split; [reflexivity |].
    intros t He Hx. split.
    + apply (mul_inv_ge_neg _ _ _ Eneg) in Hx. lra.
    + apply (mul_inv_le_neg _ _ _ Eneg) in He. lra.
  - apply Qltb_ge in Eneg.
    assert (Hpos : 0 < da) by (destruct (Qlt_le_dec 0 da); [assumption |];
                               exfalso; apply Hd; lra).
    rewrite !slab_distance_pos by assumption.
    eexists; eexists; split; [reflexivity |].
    intros t He Hx. split.
    + apply (mul_inv_le_pos _ _ _ Hpos) in He. lra.
    + apply (mul_inv_ge_pos _ _ _ Hpos) in Hx. lra.
Qed.

Lemma fin_le (a b : Q) : ext_leb (Fin a) (Fin b) = true <-> a <= b.
Proof. unfold ext_leb. cbn [ext_ltb]. apply negb_Qltb_le. Qed.

(** X6 ([intersects_with_ray]).  For a box with finite corners and a ray
    with no component of its direction exactly zero, the test answers true
    exactly when some point of the ray, at a parameter that is not
    negative, lies in the box. *)
Theorem slab_test_exact (lo hi o d : vec3) :
  no_axis_aligned_component d ->
  AABB.intersects_with_ray (box_of lo hi) (Ray_ctor o d)
    (direction_reciprocal (Ray_ctor o d))
    (AABB.direction_is_negative (Ray_ctor o d)) = true
  <-> exists t,
        0 <= t
        /\ AABB.contains_point (box_of lo hi)
             (point (Ray_at (Ray_ctor o d) t)) = true.
Proof.
  intros Hd. split.
  - destruct Hd as (Hdx & Hdy & Hdz).
    destruct (axis_entry_exit_finite lo hi o d X_axis Hdx)
      as (ex & xx & EX & HX).
    destruct (axis_entry_exit_finite lo hi o d Y_axis Hdy)
      as (ey & xy & EY & HY).
    destruct (axis_entry_exit_finite lo hi o d Z_axis Hdz)
      as (ez & xz & EZ & HZ).
    rewrite intersects_with_ray_unfold, EX, EY, EZ.
    cbn [fst snd]. unfold finite.
    destruct (std_max3 (Fin ex) (Fin ey) (Fin ez))
      as (m & -> & Hm & Hmx & Hmy & Hmz).
    destruct (std_min3 (Fin xx) (Fin xy) (Fin xz))
      as (n & -> & Hn & Hnx & Hny & Hnz).
    assert (Em : exists tin, m = Fin tin)
      by (destruct Hm as [-> | [-> | ->]]; eexists; reflexivity).
    assert (En : exists tout, n = Fin tout)
      by (destruct Hn as [-> | [-> | ->]]; eexists; reflexivity).
    destruct Em as (tin & ->), En as (tout & ->).
    cbn [f_ge f_le]. rewrite andb_true_iff, !fin_le. intros [H0 Hio].
    apply fin_le in Hmx, Hmy, Hmz, Hnx, Hny, Hnz.
    exists (if Qltb tin 0 then 0 else tin).
    assert (Ht : tin <= (if Qltb tin 0 then 0 else tin)
                 /\ 0 <= (if Qltb tin 0 then 0 else tin)
                 /\ (if Qltb tin 0 then 0 else tin) <= tout)
      by (destruct (Qltb tin 0) eqn:E; q_props; repeat split; lra).
    destruct Ht as (Ht1 & Ht2 & Ht3).
    set (t := if Qltb tin 0 then 0 else tin) in *.
    split; [exact Ht2 |].
    destruct (HX t) as [X1 X2]; [lra | lra |].
    destruct (HY t) as [Y1 Y2]; [lra | lra |].
    destruct (HZ t) as [Z1 Z2]; [lra | lra |].
    cbn [axis_component] in *.
    unfold AABB.contains_point, point, box_of, fin3, some3, vmap, Ray_at,
      vadd, vscale, vzip, vmap.
    cbn [vx vy vz min_slab_values max_slab_values m_origin m_direction
         Ray_ctor f_le].
    rewrite !andb_true_iff, !fin_le. auto 10.
  - intros (t & Ht & Hin).
    apply (slab_test_sound (box_of lo hi) o d t (Ray_at (Ray_ctor o d) t));
      try assumption.
    unfold veq. repeat split; reflexivity.
Qed.

Lemma slab_test_exact_witness :
  no_axis_aligned_component (mkvec3 1 1 1)
  /\ exists t,
       0 <= t
       /\ AABB.contains_point (box_of (mkvec3 1 1 1) (mkvec3 2 2 2))
            (point (Ray_at (Ray_ctor (mkvec3 0 0 0) (mkvec3 1 1 1)) t))
          = true.
Proof.
  assert (Hd : no_axis_aligned_component (mkvec3 1 1 1))
    by (unfold no_axis_aligned_component; cbn [vx vy vz];
        repeat split; intros H; discriminate H).
  split; [exact Hd |].
  apply (proj1 (slab_test_exact (mkvec3 1 1 1) (mkvec3 2 2 2)
                  (mkvec3 0 0 0) (mkvec3 1 1 1) Hd)).
  vm_compute. reflexivity.
Defined.

(** ** Coordinates relative to a box *)

Lemma scaled_component_finite (lo hi p : Q) :
  lo < hi ->
  exists s,
    AABB.scaled_component (Fin lo) (Fin hi) (finite p) = finite s
    /\ s * (hi - lo) == p - lo
    /\ (lo <= p <-> 0 <= s)
    /\ (p <= hi <-> s <= 1).
Proof.
  intros H. exists ((p + - lo) / (hi + - lo)).
  assert (E : Qeq_bool (hi + - lo) 0 = false)
    by (apply Qeq_bool_false; lra).
  assert (Es : (p + - lo) / (hi + - lo) * (hi - lo) == p - lo)
    by (field; lra).
  split.
  { unfold AABB.scaled_component, finite. cbn [ext_ltb f_sub f_div f_lift2
      ext_add ext_opp ext_div].
    apply Qltb_lt in H. now rewrite H, E. }
  split; [exact Es |].
  set (s := (p + - lo) / (hi + - lo)) in *.
  split; split; intros; nra.
Qed.

(** In a box with finite corners and a positive extent on every axis, the
    result is the offset from the lower corner in units of the extent. *)
Lemma scaled_by_the_box_unit_cube (lo hi p : vec3) :
  vlt lo hi ->
  exists s : vec3,
    AABB.scaled_by_the_box (box_of lo hi) (point p) = point s
    /\ veq (vmul s (vsub hi lo)) (vsub p lo)
    /\ (AABB.contains_point (box_of lo hi) (point p) = true
        <-> vle vzero s /\ vle s (mkvec3 1 1 1)).
Proof.
  intros (Hx & Hy & Hz).
  destruct (scaled_component_finite _ _ (vx p) Hx) as (sx & Ex & Rx & Lx & Ux).
  destruct (scaled_component_finite _ _ (vy p) Hy) as (sy & Ey & Ry & Ly & Uy).
  destruct (scaled_component_finite _ _ (vz p) Hz) as (sz & Ez & Rz & Lz & Uz).
  exists (mkvec3 sx sy sz).
  split.
  { unfold AABB.scaled_by_the_box, box_of, point, fin3, some3, vmap.
    cbn [vx vy vz min_slab_values max_slab_values].
    unfold finite in Ex, Ey, Ez. now rewrite Ex, Ey, Ez. }
  split.
  { unfold veq, vmul, vsub, vzip. cbn [vx vy vz]. auto. }
  unfold AABB.contains_point, point, box_of, fin3, some3, vmap, vle, vzero.
  cbn [vx vy vz min_slab_values max_slab_values f_le].
  rewrite !andb_true_iff, !fin_le. tauto.
Qed.

(** For a box that is a single point the result is the offset from that
    point, not scaled; for the box that contains nothing every coordinate
    of the result is minus infinity. *)
Lemma scaled_by_the_box_degenerate (c p : vec3) :
  AABB.scaled_by_the_box (AABB.of_point (fin3 c)) (point p)
  = point (vadd p (vneg c))
  /\ AABB.scaled_by_the_box AABB.empty (point p)
     = some3 (mkvec3 NInf NInf NInf).
Proof.
  split; [| reflexivity].
  unfold AABB.scaled_by_the_box, AABB.scaled_component, AABB.of_point,
    point, fin3, some3, vmap.
  cbn [vx vy vz min_slab_values max_slab_values].
  rewrite !ext_ltb_irrefl. reflexivity.
Qed.

(** X7 ([scaled_by_the_box]).  In a box with finite corners and a positive
    extent on every axis, the result [s] of a finite point [p] is the
    offset of [p] from the lower corner in units of the extent
    ([s * (hi - lo) = p - lo] on each axis), and [p] lies in the box
    exactly when every coordinate of [s] is between 0 and 1.  For a box
    that is a single point the result is the offset from that point, not
    scaled; for the box that contains nothing every coordinate of the
    result is minus infinity. *)
Theorem scaled_by_the_box_cases (lo hi p : vec3) :
  (vlt lo hi ->
   exists s : vec3,
     AABB.scaled_by_the_box (box_of lo hi) (point p) = point s
     /\ veq (vmul s (vsub hi lo)) (vsub p lo)
     /\ (AABB.contains_point (box_of lo hi) (point p) = true
         <-> vle vzero s /\ vle s (mkvec3 1 1 1)))
  /\ AABB.scaled_by_the_box (AABB.of_point (fin3 lo)) (point p)
     = point (vadd p (vneg lo))
  /\ AABB.scaled_by_the_box AABB.empty (point p)
     = some3 (mkvec3 NInf NInf NInf).
Proof.
  split; [apply scaled_by_the_box_unit_cube |].
  apply scaled_by_the_box_degenerate.
Qed.

Lemma scaled_by_the_box_cases_witness :
  exists s : vec3,
    AABB.scaled_by_the_box (box_of (mkvec3 0 0 0) (mkvec3 2 4 8))
                           (point (mkvec3 1 1 1)) = point s
    /\ veq (vmul s (vsub (mkvec3 2 4 8) (mkvec3 0 0 0)))
           (vsub (mkvec3 1 1 1) (mkvec3 0 0 0))
    /\ (AABB.contains_point (box_of (mkvec3 0 0 0) (mkvec3 2 4 8))
                            (point (mkvec3 1 1 1)) = true
        <-> vle vzero s /\ vle s (mkvec3 1 1 1)).
Proof.
  apply (proj1 (scaled_by_the_box_cases (mkvec3 0 0 0) (mkvec3 2 4 8)
                                        (mkvec3 1 1 1))).
  unfold vlt; cbn [vx vy vz]. repeat split; reflexivity.
Defined.

(* ================================================================= *)
(** ** The shape of the hierarchy [build_BVH] returns *)

Section BuildShape.

Context {E : Type} `{Entity E}.
Variable std_sort : (E -> E -> bool) -> list E -> list E.
Hypothesis std_sort_permutes : forall cmp l, Permutation l (std_sort cmp l).

Lemma leaf_count_built (fuel : nat) (entities : list E) (tree : BVH_Node E) :
  build_BVH std_sort fuel entities = Some tree ->
  leaf_count tree = length entities.
Proof.
  intros Hb. rewrite leaf_count_leaves. symmetry.
  apply Permutation_length.
  exact (build_BVH_leaves std_sort std_sort_permutes fuel entities tree Hb).
Qed.

Lemma build_BVH_split_at_median (fuel : nat) (entities : list E)
    (tree : BVH_Node E) :
  build_BVH std_sort fuel entities = Some tree -> split_at_median tree.
Proof.
  revert entities tree.
  induction fuel as [| fuel IH]; intros entities tree Hb; [discriminate |].
  destruct (Nat.le_gt_cases 3 (length entities)) as [H3 | H3].
  - rewrite (build_BVH_split std_sort) in Hb by assumption. cbv zeta in Hb.
    destruct (build_BVH std_sort fuel (firstn _ _)) as [l |] eqn:El;
      [| discriminate].
    destruct (build_BVH std_sort fuel (skipn _ _)) as [r |] eqn:Er;
      [| discriminate].
    inversion Hb; subst. cbn [split_at_median].
    split; [| split; [exact (IH _ _ El) | exact (IH _ _ Er)]].
    rewrite (leaf_count_built _ _ _ El), (leaf_count_built _ _ _ Er).
    rewrite length_firstn, length_skipn.
    set (n := length (sort_along_longest_axis std_sort entities)).
    pose proof (Nat.div_mod_eq n 2) as Hdm.
    pose proof (Nat.mod_upper_bound n 2) as Hm.
    assert (Hsum : (Nat.min (n / 2) n + (n - n / 2) = n)%nat) by lia.
    rewrite Hsum. lia.
  - destruct entities as [| e0 [| e1 [| e2 rest]]]; simpl in H3; try lia.
    + rewrite (build_BVH_nil std_sort std_sort_permutes) in Hb. discriminate.
    + inversion Hb; subst; exact I.
    + simpl in Hb.
      destruct (build_BVH std_sort fuel [e0]) as [l |] eqn:El;
        [| discriminate].
      destruct (build_BVH std_sort fuel [e1]) as [r |] eqn:Er;
        [| discriminate].
      inversion Hb; subst. cbn [split_at_median].
      rewrite (leaf_count_built _ _ _ El), (leaf_count_built _ _ _ Er).
      split; [reflexivity |]. split; [exact (IH _ _ El) | exact (IH _ _ Er)].
Qed.

End BuildShape.

Lemma leaf_count_pos {E : Type} (tree : BVH_Node E) :
  (1 <= leaf_count tree)%nat.
Proof. induction tree; simpl; lia. Qed.

(** A tree split at the median everywhere is as low as a binary tree with
    that many leaves can be. *)
Lemma split_at_median_height {E : Type} (tree : BVH_Node E) :
  split_at_median tree ->
  (leaf_count tree <= 2 ^ height tree
   /\ 2 ^ height tree < 2 * leaf_count tree)%nat.
Proof.
  induction tree as [b e | b l IHl r IHr]; cbn [split_at_median height leaf_count].
  - intros _. simpl. lia.
  - intros (Hhalf & Hl & Hr).
    destruct (IHl Hl) as [Ll Ul]. destruct (IHr Hr) as [Lr Ur].
    pose proof (leaf_count_pos l) as Pl.
    pose proof (leaf_count_pos r) as Pr.
    set (nl := leaf_count l) in *. set (nr := leaf_count r) in *.
    pose proof (Nat.div_mod_eq (nl + nr) 2) as Hdm.
    pose proof (Nat.mod_upper_bound (nl + nr) 2) as Hm.
    rewrite Nat.pow_succ_r'.
    destruct (Nat.max_spec (height l) (height r)) as [[Hlt ->] | [Hle ->]].
    + assert (Hp : (2 ^ height l <= 2 ^ height r)%nat)
        by (apply Nat.pow_le_mono_r; lia).
      destruct (height r) as [| k] eqn:Ek.
      * simpl in *. lia.
      * rewrite Nat.pow_succ_r' in *. lia.
    + assert (Hp : (2 ^ height r <= 2 ^ height l)%nat)
        by (apply Nat.pow_le_mono_r; lia).
      lia.
Qed.

(** X8 ([build_BVH]).  Whatever the sort does within its promise, the tree
    of [n] entities has [n] leaves and [n - 1] internal nodes; at every
    internal node the left child holds half of the leaves below the node,
    rounded down; and the height [h] of the tree is the least possible,
    [n <= 2 ^ h < 2 * n]. *)
Theorem build_BVH_balanced {E : Type} `{Entity E}
    (std_sort : (E -> E -> bool) -> list E -> list E)
    (fuel : nat) (entities : list E) (tree : BVH_Node E) :
  std_sort_contract std_sort ->
  build_BVH std_sort fuel entities = Some tree ->
  leaf_count tree = length entities
  /\ S (internal_count tree) = length entities
  /\ split_at_median tree
  /\ (length entities <= 2 ^ height tree
      /\ 2 ^ height tree < 2 * length entities)%nat.
Proof.
  intros Hsort Hb.
  assert (Hperm : forall cmp l, Permutation l (std_sort cmp l))
    by (intros cmp l; apply Hsort).
  pose proof (leaf_count_built std_sort Hperm fuel entities tree Hb) as Hn.
  pose proof (build_BVH_split_at_median std_sort Hperm fuel entities tree Hb)
    as Hs.
  split; [exact Hn |].
  split; [rewrite internal_count_leaf_count; exact Hn |].
  split; [exact Hs |].
  rewrite <- Hn. now apply split_at_median_height.
Qed.

Lemma build_BVH_balanced_witness :
  exists tree,
    build_BVH stable_sort 3 nested_triangles = Some tree
    /\ leaf_count tree = 3%nat
    /\ height tree = 2%nat.
Proof.
  destruct (build_BVH stable_sort 3 nested_triangles) as [tree |] eqn:Hb;
    [| vm_compute in Hb; discriminate].
  exists tree. split; [reflexivity |].
  destruct (build_BVH_balanced stable_sort 3 nested_triangles tree
              (stable_sort_contract TrianglePrimitive) Hb)
    as (Hn & _ & _ & Hlo & Hhi).
  split; [exact Hn |].
  cbn [length nested_triangles] in Hlo, Hhi.
  destruct (height tree) as [| [| [| k]]]; simpl in Hlo, Hhi; lia.
Defined.

(** ** The boxes of the hierarchy *)

Lemma AABB_within_refl (a : AABB_3D) : AABB_within a a.
Proof. intros ax. split; apply ext_leb_refl. Qed.

Lemma AABB_within_trans (a b c : AABB_3D) :
  AABB_within a b -> AABB_within b c -> AABB_within a c.
Proof.
  intros Hab Hbc ax. destruct (Hab ax), (Hbc ax).
  split; eauto using ext_leb_trans.
Qed.

Lemma boxes_built_enclose {E : Type} `{Entity E} (tree : BVH_Node E) (e : E) :
  boxes_built tree ->
  In e (leaves tree) ->
  AABB_within (Get3DAABB e) (bounding_volume tree).
Proof.
  induction tree as [b e' | b l IHl r IHr]; cbn [boxes_built leaves].
  - intros -> [<- | []]. apply AABB_within_refl.
  - intros (-> & Hl & Hr) Hin. cbn [bounding_volume].
    apply in_app_or in Hin. destruct Hin as [Hin | Hin].
    + eapply AABB_within_trans; [exact (IHl Hl Hin) | apply within_union_l].
    + eapply AABB_within_trans; [exact (IHr Hr Hin) | apply within_union_r].
Qed.

(** X9 ([build_BVH]).  The box of the root of the tree encloses the box of
    every entity the tree was built from. *)
Theorem build_BVH_root_encloses {E : Type} `{Entity E}
    (std_sort : (E -> E -> bool) -> list E -> list E)
    (fuel : nat) (entities : list E) (tree : BVH_Node E) (e : E) :
  std_sort_contract std_sort ->
  build_BVH std_sort fuel entities = Some tree ->
  In e entities ->
  AABB_within (Get3DAABB e) (bounding_volume tree).
Proof.
  intros Hsort Hb Hin.
  assert (Hperm : forall cmp l, Permutation l (std_sort cmp l))
    by (intros cmp l; apply Hsort).
  apply boxes_built_enclose.
  - exact (build_BVH_boxes std_sort fuel entities tree Hb).
  - apply (Permutation_in e
             (build_BVH_leaves std_sort Hperm fuel entities tree Hb) Hin).
Qed.

Lemma build_BVH_root_encloses_witness :
  exists tree,
    build_BVH stable_sort 3 nested_triangles = Some tree
    /\ AABB_within (Get3DAABB (corner_triangle 2 1)) (bounding_volume tree).
Proof.
  destruct (build_BVH stable_sort 3 nested_triangles) as [tree |] eqn:Hb;
    [| vm_compute in Hb; discriminate].
  exists tree. split; [reflexivity |].
  apply (build_BVH_root_encloses stable_sort 3 nested_triangles tree
           (corner_triangle 2 1) (stable_sort_contract TrianglePrimitive) Hb).
  right. right. left. reflexivity.
Defined.

(** ** What a traversal can return *)

Lemma traverse_reports_a_leaf {E : Type} `{Entity E}
    (node : BVH_Node E) (ray : Ray) :
  traverse_BVH_from_node node ray = IR.default
  \/ exists e, In e (leaves node)
       /\ traverse_BVH_from_node node ray = GetIntersectionRecord e ray.
Proof.
  induction node as [b e | b l IHl r IHr]; cbn [traverse_BVH_from_node leaves].
  - destruct (negb _); [now left |]. right. exists e. split; [now left | auto].
  - cbn [bounding_volume].
    destruct (negb _); [now left |].
    destruct (Qltb _ _).
    + destruct IHl as [-> | (e & Hin & ->)]; [now left |].
      right. exists e. split; [apply in_or_app; now left | reflexivity].
    + destruct IHr as [-> | (e & Hin & ->)]; [now left |].
      right. exists e. split; [apply in_or_app; now right | reflexivity].
Qed.

Lemma traverse_root_reports {E : Type} `{Entity E}
    (std_sort : (E -> E -> bool) -> list E -> list E)
    (primitives : list E) (bvh : BVH E) (ray : Ray) :
  (forall cmp l, Permutation l (std_sort cmp l)) ->
  BVH_ctor std_sort primitives = Some bvh ->
  traverse_BVH_from_root bvh ray = IR.default
  \/ exists e, In e primitives
       /\ traverse_BVH_from_root bvh ray = GetIntersectionRecord e ray.
Proof.
  intros Hperm Hc.
  unfold BVH_ctor in Hc. destruct primitives as [| e0 rest].
  - inversion Hc; subst. now left.
  - destruct (build_BVH std_sort (length (e0 :: rest)) (e0 :: rest))
      as [node |] eqn:Hb; [| discriminate].
    inversion Hc; subst.
    unfold traverse_BVH_from_root. cbn [root].
    destruct (traverse_reports_a_leaf node ray) as [-> | (e & Hin & ->)];
      [now left |].
    right. exists e. split; [| reflexivity].
    apply (Permutation_in e
             (Permutation_sym
                (build_BVH_leaves std_sort Hperm _ _ node Hb)) Hin).
Qed.

(** X10 ([traverse_BVH_from_root], [BVH::BVH]).  For every ray, the record
    the traversal returns is the default record or the record one of the
    primitives of the scene gives for that ray: the hierarchy makes up no
    hit of its own.  Over no primitive at all the constructor leaves the
    root null and every ray gets the default record. *)
Theorem traversal_returns_a_primitive_record {E : Type} `{Entity E}
    (std_sort : (E -> E -> bool) -> list E -> list E)
    (primitives : list E) (bvh : BVH E) (ray : Ray) :
  std_sort_contract std_sort ->
  BVH_ctor std_sort primitives = Some bvh ->
  (traverse_BVH_from_root bvh ray = IR.default
   \/ exists e, In e primitives
        /\ traverse_BVH_from_root bvh ray = GetIntersectionRecord e ray)
  /\ (primitives = [] ->
      root bvh = None /\ traverse_BVH_from_root bvh ray = IR.default).
Proof.
  intros Hsort Hc.
  assert (Hperm : forall cmp l, Permutation l (std_sort cmp l))
    by (intros cmp l; apply Hsort).
  split; [exact (traverse_root_reports std_sort primitives bvh ray Hperm Hc) |].
  intros ->. cbn in Hc. inversion Hc; subst. split; reflexivity.
Qed.

Lemma traversal_returns_a_primitive_record_witness :
  exists bvh,
    BVH_ctor stable_sort [square_lower; square_upper] = Some bvh
    /\ (traverse_BVH_from_root bvh ray_to_square = IR.default
        \/ exists e, In e [square_lower; square_upper]
             /\ traverse_BVH_from_root bvh ray_to_square
                = GetIntersectionRecord e ray_to_square).
Proof.
  destruct (BVH_ctor stable_sort [square_lower; square_upper])
    as [bvh |] eqn:Hc; [| vm_compute in Hc; discriminate].
  exists bvh. split; [reflexivity |].
  exact (proj1 (traversal_returns_a_primitive_record stable_sort
                  [square_lower; square_upper] bvh ray_to_square
                  (stable_sort_contract TrianglePrimitive) Hc)).
Defined.

(* ================================================================= *)
(** ** The roots [QuadraticFormula] returns *)

Section QuadraticRoots.

Variable sqrt : Q -> Q.

(** Sum and product of the two values, with a square root that is exact
    on the discriminant. *)
Lemma QuadraticFormula_sum_product (A B C x_small x_large : Q) :
  ~ A == 0 ->
  0 <= sqrt (B * B - 4 * A * C) ->
  sqrt (B * B - 4 * A * C) * sqrt (B * B - 4 * A * C) == B * B - 4 * A * C ->
  QuadraticFormula sqrt A B C = Some (x_small, x_large) ->
  A * (x_small + x_large) == - B /\ A * (x_small * x_large) == C.
Proof.
  intros HA Hs0 Hss. unfold QuadraticFormula.
  set (D := B * B - 4 * A * C) in *. set (s := sqrt D) in *.
  destruct (Qltb D 0) eqn:ED; [discriminate |].
  destruct (Qeq_bool D 0) eqn:E0.
  - q_props.
    assert (HD : B * B == 4 * A * C) by (unfold D in E0; lra).
    assert (S1 : A * (- (1 # 2) * B / A + - (1 # 2) * B / A) == - B)
      by (field; exact HA).
    assert (P1 : A * (- (1 # 2) * B / A * (- (1 # 2) * B / A)) == C).
    { assert (E : A * (- (1 # 2) * B / A * (- (1 # 2) * B / A))
                  == (B * B) / (4 * A)) by (field; exact HA).
      rewrite E, HD. field. exact HA. }
    destruct (Qltb _ _); intros H; inversion H; subst; split; assumption.
  - q_props.
    set (q := if Qltb 0 B then - (1 # 2) * (B + s) else - (1 # 2) * (B - s)).
    assert (Hq : q * q + B * q + A * C == 0).
    { unfold q. destruct (Qltb 0 B).
      - assert (E : - (1 # 2) * (B + s) * (- (1 # 2) * (B + s))
                    + B * (- (1 # 2) * (B + s)) + A * C
                    == (1 # 4) * (s * s - (B * B - 4 * A * C))) by ring.
        rewrite E, Hss. unfold D. ring.
      - assert (E : - (1 # 2) * (B - s) * (- (1 # 2) * (B - s))
                    + B * (- (1 # 2) * (B - s)) + A * C
                    == (1 # 4) * (s * s - (B * B - 4 * A * C))) by ring.
        rewrite E, Hss. unfold D. ring. }
    assert (Hq0 : ~ q == 0).
    { intros Hq0. rewrite Hq0 in Hq.
      assert (HAC : A * C == 0) by lra.
      apply E0. unfold q in Hq0.
      destruct (Qltb 0 B) eqn:EB; q_props.
      - exfalso. lra.
      - assert (Hs : s == 0) by lra.
        rewrite Hs in Hss. lra. }
    assert (S1 : A * (q / A + C / q) == - B).
    { assert (E : A * (q / A + C / q) == (q * q + A * C) / q)
        by (field; split; assumption).
      assert (E' : q * q + A * C == - B * q) by lra.
      rewrite E, E'. field. exact Hq0. }
    assert (P1 : A * (q / A * (C / q)) == C) by (field; split; assumption).
    fold q. intros H.
    destruct (Qltb (C / q) (q / A)); inversion H; subst; split;
      try assumption.
    + rewrite <- S1. ring.
    + rewrite <- P1 at 2. ring.
Qed.

(** X11 ([QuadraticFormula]).  With a leading coefficient that is not zero
    and a square root that is exact on the discriminant, the two values
    are all the roots: a number is a root of the quadratic exactly when
    it is one of the two, and their sum and product are [-B / A] and
    [C / A]. *)
Theorem QuadraticFormula_all_roots
    (A B C x_small x_large x : Q) :
  ~ A == 0 ->
  0 <= sqrt (B * B - 4 * A * C) ->
  sqrt (B * B - 4 * A * C) * sqrt (B * B - 4 * A * C) == B * B - 4 * A * C ->
  QuadraticFormula sqrt A B C = Some (x_small, x_large) ->
  (is_root A B C x <-> x == x_small \/ x == x_large)
  /\ x_small + x_large == - B / A
  /\ x_small * x_large == C / A.
Proof.
  intros HA Hs0 Hss HQ.
  destruct (QuadraticFormula_sum_product A B C x_small x_large HA Hs0 Hss HQ)
    as [Hsum Hprod].
  assert (Hfact : A * x * x + B * x + C
                  == A * ((x - x_small) * (x - x_large))).
  { rewrite <- Hprod.
    assert (E : B == - (A * (x_small + x_large))) by lra.
    rewrite E. ring. }
  split; [| split].
  - unfold is_root. rewrite Hfact. split.
    + intros H0. apply Qmult_integral in H0. destruct H0 as [H0 | H0];
        [contradiction |].
      apply Qmult_integral in H0. destruct H0; [left | right]; lra.
    + intros [-> | ->]; ring.
  - rewrite <- Hsum. field. exact HA.
  - rewrite <- Hprod. field. exact HA.
Qed.

(** The function answers [false] only for a quadratic with no root. *)
Lemma QuadraticFormula_none_no_root (A B C x : Q) :
  QuadraticFormula sqrt A B C = None -> ~ is_root A B C x.
Proof.
  intros HN. apply QuadraticFormula_none in HN. unfold is_root. intros Hr.
  assert (E : (2 * A * x + B) * (2 * A * x + B)
              == B * B - 4 * A * C + 4 * A * (A * x * x + B * x + C))
    by ring.
  rewrite Hr in E.
  set (y := 2 * A * x + B) in *.
  assert (Hsq : 0 <= y * y) by nra.
  assert (E' : y * y == B * B - 4 * A * C) by (rewrite E; ring).
  lra.
Qed.

End QuadraticRoots.

Lemma QuadraticFormula_all_roots_witness :
  QuadraticFormula sqrt_floor 1 (-3) 2 = Some (4 # 4, 4 # 2)
  /\ (is_root 1 (-3) 2 2 <-> 2 == 4 # 4 \/ 2 == 4 # 2).
Proof.
  assert (HQ : QuadraticFormula sqrt_floor 1 (-3) 2 = Some (4 # 4, 4 # 2))
    by (vm_compute; reflexivity).
  split; [exact HQ |].
  apply (QuadraticFormula_all_roots sqrt_floor 1 (-3) 2 (4 # 4) (4 # 2) 2).
  - intros H; discriminate H.
  - vm_compute; discriminate.
  - vm_compute; reflexivity.
  - exact HQ.
Defined.

(* ================================================================= *)
(** ** Spheres *)

Lemma sphere_quadratic_at (s : Sphere) (ray : Ray) (A B C t : Q) :
  sphere_quadratic s ray = (A, B, C) ->
  dot (vsub (Ray_at ray t) (m_center s)) (vsub (Ray_at ray t) (m_center s))
  - radius_squared s
  == A * t * t + B * t + C.
Proof.
  unfold sphere_quadratic. intros Hq. inversion Hq; subst. clear Hq.
  destruct s as [this m [cx cy cz] r r2].
  destruct ray as [[ox oy oz] [dx dy dz] rec tmin tmax].
  cbv [dot vsub vzip vmap Ray_at vadd vscale vx vy vz m_origin m_direction
       m_center radius_squared].
  ring.
Qed.

(** X12 ([Sphere::GetIntersectionRecord]).  With a direction that is not
    zero and a square root that is exact on the discriminant, a record
    that reports a hit has a parameter that is not negative, its location
    is the point of the ray at that parameter, that point is on the
    sphere (its squared distance to the centre is [radius_squared]), and
    the normal is the normalised vector from the centre to it. *)
Theorem Sphere_hit_on_surface (sqrt : Q -> Q) (s : Sphere) (ray : Ray)
    (A B C : Q) :
  sphere_quadratic s ray = (A, B, C) ->
  ~ A == 0 ->
  0 <= sqrt (B * B - 4 * A * C) ->
  sqrt (B * B - 4 * A * C) * sqrt (B * B - 4 * A * C) == B * B - 4 * A * C ->
  IR.has_intersection (Sphere_GetIntersectionRecord sqrt s ray) = true ->
  let record := Sphere_GetIntersectionRecord sqrt s ray in
  0 <= IR.t record
  /\ IR.location record = Ray_at ray (IR.t record)
  /\ dot (vsub (IR.location record) (m_center s))
         (vsub (IR.location record) (m_center s))
     == radius_squared s
  /\ IR.surface_normal record
     = normalize sqrt (vsub (IR.location record) (m_center s)).
Proof.
  intros Hq HA Hs0 Hss.
  pose proof (fun t => sphere_quadratic_at s ray A B C t Hq) as Hat.
  unfold Sphere_GetIntersectionRecord.
  unfold sphere_quadratic in Hq. inversion Hq as [[EA EB EC]]. clear Hq.
  rewrite EA, EB, EC.
  destruct (QuadraticFormula sqrt A B C) as [[xs xl] |] eqn:HQ;
    [| discriminate].
  destruct (QuadraticFormula_roots sqrt A B C xs xl HA Hs0 Hss HQ)
    as [Rs Rl].
  set (t := if Qltb xs 0 then xl else xs).
  assert (Rt : is_root A B C t) by (subst t; destruct (Qltb xs 0); assumption).
  destruct (Qltb t 0) eqn:Et; [discriminate |].
  intros _. cbn [IR.t IR.location IR.surface_normal].
  q_props. split; [exact Et |]. split; [reflexivity |].
  split; [| reflexivity].
  unfold is_root in Rt. specialize (Hat t). lra.
Qed.

Lemma Sphere_hit_on_surface_witness :
  IR.t (Sphere_GetIntersectionRecord sqrt_floor unit_sphere ray_along_z) == 2
  /\ dot (vsub (IR.location
                  (Sphere_GetIntersectionRecord sqrt_floor unit_sphere
                     ray_along_z))
               (m_center unit_sphere))
         (vsub (IR.location
                  (Sphere_GetIntersectionRecord sqrt_floor unit_sphere
                     ray_along_z))
               (m_center unit_sphere))
     == radius_squared unit_sphere.
Proof.
  split; [vm_compute; reflexivity |].
  refine (proj1 (proj2 (proj2
    (Sphere_hit_on_surface sqrt_floor unit_sphere ray_along_z _ _ _
       eq_refl _ _ _ _)))).
  - intros H; vm_compute in H; discriminate H.
  - vm_compute; discriminate.
  - vm_compute; reflexivity.
  - vm_compute; reflexivity.
Defined.

Lemma square_nonneg (x : Q) : 0 <= x * x.
Proof. nra. Qed.

(** On one axis, a point of the ball lies between the two planes of the
    sphere's box, whatever the sign of the radius. *)
Lemma ball_point_in_slab (c r p : Q) :
  (p - c) * (p - c) <= r * r ->
  ext_leb (AABB.fmin (Fin (c + r)) (Fin (c - r))) (Fin p) = true
  /\ ext_leb (Fin p) (AABB.fmax (Fin (c + r)) (Fin (c - r))) = true.
Proof.
  intros Hsq.
  unfold AABB.fmin, AABB.fmax, ext_leb. cbn [ext_ltb].
  destruct (Qlt_le_dec r 0) as [Hr | Hr].
  - assert (Hb : - (- r) <= p - c /\ p - c <= - r).
    { apply square_bound; [| lra].
      assert (E : - r * - r == r * r) by ring. rewrite E. exact Hsq. }
    split; q_cases; q_props; lra.
  - destruct (square_bound (p - c) r Hsq Hr).
    split; q_cases; q_props; lra.
Qed.

(** X13 ([Sphere::Get3DAABB]).  The box of a sphere contains every point
    whose distance to the centre is at most the radius, whatever the sign
    of the radius the sphere was given. *)
Theorem Sphere_box_encloses_ball (s : Sphere) (p : vec3) :
  dot (vsub p (m_center s)) (vsub p (m_center s)) <= m_radius s * m_radius s ->
  AABB.contains_point (Sphere_Get3DAABB s) (point p) = true.
Proof.
  destruct s as [this m [cx cy cz] r r2], p as [px py pz].
  cbv [dot vsub vzip vmap vx vy vz m_center m_radius]. intros Hball.
  pose proof (square_nonneg (px - cx)) as Sx.
  pose proof (square_nonneg (py - cy)) as Sy.
  pose proof (square_nonneg (pz - cz)) as Sz.
  destruct (ball_point_in_slab cx r px) as [Hx1 Hx2]; [lra |].
  destruct (ball_point_in_slab cy r py) as [Hy1 Hy2]; [lra |].
  destruct (ball_point_in_slab cz r pz) as [Hz1 Hz2]; [lra |].
  cbv [Sphere_Get3DAABB AABB.contains_point AABB.of_points point some3 fin3
       vmap vzip vadd_scalar vsub_scalar vx vy vz
       min_slab_values max_slab_values f_le m_center m_radius].
  rewrite Hx1, Hx2, Hy1, Hy2, Hz1, Hz2. reflexivity.
Qed.

Lemma Sphere_box_encloses_ball_witness :
  AABB.contains_point (Sphere_Get3DAABB (Sphere_ctor 0 (mkvec3 1 2 3) (-2)))
                      (point (mkvec3 2 3 4)) = true.
Proof.
  apply (Sphere_box_encloses_ball (Sphere_ctor 0 (mkvec3 1 2 3) (-2))
                                  (mkvec3 2 3 4)).
  vm_compute. discriminate.
Defined.

(** X14 ([Sphere::GetIntersectionRecord], a ray that starts inside).  With
    a direction that is not zero, an origin strictly inside the sphere and
    a square root that is exact on the discriminant, the record reports a
    hit, at a positive parameter, which is the larger root: the point
    where the ray leaves the sphere. *)
Theorem Sphere_ray_from_inside_hits (sqrt : Q -> Q) (s : Sphere) (ray : Ray)
    (A B C : Q) :
  sphere_quadratic s ray = (A, B, C) ->
  0 < A ->
  C < 0 ->
  0 <= sqrt (B * B - 4 * A * C) ->
  sqrt (B * B - 4 * A * C) * sqrt (B * B - 4 * A * C) == B * B - 4 * A * C ->
  let record := Sphere_GetIntersectionRecord sqrt s ray in
  IR.has_intersection record = true
  /\ 0 < IR.t record
  /\ is_root A B C (IR.t record)
  /\ forall x, is_root A B C x -> x <= IR.t record.
Proof.
  intros Hq HA HC Hs0 Hss.
  assert (HA0 : ~ A == 0) by lra.
  assert (HD : 0 <= B * B - 4 * A * C) by nra.
  destruct (QuadraticFormula_returns sqrt A B C HD) as (xs & xl & HQ).
  pose proof (QuadraticFormula_ordered sqrt A B C xs xl HQ) as Hord.
  destruct (QuadraticFormula_roots sqrt A B C xs xl HA0 Hs0 Hss HQ)
    as [Rs Rl].
  destruct (QuadraticFormula_sum_product sqrt A B C xs xl HA0 Hs0 Hss HQ)
    as [_ Hprod].
  assert (Hneg : xs * xl < 0) by nra.
  assert (Hxs : xs < 0) by nra.
  assert (Hxl : 0 < xl) by nra.
  unfold Sphere_GetIntersectionRecord.
  unfold sphere_quadratic in Hq. inversion Hq as [[EA EB EC]]. clear Hq.
  rewrite EA, EB, EC, HQ.
  assert (E1 : Qltb xs 0 = true) by (apply Qltb_lt; exact Hxs).
  assert (E2 : Qltb xl 0 = false) by (apply Qltb_ge; lra).
  rewrite E1, E2. cbn [IR.has_intersection IR.t].
  split; [reflexivity |]. split; [exact Hxl |]. split; [exact Rl |].
  intros x Hx.
  assert (Hfact : A * ((x - xs) * (x - xl)) == 0).
  { destruct (QuadraticFormula_sum_product sqrt A B C xs xl HA0 Hs0 Hss HQ)
      as [Hsum _].
    unfold is_root in Hx.
    assert (E : A * ((x - xs) * (x - xl))
                == A * x * x - A * (xs + xl) * x + A * (xs * xl)) by ring.
    rewrite E, Hprod.
    assert (E' : A * (xs + xl) * x == - B * x) by (rewrite Hsum; ring).
    rewrite E'. lra. }
  apply Qmult_integral in Hfact. destruct Hfact as [H0 | H0]; [lra |].
  apply Qmult_integral in H0. destruct H0; lra.
Qed.

Lemma Sphere_ray_from_inside_hits_witness :
  IR.has_intersection
    (Sphere_GetIntersectionRecord sqrt_floor unit_sphere
       (Ray_ctor (mkvec3 0 0 0) (mkvec3 0 0 1))) = true.
Proof.
  refine (proj1
    (Sphere_ray_from_inside_hits sqrt_floor unit_sphere
       (Ray_ctor (mkvec3 0 0 0) (mkvec3 0 0 1)) _ _ _ eq_refl _ _ _ _)).
  - vm_compute; reflexivity.
  - vm_compute; reflexivity.
  - vm_compute; discriminate.
  - vm_compute; reflexivity.
Defined.

(* ================================================================= *)
(** ** Utilities *)

(** X15 ([Whitted::normalize]).  A vector that is not zero is scaled to
    unit length and keeps its direction, when the square root is exact on
    its squared length; the zero vector is returned as it is, without a
    division. *)
Theorem normalize_unit_or_zero (sqrt : Q -> Q) (v : vec3) :
  (0 < dot v v ->
   0 < sqrt (dot v v) ->
   sqrt (dot v v) * sqrt (dot v v) == dot v v ->
   dot (normalize sqrt v) (normalize sqrt v) == 1
   /\ veq (vscale (sqrt (dot v v)) (normalize sqrt v)) v)
  /\ (dot v v == 0 -> normalize sqrt v = v).
Proof.
  destruct v as [x y z]. unfold normalize, dot. cbn [vx vy vz].
  set (l := x * x + y * y + z * z). split.
  - intros Hl Hs Hss. apply Qltb_lt in Hl. rewrite Hl.
    assert (Hs0 : ~ sqrt l == 0) by lra.
    unfold veq, vscale, vmap. cbn [vx vy vz]. split.
    + assert (E : x * (1 / sqrt l) * (x * (1 / sqrt l))
                  + y * (1 / sqrt l) * (y * (1 / sqrt l))
                  + z * (1 / sqrt l) * (z * (1 / sqrt l))
                  == l / (sqrt l * sqrt l)) by (unfold l; field; exact Hs0).
      rewrite E, Hss. field. rewrite <- Hss. intros H0.
      apply Qmult_integral in H0. tauto.
    + repeat split; field; exact Hs0.
  - intros Hl. assert (E : Qltb 0 l = false) by (apply Qltb_ge; lra).
    now rewrite E.
Qed.

Lemma normalize_unit_or_zero_witness :
  dot (normalize sqrt_floor (mkvec3 3 0 4)) (normalize sqrt_floor (mkvec3 3 0 4))
  == 1.
Proof.
  apply (proj1 (normalize_unit_or_zero sqrt_floor (mkvec3 3 0 4)));
    vm_compute; reflexivity.
Defined.

Lemma clamp_float_bounds_aux (value lower_bound upper_bound : Q) :
  (lower_bound <= upper_bound ->
   lower_bound <= clamp_float value lower_bound upper_bound
   /\ clamp_float value lower_bound upper_bound <= upper_bound)
  /\ (lower_bound <= value -> value <= upper_bound ->
      clamp_float value lower_bound upper_bound = value)
  /\ (upper_bound < lower_bound ->
      clamp_float value lower_bound upper_bound = lower_bound).
Proof.
  unfold clamp_float, Qstd_max, Qstd_min.
  repeat split; intros;
    destruct (Qltb upper_bound value) eqn:E1;
    match goal with
    | |- context [Qltb ?a ?b] => destruct (Qltb a b) eqn:E2
    end; q_props; try reflexivity; try lra.
Qed.

(** X16 ([clamp_float]).  With the bounds in order the result lies between
    them and a value that already does is returned as it is; with the
    bounds out of order the result is the lower bound, whatever the
    value. *)
Theorem clamp_float_bounds (value lower_bound upper_bound : Q) :
  (lower_bound <= upper_bound ->
   lower_bound <= clamp_float value lower_bound upper_bound
   /\ clamp_float value lower_bound upper_bound <= upper_bound)
  /\ (lower_bound <= value -> value <= upper_bound ->
      clamp_float value lower_bound upper_bound = value)
  /\ (upper_bound < lower_bound ->
      clamp_float value lower_bound upper_bound = lower_bound).
Proof. apply clamp_float_bounds_aux. Qed.

Lemma clamp_float_bounds_witness :
  -1 <= clamp_float 5 (-1) 1 /\ clamp_float 5 (-1) 1 <= 1.
Proof.
  apply (proj1 (clamp_float_bounds 5 (-1) 1)). vm_compute. discriminate.
Defined.

(* ================================================================= *)
(** ** Triangles *)

Lemma convex_bounds (a b c m wa wb wc : Q) :
  0 <= wa -> 0 <= wb -> 0 <= wc -> wa + wb + wc == 1 ->
  (m <= a -> m <= b -> m <= c -> m <= wa * a + wb * b + wc * c)
  /\ (a <= m -> b <= m -> c <= m -> wa * a + wb * b + wc * c <= m).
Proof.
  intros Ha Hb Hc Hsum. split; intros H1 H2 H3.
  - assert (P1 : 0 <= wa * (a - m)) by (apply Qmult_le_0_compat; lra).
    assert (P2 : 0 <= wb * (b - m)) by (apply Qmult_le_0_compat; lra).
    assert (P3 : 0 <= wc * (c - m)) by (apply Qmult_le_0_compat; lra).
    assert (E : wa * a + wb * b + wc * c - m
                == wa * (a - m) + wb * (b - m) + wc * (c - m)
                   + (wa + wb + wc - 1) * m) by ring.
    rewrite Hsum in E. lra.
  - assert (P1 : 0 <= wa * (m - a)) by (apply Qmult_le_0_compat; lra).
    assert (P2 : 0 <= wb * (m - b)) by (apply Qmult_le_0_compat; lra).
    assert (P3 : 0 <= wc * (m - c)) by (apply Qmult_le_0_compat; lra).
    assert (E : m - (wa * a + wb * b + wc * c)
                == wa * (m - a) + wb * (m - b) + wc * (m - c)
                   - (wa + wb + wc - 1) * m) by ring.
    rewrite Hsum in E. lra.
Qed.

(** On one axis, a convex combination of the three vertex coordinates lies
    between the planes of the triangle's box. *)
Lemma convex_in_slab (a b c p wa wb wc : Q) :
  0 <= wa -> 0 <= wb -> 0 <= wc -> wa + wb + wc == 1 ->
  p == wa * a + wb * b + wc * c ->
  ext_leb (AABB.glm_min (AABB.fmin (Fin a) (Fin b)) (Some (Fin c))) (Fin p)
  = true
  /\ ext_leb (Fin p) (AABB.glm_max (AABB.fmax (Fin a) (Fin b)) (Some (Fin c)))
     = true.
Proof.
  intros Ha Hb Hc Hsum Hp.
  unfold AABB.glm_min, AABB.glm_max, AABB.fmin, AABB.fmax, ext_leb.
  cbn [ext_ltb].
  split.
  - destruct (Qltb b a) eqn:E1; cbn [ext_ltb];
      match goal with |- context [Qltb c ?m] => destruct (Qltb c m) eqn:E2 end;
      cbn [ext_ltb]; q_props; rewrite Hp;
      apply (convex_bounds a b c _ wa wb wc Ha Hb Hc Hsum); lra.
  - destruct (Qltb a b) eqn:E1; cbn [ext_ltb];
      match goal with |- context [Qltb ?m c] => destruct (Qltb m c) eqn:E2 end;
      cbn [ext_ltb]; q_props; rewrite Hp;
      apply (convex_bounds a b c _ wa wb wc Ha Hb Hc Hsum); lra.
Qed.

(** The point of a triangle with the given weights on its vertices. *)
Lemma convex_point_in_box (tr : TrianglePrimitive) (wa wb wc : Q) (p : vec3) :
  0 <= wa -> 0 <= wb -> 0 <= wc -> wa + wb + wc == 1 ->
  veq p (vadd (vadd (vscale wa (vertice_a tr)) (vscale wb (vertice_b tr)))
              (vscale wc (vertice_c tr))) ->
  AABB.contains_point (Triangle_Get3DAABB tr) (point p) = true.
Proof.
  intros Ha Hb Hc Hsum (Hx & Hy & Hz).
  unfold Triangle_Get3DAABB, AABB.contains_point, AABB.Union_with_point,
    AABB.of_points, point, some3, fin3, vmap, vzip.
  cbn [vx vy vz min_slab_values max_slab_values f_le].
  unfold vadd, vscale, vzip, vmap in *. cbn [vx vy vz] in *.
  destruct (convex_in_slab _ _ _ _ wa wb wc Ha Hb Hc Hsum Hx) as [Hx1 Hx2].
  destruct (convex_in_slab _ _ _ _ wa wb wc Ha Hb Hc Hsum Hy) as [Hy1 Hy2].
  destruct (convex_in_slab _ _ _ _ wa wb wc Ha Hb Hc Hsum Hz) as [Hz1 Hz2].
  rewrite Hx1, Hx2, Hy1, Hy2, Hz1, Hz2. reflexivity.
Qed.

(** X17 ([TrianglePrimitive::Get3DAABB]).  The box of a triangle contains
    every point of the triangle: every combination of the three vertices
    with weights that are not negative and add up to 1, the vertices
    included. *)
Theorem Triangle_box_encloses_triangle (tr : TrianglePrimitive)
    (wa wb wc : Q) :
  0 <= wa -> 0 <= wb -> 0 <= wc -> wa + wb + wc == 1 ->
  AABB.contains_point (Triangle_Get3DAABB tr)
    (point (vadd (vadd (vscale wa (vertice_a tr)) (vscale wb (vertice_b tr)))
                 (vscale wc (vertice_c tr)))) = true.
Proof.
  intros Ha Hb Hc Hsum.
  apply (convex_point_in_box tr wa wb wc); try assumption.
  unfold veq. repeat split; reflexivity.
Qed.

Lemma Triangle_box_encloses_triangle_witness :
  AABB.contains_point (Triangle_Get3DAABB square_upper)
    (point (vadd (vadd (vscale 0 (vertice_a square_upper))
                       (vscale 0 (vertice_b square_upper)))
                 (vscale 1 (vertice_c square_upper)))) = true.
Proof.
  apply (Triangle_box_encloses_triangle square_upper 0 0 1);
    vm_compute; first [discriminate | reflexivity].
Defined.

(** X18 ([TrianglePrimitive::Sampling]).  With the square root of the
    first draw and the second draw both between 0 and 1, the sampled
    location is a point of the triangle, inside the triangle's box; the
    normal is the triangle's; the density is one over the area; exactly two
    draws are taken; and what the record held besides location and normal
    (the emission the mesh has written into it, for one) is kept. *)
Theorem Triangle_Sampling_on_triangle (sqrt : Q -> Q)
    (tr : TrianglePrimitive) (sample : IntersectionRecord)
    (g : RandomSource) :
  0 <= sqrt (draws g (cursor g)) ->
  sqrt (draws g (cursor g)) <= 1 ->
  0 <= draws g (S (cursor g)) ->
  draws g (S (cursor g)) <= 1 ->
  let result := Triangle_Sampling sqrt tr sample g in
  let location := IR.location (fst (fst result)) in
  (exists wa wb wc,
      0 <= wa /\ 0 <= wb /\ 0 <= wc /\ wa + wb + wc == 1
      /\ location
         = vadd (vadd (vscale wa (vertice_a tr)) (vscale wb (vertice_b tr)))
                (vscale wc (vertice_c tr)))
  /\ AABB.contains_point (Triangle_Get3DAABB tr) (point location) = true
  /\ IR.surface_normal (fst (fst result)) = m_surface_normal tr
  /\ snd (fst result) = 1 / area tr
  /\ cursor (snd result) = S (S (cursor g))
  /\ draws (snd result) = draws g
  /\ IR.emission (fst (fst result)) = IR.emission sample
  /\ IR.has_intersection (fst (fst result)) = IR.has_intersection sample.
Proof.
  intros Hs0 Hs1 Hy0 Hy1.
  unfold Triangle_Sampling, get_random_float_0_1.
  cbn [fst snd cursor draws IR.location IR.surface_normal IR.emission
       IR.has_intersection].
  set (x := 1 - sqrt (draws g (cursor g))).
  set (y := draws g (S (cursor g))).
  assert (W : 0 <= x /\ 0 <= (1 - x) * y /\ 0 <= (1 - x) * (1 - y)
              /\ x + (1 - x) * y + (1 - x) * (1 - y) == 1).
  { split; [unfold x; lra |].
    split; [apply Qmult_le_0_compat; unfold x, y; lra |].
    split; [apply Qmult_le_0_compat; unfold x, y; lra |]. ring. }
  destruct W as (W1 & W2 & W3 & W4).
  split; [| split; [| repeat split]].
  - exists x, ((1 - x) * y), ((1 - x) * (1 - y)). auto 10.
  - apply (convex_point_in_box tr x ((1 - x) * y) ((1 - x) * (1 - y)));
      try assumption.
    unfold veq. repeat split; reflexivity.
Qed.

Lemma Triangle_Sampling_on_triangle_witness :
  AABB.contains_point (Triangle_Get3DAABB light_triangle)
    (point (IR.location
              (fst (fst (Triangle_Sampling sqrt_floor light_triangle
                           IR.default shadow_draws))))) = true.
Proof.
  refine (proj1 (proj2
    (Triangle_Sampling_on_triangle sqrt_floor light_triangle IR.default
       shadow_draws _ _ _ _)));
    vm_compute; discriminate.
Defined.

Lemma normalize_orthogonal (sqrt : Q -> Q) (v w : vec3) :
  dot v w == 0 -> dot (normalize sqrt v) w == 0.
Proof.
  unfold normalize. destruct (Qltb 0 _); [| auto].
  unfold dot. cbn [vx vy vz]. intros H0.
  set (k := 1 / sqrt _).
  assert (E : vx v * k * vx w + vy v * k * vy w + vz v * k * vz w
              == k * (vx v * vx w + vy v * vy w + vz v * vz w)) by ring.
  rewrite E, H0. ring.
Qed.

Lemma cross_orthogonal (u v : vec3) :
  dot (cross u v) u == 0 /\ dot (cross u v) v == 0.
Proof.
  unfold dot, cross. cbn [vx vy vz]. split; ring.
Qed.

(** X19 ([TrianglePrimitive::TrianglePrimitive],
    [TrianglePrimitive::GetIntersectionRecord]).  The normal the
    constructor stores is orthogonal to the two edges that leave the first
    vertex, whatever the square root; and a record that reports a hit has
    a positive parameter, a location in the plane of the triangle, the
    triangle's normal, and the triangle's id and address. *)
Theorem Triangle_hit_in_plane (sqrt : Q -> Q) (this : nat) (id_count : Z)
    (a b c : vec3) (m : option WhittedMaterial) (ray : Ray) :
  let tr := TrianglePrimitive_ctor sqrt this id_count a b c m in
  let record := Triangle_GetIntersectionRecord tr ray in
  IR.has_intersection record = true ->
  dot (m_surface_normal tr) (vsub b a) == 0
  /\ dot (m_surface_normal tr) (vsub c a) == 0
  /\ dot (m_surface_normal tr) (vsub (IR.location record) a) == 0
  /\ 0 < IR.t record
  /\ IR.surface_normal record = m_surface_normal tr
  /\ IR.primitive_id record = id_count
  /\ IR.hitted_entity record = Some this.
Proof.
  intros tr record.
  assert (N1 : dot (m_surface_normal tr) (vsub b a) == 0)
    by (apply normalize_orthogonal, cross_orthogonal).
  assert (N2 : dot (m_surface_normal tr) (vsub c a) == 0)
    by (apply normalize_orthogonal, cross_orthogonal).
  subst record. unfold Triangle_GetIntersectionRecord.
  pose proof (hit_determinant (vertice_a tr) (vertice_b tr) (vertice_c tr)
                (m_origin ray) (m_direction ray)) as Hdet.
  pose proof (moller_trumbore_solves (vertice_a tr) (vertice_b tr)
                (vertice_c tr) (m_origin ray) (m_direction ray)) as Hsol.
  rewrite RayTriangleIntersection_unfold in *. cbn [fst] in Hdet.
  set (t := dot _ _ * (1 / _)) in *.
  set (u := dot (cross (m_direction ray) _) _ * (1 / _)) in *.
  set (v := dot _ (m_direction ray) * (1 / _)) in *.
  destruct (Qltb 0 t && Qltb 0 u && Qltb 0 v && Qltb 0 (1 - u - v)) eqn:Ehit;
    cbn [IR.has_intersection IR.t IR.location IR.surface_normal
         IR.primitive_id IR.hitted_entity]; [| discriminate].
  intros _. specialize (Hsol (Hdet eq_refl)).
  apply strictly_inside_iff in Ehit. destruct Ehit as (Ht & Hu & Hv & Huv).
  split; [exact N1 |]. split; [exact N2 |].
  split; [| repeat split; auto].
  destruct Hsol as (Hx & Hy & Hz).
  generalize dependent (m_surface_normal tr). intros n N1 N2.
  cbn [vertice_a vertice_b vertice_c tr TrianglePrimitive_ctor] in *.
  unfold Ray_at, dot, vsub, vadd, vscale, vzip, vmap in *.
  cbn [vx vy vz] in *.
  rewrite Hx, Hy, Hz.
  assert (E : vx n * ((1 - u - v) * vx a + u * vx b + v * vx c - vx a)
              + vy n * ((1 - u - v) * vy a + u * vy b + v * vy c - vy a)
              + vz n * ((1 - u - v) * vz a + u * vz b + v * vz c - vz a)
              == u * (vx n * (vx b - vx a) + vy n * (vy b - vy a)
                      + vz n * (vz b - vz a))
                 + v * (vx n * (vx c - vx a) + vy n * (vy c - vy a)
                        + vz n * (vz c - vz a))) by ring.
  rewrite E, N1, N2. ring.
Qed.

Lemma Triangle_hit_in_plane_witness :
  0 < IR.t (Triangle_GetIntersectionRecord square_upper ray_to_square)
  /\ IR.primitive_id (Triangle_GetIntersectionRecord square_upper ray_to_square)
     = 1%Z.
Proof.
  pose proof (Triangle_hit_in_plane sqrt_floor 1 1
                (mkvec3 0 0 0) (mkvec3 1 1 0) (mkvec3 0 1 0) None
                ray_to_square eq_refl) as (_ & _ & _ & Ht & _ & Hid & _).
  split; [exact Ht | exact Hid].
Defined.

(* ================================================================= *)
(** ** Sampling a direction from a material *)

Lemma glm_normalize_orthogonal (sqrt : Q -> Q) (v w : vec3) :
  dot v w == 0 -> dot (glm_normalize sqrt v) w == 0.
Proof.
  unfold glm_normalize, dot, vscale_r, vmap. cbn [vx vy vz]. intros H0.
  set (k := 1 / sqrt _).
  assert (E : vx v * k * vx w + vy v * k * vy w + vz v * k * vz w
              == k * (vx v * vx w + vy v * vy w + vz v * vz w)) by ring.
  rewrite E, H0. ring.
Qed.

Lemma glm_normalize_unit (sqrt : Q -> Q) (v : vec3) :
  0 < dot v v ->
  sqrt (dot v v) * sqrt (dot v v) == dot v v ->
  dot (glm_normalize sqrt v) (glm_normalize sqrt v) == 1.
Proof.
  intros Hl Hss.
  assert (Hs0 : ~ sqrt (dot v v) == 0).
  { intros H0. rewrite H0 in Hss. lra. }
  unfold glm_normalize, vscale_r, vmap.
  set (s := sqrt (dot v v)) in *.
  unfold dot in *. cbn [vx vy vz] in *.
  assert (E : vx v * (1 / s) * (vx v * (1 / s))
              + vy v * (1 / s) * (vy v * (1 / s))
              + vz v * (1 / s) * (vz v * (1 / s))
              == (vx v * vx v + vy v * vy v + vz v * vz v) / (s * s))
    by (field; exact Hs0).
  rewrite E, <- Hss. field. exact Hs0.
Qed.

(** The vector the code normalises into [Y]: orthogonal to the normal. *)
Lemma tangent_orthogonal (n : vec3) :
  dot (mkvec3 (vz n) 0 (- vx n)) n == 0
  /\ dot (mkvec3 0 (vz n) (- vy n)) n == 0.
Proof. unfold dot. cbn [vx vy vz]. split; ring. Qed.

Lemma Material_Sampling_unfold (sqrt cos sin : Q -> Q) (m : WhittedMaterial)
    (W_out n : vec3) (g : RandomSource) :
  Material_Sampling sqrt cos sin m W_out n g
  = let z := draws g (cursor g) in
    let r := sqrt (1 - z * z) in
    let phi := 2 * PI * draws g (S (cursor g)) in
    let Y := glm_normalize sqrt
               (if Qltb (Qabs (vy n)) (Qabs (vx n))
                then mkvec3 (vz n) 0 (- vx n)
                else mkvec3 0 (vz n) (- vy n)) in
    (vadd (vadd (vscale (r * cos phi) (cross Y n)) (vscale (r * sin phi) Y))
          (vscale z n),
     {| draws := draws g; cursor := S (S (cursor g)) |}).
Proof.
  unfold Material_Sampling, get_random_float_0_1. cbn [draws cursor].
  destruct (Qltb (Qabs (vy n)) (Qabs (vx n))); reflexivity.
Qed.

(** About a unit normal, the sampled direction makes with the normal the
    cosine the first draw gives; two draws are taken. *)
Lemma Material_Sampling_cosine (sqrt cos sin : Q -> Q)
    (m : WhittedMaterial) (W_out n : vec3) (g : RandomSource) :
  dot n n == 1 ->
  dot (fst (Material_Sampling sqrt cos sin m W_out n g)) n
  == draws g (cursor g)
  /\ cursor (snd (Material_Sampling sqrt cos sin m W_out n g))
     = S (S (cursor g))
  /\ draws (snd (Material_Sampling sqrt cos sin m W_out n g)) = draws g.
Proof.
  intros Hn. rewrite Material_Sampling_unfold. cbv zeta. cbn [fst snd cursor].
  split; [| split; reflexivity].
  set (Y := glm_normalize sqrt _).
  assert (HY : dot Y n == 0).
  { subst Y. apply glm_normalize_orthogonal.
    destruct (Qltb _ _); apply tangent_orthogonal. }
  set (x := sqrt _ * cos _). set (y := sqrt _ * sin _).
  set (z := draws g (cursor g)).
  destruct Y as [Yx Yy Yz], n as [nx ny nz].
  unfold dot, cross, vadd, vscale, vzip, vmap in *. cbn [vx vy vz] in *.
  assert (E : (x * (Yy * nz - ny * Yz) + y * Yx + z * nx) * nx
              + (x * (Yz * nx - nz * Yx) + y * Yy + z * ny) * ny
              + (x * (Yx * ny - nx * Yy) + y * Yz + z * nz) * nz
              == y * (Yx * nx + Yy * ny + Yz * nz)
                 + z * (nx * nx + ny * ny + nz * nz)) by ring.
  rewrite E, HY, Hn. ring.
Qed.

Lemma Qabs_zero_iff (x : Q) : Qabs x == 0 <-> x == 0.
Proof.
  split; intros H.
  - pose proof (Qle_Qabs x). pose proof (Qle_Qabs (- x)) as H'.
    rewrite Qabs_opp_id in H'. lra.
  - rewrite H. reflexivity.
Qed.

(** About a unit normal, the vector the code normalises into [Y] is not
    the zero vector. *)
Lemma tangent_not_zero (n : vec3) :
  dot n n == 1 ->
  0 < dot (if Qltb (Qabs (vy n)) (Qabs (vx n))
           then mkvec3 (vz n) 0 (- vx n)
           else mkvec3 0 (vz n) (- vy n))
          (if Qltb (Qabs (vy n)) (Qabs (vx n))
           then mkvec3 (vz n) 0 (- vx n)
           else mkvec3 0 (vz n) (- vy n)).
Proof.
  destruct n as [nx ny nz]. unfold dot. cbn [vx vy vz]. intros Hn.
  pose proof (square_nonneg nx) as Sx.
  pose proof (square_nonneg ny) as Sy.
  pose proof (square_nonneg nz) as Sz.
  destruct (Qltb (Qabs ny) (Qabs nx)) eqn:E; cbn [vx vy vz]; q_props.
  - assert (Hx : ~ nx == 0).
    { intros H0. apply (proj2 (Qabs_zero_iff nx)) in H0.
      pose proof (Qabs_nonneg ny). lra. }
    assert (Px : 0 < nx * nx).
    { destruct (Qlt_le_dec 0 (nx * nx)) as [| Hle]; [assumption |].
      exfalso. apply Hx.
      assert (E0 : nx * nx == 0) by lra.
      apply Qmult_integral in E0. tauto. }
    lra.
  - destruct (Qlt_le_dec 0 (nz * nz + ny * ny)) as [| Hle]; [lra |].
    exfalso.
    assert (Ey : ny * ny == 0) by lra.
    assert (Hy : ny == 0) by (apply Qmult_integral in Ey; tauto).
    assert (Hax : Qabs nx == 0).
    { apply (proj2 (Qabs_zero_iff ny)) in Hy.
      pose proof (Qabs_nonneg nx). lra. }
    apply (proj1 (Qabs_zero_iff nx)) in Hax.
    assert (Ex : nx * nx == 0) by (rewrite Hax; ring).
    lra.
Qed.

(** About a unit normal, with a square root that is exact where the code
    takes it and a cosine and a sine whose squares add up to 1 at the
    sampled angle, the sampled direction is a unit vector. *)
Lemma Material_Sampling_unit (sqrt cos sin : Q -> Q)
    (m : WhittedMaterial) (W_out n : vec3) (g : RandomSource) :
  let z := draws g (cursor g) in
  let phi := 2 * PI * draws g (S (cursor g)) in
  let tangent :=
    if Qltb (Qabs (vy n)) (Qabs (vx n))
    then mkvec3 (vz n) 0 (- vx n)
    else mkvec3 0 (vz n) (- vy n) in
  dot n n == 1 ->
  sqrt (1 - z * z) * sqrt (1 - z * z) == 1 - z * z ->
  cos phi * cos phi + sin phi * sin phi == 1 ->
  sqrt (dot tangent tangent) * sqrt (dot tangent tangent)
  == dot tangent tangent ->
  dot (fst (Material_Sampling sqrt cos sin m W_out n g))
      (fst (Material_Sampling sqrt cos sin m W_out n g))
  == 1.
Proof.
  intros z phi tangent Hn Hr Hcs Hss.
  rewrite Material_Sampling_unfold. cbv zeta. cbn [fst].
  set (Y := glm_normalize sqrt _).
  assert (HYn : dot Y n == 0).
  { subst Y. apply glm_normalize_orthogonal.
    destruct (Qltb _ _); apply tangent_orthogonal. }
  assert (HYY : dot Y Y == 1).
  { subst Y. apply glm_normalize_unit; [| exact Hss].
    apply tangent_not_zero, Hn. }
  clearbody Y. clear Hss. subst tangent.
  change (draws g (cursor g)) with z.
  change (2 * PI * draws g (S (cursor g))) with phi.
  clearbody z phi.
  set (r := sqrt (1 - z * z)) in *.
  set (c := cos phi) in *. set (s := sin phi) in *.
  destruct Y as [Yx Yy Yz], n as [nx ny nz].
  unfold dot, cross, vadd, vscale, vzip, vmap in *. cbn [vx vy vz] in *.
  match goal with
  | |- ?L == 1 =>
      assert (E : L
                  == (r * r) * (c * c)
                     * ((Yx * Yx + Yy * Yy + Yz * Yz)
                        * (nx * nx + ny * ny + nz * nz)
                        - (Yx * nx + Yy * ny + Yz * nz)
                          * (Yx * nx + Yy * ny + Yz * nz))
                     + (r * r) * (s * s) * (Yx * Yx + Yy * Yy + Yz * Yz)
                     + z * z * (nx * nx + ny * ny + nz * nz)
                     + 2 * (r * s) * z * (Yx * nx + Yy * ny + Yz * nz))
        by ring
  end.
  rewrite E, HYY, HYn, Hn.
  assert (E2 : r * r * (c * c) * (1 * 1 - 0 * 0) + r * r * (s * s) * 1
               + z * z * 1 + 2 * (r * s) * z * 0
               == (r * r) * (c * c + s * s) + z * z) by ring.
  rewrite E2, Hcs, Hr. ring.
Qed.

(** X20 ([WhittedMaterial::Sampling]).  About a unit normal, the sampled
    direction makes with the normal the cosine the first draw gives,
    whatever the square root, cosine and sine are, and exactly two draws
    are taken; with a square root that is exact where the code takes it
    and a cosine and a sine whose squares add up to 1 at the sampled
    angle, the sampled direction is a unit vector. *)
Theorem Material_Sampling_hemisphere (sqrt cos sin : Q -> Q)
    (m : WhittedMaterial) (W_out n : vec3) (g : RandomSource) :
  dot n n == 1 ->
  let z := draws g (cursor g) in
  let phi := 2 * PI * draws g (S (cursor g)) in
  let tangent :=
    if Qltb (Qabs (vy n)) (Qabs (vx n))
    then mkvec3 (vz n) 0 (- vx n)
    else mkvec3 0 (vz n) (- vy n) in
  let sampled := fst (Material_Sampling sqrt cos sin m W_out n g) in
  dot sampled n == z
  /\ cursor (snd (Material_Sampling sqrt cos sin m W_out n g))
     = S (S (cursor g))
  /\ draws (snd (Material_Sampling sqrt cos sin m W_out n g)) = draws g
  /\ (sqrt (1 - z * z) * sqrt (1 - z * z) == 1 - z * z ->
      cos phi * cos phi + sin phi * sin phi == 1 ->
      sqrt (dot tangent tangent) * sqrt (dot tangent tangent)
      == dot tangent tangent ->
      dot sampled sampled == 1).
Proof.
  intros Hn z phi tangent sampled.
  destruct (Material_Sampling_cosine sqrt cos sin m W_out n g Hn)
    as (Hc & Hcur & Hdraws).
  split; [exact Hc |]. split; [exact Hcur |]. split; [exact Hdraws |].
  intros Hr Hcs Hss.
  exact (Material_Sampling_unit sqrt cos sin m W_out n g Hn Hr Hcs Hss).
Qed.

Lemma Material_Sampling_hemisphere_witness :
  dot (fst (Material_Sampling sqrt_floor (fun _ => 1) (fun _ => 0)
              white_material (mkvec3 0 0 1) (mkvec3 0 0 1) shadow_draws))
      (mkvec3 0 0 1)
  == 1
  /\ dot (fst (Material_Sampling sqrt_floor (fun _ => 1) (fun _ => 0)
                 white_material (mkvec3 0 0 1) (mkvec3 0 0 1) shadow_draws))
         (fst (Material_Sampling sqrt_floor (fun _ => 1) (fun _ => 0)
                 white_material (mkvec3 0 0 1) (mkvec3 0 0 1) shadow_draws))
     == 1.
Proof.
  assert (Hn : dot (mkvec3 0 0 1) (mkvec3 0 0 1) == 1)
    by (vm_compute; reflexivity).
  destruct (Material_Sampling_hemisphere sqrt_floor (fun _ => 1) (fun _ => 0)
              white_material (mkvec3 0 0 1) (mkvec3 0 0 1) shadow_draws Hn)
    as (Hc & _ & _ & Hu).
  split; [exact Hc |].
  apply Hu; vm_compute; reflexivity.
Defined.

(* ================================================================= *)
(** ** Reflection and refraction *)

(** X21 ([mirror_reflection_direction]).  About a unit normal, reflection
    keeps the length of the incident direction, reverses its component
    along the normal, and reflecting twice gives the incident direction
    back. *)
Theorem mirror_reflection_involution (incident normal : vec3) :
  dot normal normal == 1 ->
  dot (mirror_reflection_direction incident normal)
      (mirror_reflection_direction incident normal)
  == dot incident incident
  /\ dot (mirror_reflection_direction incident normal) normal
     == - dot incident normal
  /\ veq (mirror_reflection_direction
            (mirror_reflection_direction incident normal) normal)
         incident.
Proof.
  destruct incident as [ix iy iz], normal as [nx ny nz].
  unfold mirror_reflection_direction, veq, dot, vsub, vscale, vzip, vmap.
  cbn [vx vy vz]. intros Hn.
  set (k := ix * nx + iy * ny + iz * nz).
  split; [| split; [| split; [| split]]].
  - match goal with
    | |- ?L == ?R =>
        assert (E : L == R + 4 * k * k * (nx * nx + ny * ny + nz * nz - 1))
          by (unfold k; ring)
    end.
    rewrite E, Hn. ring.
  - match goal with
    | |- ?L == ?R =>
        assert (E : L == R - 2 * k * (nx * nx + ny * ny + nz * nz - 1))
          by (unfold k; ring)
    end.
    rewrite E, Hn. ring.
  - match goal with
    | |- ?L == ?R =>
        assert (E : L == R + 4 * k * nx * (nx * nx + ny * ny + nz * nz - 1))
          by (unfold k; ring)
    end.
    rewrite E, Hn. ring.
  - match goal with
    | |- ?L == ?R =>
        assert (E : L == R + 4 * k * ny * (nx * nx + ny * ny + nz * nz - 1))
          by (unfold k; ring)
    end.
    rewrite E, Hn. ring.
  - match goal with
    | |- ?L == ?R =>
        assert (E : L == R + 4 * k * nz * (nx * nx + ny * ny + nz * nz - 1))
          by (unfold k; ring)
    end.
    rewrite E, Hn. ring.
Qed.

Lemma mirror_reflection_involution_witness :
  veq (mirror_reflection_direction
         (mirror_reflection_direction (mkvec3 1 2 (-3)) (mkvec3 0 0 1))
         (mkvec3 0 0 1))
      (mkvec3 1 2 (-3)).
Proof.
  apply (mirror_reflection_involution (mkvec3 1 2 (-3)) (mkvec3 0 0 1)).
  vm_compute. reflexivity.
Defined.

Lemma dot_lincomb_self (a b : Q) (u v : vec3) :
  dot (vadd (vscale a u) (vscale b v)) (vadd (vscale a u) (vscale b v))
  == a * a * dot u u + 2 * a * b * dot u v + b * b * dot v v.
Proof. unfold dot, vadd, vscale, vzip, vmap. cbn [vx vy vz]. ring. Qed.

Lemma dot_lincomb_l (a b : Q) (u v w : vec3) :
  dot (vadd (vscale a u) (vscale b v)) w == a * dot u w + b * dot v w.
Proof. unfold dot, vadd, vscale, vzip, vmap. cbn [vx vy vz]. ring. Qed.

Lemma dot_vneg_r (u v : vec3) : dot u (vneg v) == - dot u v.
Proof. unfold dot, vneg, vmap. cbn [vx vy vz]. ring. Qed.

Lemma dot_vneg_vneg (u : vec3) : dot (vneg u) (vneg u) == dot u u.
Proof. unfold dot, vneg, vmap. cbn [vx vy vz]. ring. Qed.

Lemma dot_vneg_l (u v : vec3) : dot (vneg u) v == - dot u v.
Proof. unfold dot, vneg, vmap. cbn [vx vy vz]. ring. Qed.

(** Cauchy-Schwarz for unit vectors. *)
Lemma unit_dot_bound (u v : vec3) :
  dot u u == 1 -> dot v v == 1 -> -1 <= dot u v /\ dot u v <= 1.
Proof.
  intros Hu Hv.
  assert (L : dot u u * dot v v - dot u v * dot u v
              == dot (cross u v) (cross u v))
    by (unfold dot, cross; cbn [vx vy vz]; ring).
  assert (P : 0 <= dot (cross u v) (cross u v)).
  { unfold dot.
    pose proof (square_nonneg (vx (cross u v))).
    pose proof (square_nonneg (vy (cross u v))).
    pose proof (square_nonneg (vz (cross u v))). lra. }
  rewrite Hu, Hv in L.
  assert (Hsq : dot u v * dot u v <= 1 * 1) by lra.
  destruct (square_bound (dot u v) 1 Hsq); [lra |]. lra.
Qed.

Lemma refraction_setting_unit (incident normal : vec3) (index : Q) :
  dot incident incident == 1 ->
  dot normal normal == 1 ->
  refraction_setting incident normal index
  = if Qltb (dot incident normal) 0
    then (- dot incident normal, eta_Vacuum, index, normal)
    else (dot incident normal, index, eta_Vacuum, vneg normal).
Proof.
  intros Hi Hn. unfold refraction_setting.
  destruct (unit_dot_bound incident normal Hi Hn) as [Hlo Hhi].
  now rewrite (proj1 (proj2 (clamp_float_bounds_aux _ _ _)) Hlo Hhi).
Qed.

(** X22 ([snell_refraction_direction]).  For unit incident direction and
    unit normal and a positive index: under total internal reflection (a
    negative squared cosine) the result is the zero vector; otherwise,
    with a square root that is exact on the squared cosine, the result is
    a unit vector whose squared cosine with the normal is the one Snell's
    law gives, and it continues on the side of the surface the incident
    ray was heading to. *)
Theorem snell_refraction_unit (sqrt : Q -> Q) (incident normal : vec3)
    (index : Q) :
  dot incident incident == 1 ->
  dot normal normal == 1 ->
  0 < index ->
  let c2 := cos_refract_squared_of incident normal index in
  let refracted := snell_refraction_direction sqrt incident normal index in
  (c2 < 0 -> refracted = vzero)
  /\ (0 <= c2 ->
      0 <= sqrt c2 ->
      sqrt c2 * sqrt c2 == c2 ->
      dot refracted refracted == 1
      /\ dot refracted normal * dot refracted normal == c2
      /\ (dot incident normal < 0 -> dot refracted normal <= 0)
      /\ (0 <= dot incident normal -> 0 <= dot refracted normal)).
Proof.
  intros Hi Hn Hidx c2 refracted.
  subst c2 refracted.
  unfold cos_refract_squared_of, snell_refraction_direction.
  rewrite (refraction_setting_unit incident normal index Hi Hn).
  assert (Hidx0 : ~ index == 0) by lra.
  set (k := dot incident normal) in *.
  destruct (Qltb k 0) eqn:Ek; q_props.
  - set (eta := eta_Vacuum / index).
    set (c2 := 1 - eta * eta * (1 - - k * - k)).
    split.
    + intros Hc. apply Qltb_lt in Hc. now rewrite Hc.
    + intros Hc Hs0 Hss.
      assert (Ec : Qltb c2 0 = false) by (apply Qltb_ge; exact Hc).
      rewrite Ec. set (s := sqrt c2) in *.
      assert (D1 : dot (vadd (vscale eta incident)
                             (vscale (eta * - k - s) normal)) normal
                   == - s).
      { rewrite dot_lincomb_l. fold k. rewrite Hn. ring. }
      split; [| split; [| split]].
      * rewrite dot_lincomb_self. fold k. rewrite Hi, Hn.
        assert (E : eta * eta * 1 + 2 * eta * (eta * - k - s) * k
                    + (eta * - k - s) * (eta * - k - s) * 1
                    == s * s + (1 - c2)) by (unfold c2; ring).
        rewrite E, Hss. ring.
      * rewrite D1. rewrite <- Hss. ring.
      * intros _. rewrite D1. lra.
      * intros Hk. exfalso. lra.
  - set (eta := index / eta_Vacuum).
    set (c2 := 1 - eta * eta * (1 - k * k)).
    split.
    + intros Hc. apply Qltb_lt in Hc. now rewrite Hc.
    + intros Hc Hs0 Hss.
      assert (Ec : Qltb c2 0 = false) by (apply Qltb_ge; exact Hc).
      rewrite Ec. set (s := sqrt c2) in *.
      assert (D1 : dot (vadd (vscale eta incident)
                             (vscale (eta * k - s) (vneg normal))) normal
                   == s).
      { rewrite dot_lincomb_l, dot_vneg_l. fold k. rewrite Hn. ring. }
      split; [| split; [| split]].
      * rewrite dot_lincomb_self, dot_vneg_r, dot_vneg_vneg. fold k.
        rewrite Hi, Hn.
        assert (E : eta * eta * 1 + 2 * eta * (eta * k - s) * - k
                    + (eta * k - s) * (eta * k - s) * 1
                    == s * s + (1 - c2)) by (unfold c2; ring).
        rewrite E, Hss. ring.
      * rewrite D1. exact Hss.
      * intros Hk. exfalso. lra.
      * intros _. rewrite D1. exact Hs0.
Qed.

Lemma snell_refraction_unit_witness :
  dot (snell_refraction_direction sqrt_floor (mkvec3 0 0 (-1)) (mkvec3 0 0 1)
         (3 # 2))
      (snell_refraction_direction sqrt_floor (mkvec3 0 0 (-1)) (mkvec3 0 0 1)
         (3 # 2))
  == 1.
Proof.
  refine (proj1 (proj2
    (snell_refraction_unit sqrt_floor (mkvec3 0 0 (-1)) (mkvec3 0 0 1)
       (3 # 2) _ _ _) _ _ _));
    vm_compute; first [reflexivity | discriminate].
Defined.

Lemma ratio_square_bound (a b : Q) :
  0 <= a -> 0 <= b -> 0 < a + b ->
  0 <= (a - b) / (a + b) * ((a - b) / (a + b))
  /\ (a - b) / (a + b) * ((a - b) / (a + b)) <= 1.
Proof.
  intros Ha Hb Hab.
  set (r := (a - b) / (a + b)).
  assert (Er : r * (a + b) == a - b) by (unfold r; field; lra).
  assert (Hlo : -1 <= r).
  { destruct (Qlt_le_dec r (-1)) as [Hlt |]; [| assumption]. exfalso.
    assert (H : r * (a + b) < -1 * (a + b))
      by (apply Qmult_lt_compat_r; assumption).
    lra. }
  assert (Hhi : r <= 1).
  { destruct (Qlt_le_dec 1 r) as [Hlt |]; [| assumption]. exfalso.
    assert (H : 1 * (a + b) < r * (a + b))
      by (apply Qmult_lt_compat_r; assumption).
    lra. }
  split; [apply square_nonneg |]. nra.
Qed.

Lemma sqrt_floor_nonneg (x : Q) : 0 <= sqrt_floor x.
Proof.
  unfold sqrt_floor, Qle. cbn [Qnum Qden].
  pose proof (Z.sqrt_nonneg (Qnum x * Z.pos (Qden x))). lia.
Qed.

(** X23 ([accurate_fresnel_reflectance]).  With a positive index, an
    incident direction that is not orthogonal to the normal and a square
    root that is never negative, the reflectance lies between 0 and 1. *)
Theorem fresnel_reflectance_between_0_and_1 (sqrt : Q -> Q)
    (incident normal : vec3) (index : Q) :
  (forall x, 0 <= sqrt x) ->
  0 < index ->
  ~ dot incident normal == 0 ->
  0 <= accurate_fresnel_reflectance sqrt incident normal index
  /\ accurate_fresnel_reflectance sqrt incident normal index <= 1.
Proof.
  intros Hsqrt Hidx Hk.
  unfold accurate_fresnel_reflectance, refraction_setting.
  set (k := dot incident normal) in *.
  assert (Hc : -1 <= clamp_float k (-1) 1 /\ clamp_float k (-1) 1 <= 1)
    by (apply clamp_float_bounds_aux; lra).
  assert (Hc0 : ~ clamp_float k (-1) 1 == 0).
  { unfold clamp_float, Qstd_max, Qstd_min.
    destruct (Qltb 1 k) eqn:E1;
      match goal with
      | |- context [Qltb ?a ?b] => destruct (Qltb a b) eqn:E2
      end; q_props; lra. }
  set (c := clamp_float k (-1) 1) in *.
  assert (Hfinal : forall cos_i eta_in eta_out,
             0 < cos_i -> 0 < eta_in -> 0 < eta_out ->
             let sin_refract :=
               eta_in / eta_out * sqrt (Qstd_max 0 (1 - cos_i * cos_i)) in
             0 <= (if Qltb 1 sin_refract
                   then 1
                   else
                     let cos_refract :=
                       sqrt (Qstd_max 0 (1 - sin_refract * sin_refract)) in
                     let R_s_sqrt :=
                       (eta_in * cos_i - eta_out * cos_refract)
                       / (eta_in * cos_i + eta_out * cos_refract) in
                     let R_p_sqrt :=
                       (eta_in * cos_refract - eta_out * cos_i)
                       / (eta_in * cos_refract + eta_out * cos_i) in
                     (R_s_sqrt * R_s_sqrt + R_p_sqrt * R_p_sqrt) / 2)
             /\ (if Qltb 1 sin_refract
                 then 1
                 else
                   let cos_refract :=
                     sqrt (Qstd_max 0 (1 - sin_refract * sin_refract)) in
                   let R_s_sqrt :=
                     (eta_in * cos_i - eta_out * cos_refract)
                     / (eta_in * cos_i + eta_out * cos_refract) in
                   let R_p_sqrt :=
                     (eta_in * cos_refract - eta_out * cos_i)
                     / (eta_in * cos_refract + eta_out * cos_i) in
                   (R_s_sqrt * R_s_sqrt + R_p_sqrt * R_p_sqrt) / 2)
                <= 1).
  { intros cos_i eta_in eta_out Hcos Hin Hout sin_refract.
    destruct (Qltb 1 sin_refract); [split; lra |].
    cbv zeta.
    set (cos_refract := sqrt _).
    assert (Hcr : 0 <= cos_refract) by apply Hsqrt.
    assert (A1 : 0 < eta_in * cos_i) by (apply Qmult_lt_0_compat; assumption).
    assert (A2 : 0 <= eta_out * cos_refract)
      by (apply Qmult_le_0_compat; lra).
    assert (A3 : 0 <= eta_in * cos_refract)
      by (apply Qmult_le_0_compat; lra).
    assert (A4 : 0 < eta_out * cos_i)
      by (apply Qmult_lt_0_compat; assumption).
    destruct (ratio_square_bound (eta_in * cos_i) (eta_out * cos_refract))
      as [S0 S1]; [lra | lra | lra |].
    destruct (ratio_square_bound (eta_in * cos_refract) (eta_out * cos_i))
      as [P0 P1]; [lra | lra | lra |].
    set (Rs := _ / _ * (_ / _)) in S0, S1 |- *.
    set (Rp := _ / _ * (_ / _)) in P0, P1 |- *.
    split.
    - apply Qle_shift_div_l; lra.
    - apply Qle_shift_div_r; lra. }
  destruct (Qltb c 0) eqn:Ec; q_props.
  - apply (Hfinal (- c) eta_Vacuum index); [lra | reflexivity | exact Hidx].
  - apply (Hfinal c index eta_Vacuum); [lra | exact Hidx | reflexivity].
Qed.

Lemma fresnel_reflectance_between_0_and_1_witness :
  0 <= accurate_fresnel_reflectance sqrt_floor (mkvec3 0 0 (-1))
         (mkvec3 0 0 1) (3 # 2)
  /\ accurate_fresnel_reflectance sqrt_floor (mkvec3 0 0 (-1))
       (mkvec3 0 0 1) (3 # 2) <= 1.
Proof.
  apply (fresnel_reflectance_between_0_and_1 sqrt_floor (mkvec3 0 0 (-1))
           (mkvec3 0 0 1) (3 # 2) sqrt_floor_nonneg).
  - reflexivity.
  - intros H. vm_compute in H. discriminate H.
Defined.

(* ================================================================= *)
(** ** Packing a colour into a pixel *)

Lemma lor_disjoint (hi lo k : Z) :
  (0 <= k -> 0 <= lo < 2 ^ k ->
   Z.lor (hi * 2 ^ k) lo = hi * 2 ^ k + lo)%Z.
Proof.
  intros Hk Hlo.
  assert (Hland : Z.land (hi * 2 ^ k) lo = 0%Z).
  { apply Z.bits_inj'. intros n Hn.
    rewrite Z.land_spec, Z.bits_0.
    destruct (Z.lt_ge_cases n k) as [Hlt | Hge].
    - now rewrite Z.mul_pow2_bits_low.
    - rewrite <- (Z.mod_small lo (2 ^ k)) by assumption.
      rewrite Z.mod_pow2_bits_high by lia. apply andb_false_r. }
  pose proof (Z.add_lor_land (hi * 2 ^ k) lo) as H. rewrite Hland in H. lia.
Qed.

Lemma pack_bytes (a b g r : Z) :
  (0 <= a < 256 -> 0 <= b < 256 -> 0 <= g < 256 -> 0 <= r < 256 ->
   Z.lor (Z.lor (Z.lor (Z.shiftl a 24) (Z.shiftl b 16)) (Z.shiftl g 8)) r
   = a * 16777216 + b * 65536 + g * 256 + r)%Z.
Proof.
  intros Ha Hb Hg Hr.
  rewrite !Z.shiftl_mul_pow2 by lia.
  rewrite (lor_disjoint a (b * 2 ^ 16) 24) by lia.
  replace (a * 2 ^ 24 + b * 2 ^ 16)%Z with ((a * 256 + b) * 2 ^ 16)%Z by lia.
  rewrite (lor_disjoint (a * 256 + b) (g * 2 ^ 8) 16) by lia.
  replace ((a * 256 + b) * 2 ^ 16 + g * 2 ^ 8)%Z
    with ((a * 65536 + b * 256 + g) * 2 ^ 8)%Z by lia.
  rewrite (lor_disjoint (a * 65536 + b * 256 + g) r 8) by lia.
  lia.
Qed.

Lemma to_uint8_range (q : Q) : (0 <= to_uint8 q < 256)%Z.
Proof. unfold to_uint8. apply Z.mod_pos_bound. lia. Qed.

Lemma to_uint8_in_range (q : Q) :
  0 <= q -> q <= 1 ->
  to_uint8 (q * 255) = to_int (q * 255)
  /\ (0 <= to_int (q * 255) <= 255)%Z.
Proof.
  intros H0 H1. unfold to_uint8, to_int.
  destruct q as [n d]. unfold Qle in *. cbn [Qnum Qden Qmult] in *.
  assert (Hn : (0 <= n)%Z) by lia.
  assert (Hd : (n <= Z.pos d)%Z) by lia.
  rewrite Z.quot_div_nonneg by lia.
  assert (Hq : (0 <= n * 255 / Z.pos (d * 1) <= 255)%Z).
  { split; [apply Z.div_pos; lia |].
    apply Z.div_le_upper_bound; lia. }
  split; [apply Z.mod_small; lia | exact Hq].
Qed.

(** X24 ([RTUtility::vecRGBA_to_0xABGR]).  The packed pixel fits in 32
    bits and each channel can be read back from its own byte: red from
    bits 0 to 7, green from 8 to 15, blue from 16 to 23, alpha from 24 to
    31; and a channel between 0 and 1 is stored as [255] times its value,
    rounded down, with no wrap. *)
Theorem vecRGBA_to_0xABGR_bytes (colorRGBA : vec4) :
  let pixel := vecRGBA_to_0xABGR colorRGBA in
  (0 <= pixel < 2 ^ 32)%Z
  /\ Z.land pixel 255 = to_uint8 (x4 colorRGBA * 255)
  /\ Z.land (Z.shiftr pixel 8) 255 = to_uint8 (y4 colorRGBA * 255)
  /\ Z.land (Z.shiftr pixel 16) 255 = to_uint8 (z4 colorRGBA * 255)
  /\ Z.shiftr pixel 24 = to_uint8 (w4 colorRGBA * 255)
  /\ forall q : Q,
       0 <= q -> q <= 1 ->
       to_uint8 (q * 255) = to_int (q * 255)
       /\ (0 <= to_int (q * 255) <= 255)%Z.
Proof.
  intros pixel. subst pixel. unfold vecRGBA_to_0xABGR.
  pose proof (to_uint8_range (x4 colorRGBA * 255)) as Hr.
  pose proof (to_uint8_range (y4 colorRGBA * 255)) as Hg.
  pose proof (to_uint8_range (z4 colorRGBA * 255)) as Hb.
  pose proof (to_uint8_range (w4 colorRGBA * 255)) as Ha.
  rewrite pack_bytes by assumption.
  set (r := to_uint8 (x4 colorRGBA * 255)) in *.
  set (g := to_uint8 (y4 colorRGBA * 255)) in *.
  set (b := to_uint8 (z4 colorRGBA * 255)) in *.
  set (a := to_uint8 (w4 colorRGBA * 255)) in *.
  change 255%Z with (Z.ones 8).
  rewrite !Z.land_ones, !Z.shiftr_div_pow2 by lia.
  change (2 ^ 8)%Z with 256%Z. change (2 ^ 16)%Z with 65536%Z.
  change (2 ^ 24)%Z with 16777216%Z. change (2 ^ 32)%Z with 4294967296%Z.
  split; [lia |].
  split; [Z.to_euclidean_division_equations; lia |].
  split; [Z.to_euclidean_division_equations; lia |].
  split; [Z.to_euclidean_division_equations; lia |].
  split; [Z.to_euclidean_division_equations; lia |].
  intros q. change (Z.ones 8) with 255%Z. apply to_uint8_in_range.
Qed.

(* ================================================================= *)
(** ** Frame buffers *)

Lemma vector_assign_length {T : Type} (n : nat) (x : T) (v : list T) :
  length (vector_assign n x v) = length v.
Proof.
  revert n. induction v as [| a v IH]; intros [| n]; simpl; auto.
Qed.

Lemma vector_assign_nth_same {T : Type} (n : nat) (x d : T) (v : list T) :
  (n < length v)%nat -> nth n (vector_assign n x v) d = x.
Proof.
  revert n. induction v as [| a v IH]; intros [| n]; simpl; intros Hn;
    try lia; auto. apply IH. lia.
Qed.

Lemma vector_assign_nth_other {T : Type} (n m : nat) (x d : T) (v : list T) :
  n <> m -> nth m (vector_assign n x v) d = nth m v d.
Proof.
  revert n m. induction v as [| a v IH]; intros [| n] [| m]; simpl;
    intros Hnm; try congruence; auto.
Qed.

Lemma vector_resize_length {T : Type} (n : nat) (v : list T) (d : T) :
  length (vector_resize n v d) = n.
Proof.
  unfold vector_resize. rewrite length_app, length_firstn, repeat_length. lia.
Qed.

Lemma pixel_index_bound (w h c r : Z) :
  in_frame w h c r -> (0 <= r * w + c < w * h)%Z.
Proof. unfold in_frame. intros [Hc Hr]. nia. Qed.

Lemma pixel_index_injective (w c r c' r' : Z) :
  (0 <= c < w -> 0 <= c' < w -> r * w + c = r' * w + c' ->
   c = c' /\ r = r')%Z.
Proof.
  intros Hc Hc' He.
  destruct (Z.lt_trichotomy r r') as [H | [H | H]].
  - exfalso. assert (w <= (r' - r) * w)%Z by nia. lia.
  - subst r'. lia.
  - exfalso. assert (w <= (r - r') * w)%Z by nia. lia.
Qed.

Lemma int_wrap_id (z : Z) :
  (INT_MIN <= z <= INT_MAX)%Z -> int_wrap z = z.
Proof.
  unfold int_wrap, INT_MIN, INT_MAX.
  change (2 ^ 31)%Z with 2147483648%Z. change (2 ^ 32)%Z with 4294967296%Z.
  intros Hz. rewrite Z.mod_small; lia.
Qed.

(** The index of a pixel of the frame is computed without overflow when the
    number of pixels fits an [int]. *)
Lemma pixel_index_int (w h c r : Z) :
  in_frame w h c r ->
  (w * h <= INT_MAX)%Z ->
  int_add (int_mul r w) c = (r * w + c)%Z.
Proof.
  intros Hin Hmax. pose proof (pixel_index_bound _ _ _ _ Hin) as Hb.
  destruct Hin as [Hc Hr]. unfold int_add, int_mul.
  assert (Hrw : (0 <= r * w <= r * w + c)%Z) by nia.
  rewrite (int_wrap_id (r * w)) by (unfold INT_MIN; lia).
  apply int_wrap_id. unfold INT_MIN; lia.
Qed.

(** X25 ([FrameBuffer::operator()], [FrameBuffer::Reset]).  For a frame of
    [width] by [height] whose number of pixels fits an [int]: the reset
    succeeds and leaves a buffer with one cell for each pixel of the
    frame; a value written at a pixel of the frame is the value read
    there; and the write leaves every other pixel of the frame as it was:
    no two pixels of the frame share a cell. *)
Theorem FrameBuffer_write_read {T : Type} (f0 : FB.FrameBuffer T)
    (width height : Z) (d x : T) (column row column' row' : Z) :
  in_frame width height column row ->
  in_frame width height column' row' ->
  (width * height <= INT_MAX)%Z ->
  exists f : FB.FrameBuffer T,
    FrameBuffer_Reset f0 width height d = Some f
    /\ length (FB.buffer f) = Z.to_nat (width * height)
    /\ FB.at_ d (FrameBuffer_assign f column row x) column row = x
    /\ ((column', row') <> (column, row) ->
        FB.at_ d (FrameBuffer_assign f column row x) column' row'
        = FB.at_ d f column' row').
Proof.
  intros Hin Hin' Hmax.
  pose proof (pixel_index_bound _ _ _ _ Hin) as Hb.
  pose proof (pixel_index_bound _ _ _ _ Hin') as Hb'.
  pose proof (pixel_index_int _ _ _ _ Hin Hmax) as Hi.
  pose proof (pixel_index_int _ _ _ _ Hin' Hmax) as Hi'.
  assert (Hsize : int_mul width height = (width * height)%Z).
  { apply int_wrap_id. unfold INT_MIN; lia. }
  unfold FrameBuffer_Reset. rewrite Hsize.
  assert (Hpos : (width * height <? 0)%Z = false) by (apply Z.ltb_ge; lia).
  rewrite Hpos. eexists. split; [reflexivity |].
  set (buffer := vector_resize (Z.to_nat (width * height)) (FB.buffer f0) d).
  assert (Hlen : length buffer = Z.to_nat (width * height))
    by apply vector_resize_length.
  split; [exact Hlen |].
  assert (Hneg : (row * width + column <? 0)%Z = false)
    by (apply Z.ltb_ge; lia).
  assert (Hneg' : (row' * width + column' <? 0)%Z = false)
    by (apply Z.ltb_ge; lia).
  unfold FB.at_, FrameBuffer_assign. cbn [FB.frame_width FB.buffer].
  rewrite Hi, Hi', Hneg, Hneg'.
  split.
  - apply vector_assign_nth_same. rewrite Hlen. lia.
  - intros Hne. apply vector_assign_nth_other. intros He.
    apply Z2Nat.inj in He; try lia.
    destruct Hin as [Hc _], Hin' as [Hc' _].
    destruct (pixel_index_injective width column row column' row' Hc Hc' He).
    apply Hne. congruence.
Qed.

Lemma FrameBuffer_write_read_witness :
  exists f : FB.FrameBuffer Z,
    FrameBuffer_Reset (FB.mk 0 0 []) 3 2 0%Z = Some f
    /\ FB.at_ 0%Z (FrameBuffer_assign f 2 1 7%Z) 2 1 = 7%Z.
Proof.
  destruct (FrameBuffer_write_read (FB.mk 0 0 []) 3 2 0%Z 7%Z 2 1 0 0)
    as (f & Hf & _ & Hw & _);
    [unfold in_frame; lia | unfold in_frame; lia | unfold INT_MAX; lia |].
  exists f. split; assumption.
Defined.

(* ================================================================= *)
(** ** The temporal filter: what it reads *)










(* ================================================================= *)
(** ** Triangle meshes *)

Lemma list_ind3 {A : Type} (P : list A -> Prop) :
  P [] ->
  (forall a, P [a]) ->
  (forall a b, P [a; b]) ->
  (forall a b c l, P l -> P (a :: b :: c :: l)) ->
  forall l, P l.
Proof.
  intros H0 H1 H2 H3.
  refine (fix F (l : list A) : P l :=
            match l with
            | [] => H0
            | [a] => H1 a
            | [a; b] => H2 a b
            | a :: b :: c :: l' => H3 a b c l' (F l')
            end).
Qed.

Lemma range_within_refl (r : evec3 * evec3) : range_within r r.
Proof. intros ax. split; apply ext_leb_refl. Qed.

Lemma range_within_trans (a b c : evec3 * evec3) :
  range_within a b -> range_within b c -> range_within a c.
Proof.
  intros Hab Hbc ax. destruct (Hab ax), (Hbc ax).
  split; eauto using ext_leb_trans.
Qed.

Lemma range_holds_within (a b : evec3 * evec3) (v : vec3) :
  range_holds a v -> range_within a b -> range_holds b v.
Proof.
  intros Ha Hab ax. destruct (Ha ax), (Hab ax).
  split; eauto using ext_leb_trans.
Qed.

Lemma extend_range_within (r : evec3 * evec3) (v : vec3) :
  range_within r (extend_range r v).
Proof.
  intros ax. destruct r as [lo hi].
  destruct ax; cbn [extend_range fst snd axis_component vzip vx vy vz fin3 vmap];
    split; first [apply (glm_min_le_l _ _) | apply (glm_max_ge_l _ _)].
Qed.

Lemma extend_range_holds (r : evec3 * evec3) (v : vec3) :
  range_holds (extend_range r v) v.
Proof.
  intros ax. destruct r as [lo hi].
  destruct ax; cbn [extend_range fst snd axis_component vzip vx vy vz fin3 vmap];
    split; first [apply (glm_min_le_r _ _) | apply (glm_max_ge_r _ _)].
Qed.

Section MeshFacts.

Variable sqrt : Q -> Q.

(** What the first loop of the constructor leaves, when it ends. *)
Lemma mesh_triangles_some (vertices : list vec3) :
  forall (i : Z) (address : nat) (id_count : Z) (m : option WhittedMaterial)
         (range : evec3 * evec3) triangles id_count' range',
    mesh_triangles sqrt i address id_count m range vertices
    = Some (triangles, id_count', range') ->
    range_within range range'
    /\ (forall k tr,
           nth_error triangles k = Some tr ->
           triangle_this tr = (address + k)%nat
           /\ material tr = m
           /\ range_holds range' (vertice_a tr)
           /\ range_holds range' (vertice_b tr)
           /\ range_holds range' (vertice_c tr)).
Proof.
  assert (Hstop : forall (id_count : Z) (range : evec3 * evec3)
                         triangles id_count' range',
             Some (@nil TrianglePrimitive, id_count, range)
             = Some (triangles, id_count', range') ->
             range_within range range'
             /\ (forall k tr,
                    nth_error triangles k = Some tr ->
                    forall address m,
                    triangle_this tr = (address + k)%nat
                    /\ material tr = m
                    /\ range_holds range' (vertice_a tr)
                    /\ range_holds range' (vertice_b tr)
                    /\ range_holds range' (vertice_c tr))).
  { intros id_count range triangles id_count' range' Hm.
    inversion Hm; subst. split; [apply range_within_refl |].
    intros [| k] tr Hk; discriminate. }
  induction vertices as [| a | a b | p0 p1 p2 rest IH] using list_ind3;
    intros i address id_count m range triangles id_count' range' Hm;
    cbn [mesh_triangles] in Hm;
    destruct (i <? 0)%Z;
    try discriminate;
    try (destruct (Hstop _ _ _ _ _ Hm) as [Hw Hn];
         split; [exact Hw | intros k tr Hk; exact (Hn k tr Hk address m)]).
  destruct (int_add i 2 <? 0)%Z; [discriminate |].
  cbv zeta in Hm.
  set (v0 := vscale mesh_scale p0) in *.
  set (v1 := vscale mesh_scale p1) in *.
  set (v2 := vscale mesh_scale p2) in *.
  set (r0 := extend_range range v0) in *.
  set (r1 := extend_range r0 v1) in *.
  set (r2 := extend_range r1 v2) in *.
  destruct (mesh_triangles sqrt (int_add i 3) (S address)
              (int_add id_count 1) m r2 rest)
    as [[[trs id''] rg] |] eqn:Hrec; [| discriminate].
  inversion Hm; subst. clear Hm.
  destruct (IH _ _ _ _ _ _ _ _ Hrec) as (Hwithin & Hnth).
  assert (W0 : range_within r0 range').
  { eapply range_within_trans; [apply extend_range_within |].
    eapply range_within_trans; [apply extend_range_within |].
    exact Hwithin. }
  assert (W1 : range_within r1 range').
  { eapply range_within_trans; [apply extend_range_within |].
    exact Hwithin. }
  split.
  { eapply range_within_trans; [apply extend_range_within | exact W0]. }
  intros [| k] tr Hk; cbn [nth_error] in Hk.
  + inversion Hk; subst.
    cbn [triangle_this material vertice_a vertice_b vertice_c
         TrianglePrimitive_ctor].
    split; [lia |]. split; [reflexivity |].
    split; [| split].
    * eapply range_holds_within; [apply extend_range_holds | exact W0].
    * eapply range_holds_within; [apply extend_range_holds | exact W1].
    * eapply range_holds_within; [apply extend_range_holds | exact Hwithin].
  + destruct (Hnth k tr Hk) as (H1 & H2 & H3).
    split; [lia |]. split; assumption.
Qed.

(** An index that is not negative, with two more that fit an [int]. *)
Lemma loop_index_fits (i : Z) :
  (0 <= i)%Z -> (i + 3 <= INT_MAX)%Z ->
  (i <? 0)%Z = false /\ (int_add i 2 <? 0)%Z = false
  /\ int_add i 3 = (i + 3)%Z.
Proof.
  intros H0 Hmax. unfold int_add.
  rewrite !int_wrap_id by (unfold INT_MIN; lia).
  repeat split; try apply Z.ltb_ge; lia.
Qed.

(** With vertices that come in threes and are few enough for the index to
    stay an [int], the loop ends with one triangle for every three
    vertices; and with a counter that stays an [int], the triangles take
    consecutive ids from it. *)
Lemma mesh_triangles_in_range (vertices : list vec3) :
  forall (i : Z) (address : nat) (id_count : Z) (m : option WhittedMaterial)
         (range : evec3 * evec3),
    (length vertices mod 3 = 0)%nat ->
    (0 <= i)%Z ->
    (i + Z.of_nat (length vertices) <= INT_MAX)%Z ->
    exists triangles id_count' range',
      mesh_triangles sqrt i address id_count m range vertices
      = Some (triangles, id_count', range')
      /\ length vertices = (3 * length triangles)%nat
      /\ ((INT_MIN <= id_count)%Z ->
          (id_count + Z.of_nat (length triangles) <= INT_MAX)%Z ->
          id_count' = (id_count + Z.of_nat (length triangles))%Z
          /\ forall k tr,
               nth_error triangles k = Some tr ->
               triangle_id tr = (id_count + Z.of_nat k)%Z).
Proof.
  induction vertices as [| a | a b | p0 p1 p2 rest IH] using list_ind3;
    intros i address id_count m range Hmod Hi Hmax;
    try (cbn in Hmod; discriminate).
  - cbn [mesh_triangles]. destruct (i <? 0)%Z;
      (exists [], id_count, range; split; [reflexivity |];
       split; [reflexivity |]; intros _ _; split;
       [cbn; lia | intros [| k] tr Hk; discriminate]).
  - assert (Hmod' : (length rest mod 3 = 0)%nat).
    { cbn [length] in Hmod.
      replace (S (S (S (length rest)))) with (length rest + 1 * 3)%nat in Hmod
        by lia.
      now rewrite Nat.Div0.mod_add in Hmod. }
    cbn [length] in Hmax.
    destruct (loop_index_fits i Hi) as (E0 & E2 & E3); [lia |].
    cbn [mesh_triangles]. rewrite E0, E2, E3. cbv zeta.
    destruct (IH (i + 3)%Z (S address) (int_add id_count 1) m
                (extend_range
                   (extend_range
                      (extend_range range (vscale mesh_scale p0))
                      (vscale mesh_scale p1))
                   (vscale mesh_scale p2)) Hmod')
      as (trs & id' & rg & -> & Hlen & Hids); [lia | lia |].
    eexists; eexists; eexists. split; [reflexivity |].
    cbn [length]. split; [lia |].
    intros Hmin Hcount.
    assert (E1 : int_add id_count 1 = (id_count + 1)%Z)
      by (apply int_wrap_id; lia).
    rewrite E1 in Hids.
    destruct Hids as (Hid & Hnth); [lia | lia |].
    split; [lia |].
    intros [| k] tr Hk; cbn [nth_error] in Hk.
    + inversion Hk; subst. cbn [triangle_id TrianglePrimitive_ctor]. lia.
    + rewrite (Hnth k tr Hk). lia.
Qed.

(** With vertices that do not come in threes the loop reads outside the
    vector. *)
Lemma mesh_triangles_none (vertices : list vec3) :
  forall (i : Z) (address : nat) (id_count : Z) (m : option WhittedMaterial)
         (range : evec3 * evec3),
    (length vertices mod 3 <> 0)%nat ->
    (0 <= i <= INT_MAX)%Z ->
    (i mod 3 = 0)%Z ->
    mesh_triangles sqrt i address id_count m range vertices = None.
Proof.
  induction vertices as [| a | a b | p0 p1 p2 rest IH] using list_ind3;
    intros i address id_count m range Hmod Hi Hi3;
    cbn [mesh_triangles];
    (assert (E0 : (i <? 0)%Z = false) by (apply Z.ltb_ge; lia));
    rewrite E0; try reflexivity.
  - cbn in Hmod. congruence.
  - assert (Hmod' : (length rest mod 3 <> 0)%nat).
    { cbn [length] in Hmod.
      replace (S (S (S (length rest)))) with (length rest + 1 * 3)%nat in Hmod
        by lia.
      now rewrite Nat.Div0.mod_add in Hmod. }
    destruct (int_add i 2 <? 0)%Z eqn:E2; [reflexivity |].
    cbv zeta.
    assert (Hfit : (i + 3 <= INT_MAX)%Z).
    { apply Z.ltb_ge in E2. unfold int_add, int_wrap, INT_MAX in *.
      change (2 ^ 31)%Z with 2147483648%Z in *.
      change (2 ^ 32)%Z with 4294967296%Z in *.
      destruct (Z_le_gt_dec (i + 3) 2147483647) as [Hle | Hgt];
        [exact Hle | exfalso].
      assert (Hcase : (i = 2147483645 \/ i = 2147483646 \/ i = 2147483647)%Z)
        by lia.
      destruct Hcase as [-> | [-> | ->]]; vm_compute in Hi3, E2;
        first [discriminate Hi3 | apply E2; reflexivity]. }
    destruct (loop_index_fits i (proj1 Hi) Hfit) as (_ & _ & E3).
    rewrite E3.
    rewrite (IH (i + 3)%Z (S address) (int_add id_count 1) m _ Hmod');
      [reflexivity | lia |].
    rewrite <- Z.add_mod_idemp_l by lia. rewrite Hi3. reflexivity.
Qed.

End MeshFacts.

Lemma contains_point_within (a b : AABB_3D) (p : xvec3) :
  AABB_within a b ->
  AABB.contains_point a p = true ->
  AABB.contains_point b p = true.
Proof.
  intros Hw.
  destruct (Hw X_axis) as [X1 X2], (Hw Y_axis) as [Y1 Y2],
    (Hw Z_axis) as [Z1 Z2].
  cbn [axis_component] in *.
  slabs. intros [[[? ?] [? ?]] [? ?]].
  repeat split;
    match goal with
    | H : f_le (Some _) ?p = true |- f_le (Some _) ?p = true =>
        refine (f_le_trans _ _ _ _ H); assumption
    | H : f_le ?p (Some _) = true |- f_le ?p (Some _) = true =>
        refine (f_le_trans _ _ _ H _); assumption
    end.
Qed.

(** The box of a triangle whose vertices the corners enclose lies within
    the box the constructor builds from the corners. *)
Lemma triangle_box_within_range (tr : TrianglePrimitive)
    (range : evec3 * evec3) :
  range_holds range (vertice_a tr) ->
  range_holds range (vertice_b tr) ->
  range_holds range (vertice_c tr) ->
  AABB_within (Triangle_Get3DAABB tr)
              (AABB.of_points (fst range) (snd range)).
Proof.
  intros Ha Hb Hc ax. destruct range as [lo hi].
  destruct (Ha ax) as [A1 A2], (Hb ax) as [B1 B2], (Hc ax) as [C1 C2].
  assert (Hlo : ext_leb (axis_component ax (vzip AABB.fmin lo hi))
                        (axis_component ax lo) = true)
    by (destruct ax; apply (glm_min_le_l _ _)).
  assert (Hhi : ext_leb (axis_component ax hi)
                        (axis_component ax (vzip AABB.fmax lo hi)) = true)
    by (destruct ax; apply (glm_max_ge_r _ _)).
  cbn [fst snd] in *.
  unfold Triangle_Get3DAABB, AABB.Union_with_point, AABB.of_points, point,
    some3, fin3.
  cbn [min_slab_values max_slab_values].
  split.
  - apply ext_leb_trans with (b := axis_component ax lo); [exact Hlo |].
    destruct ax; cbn [axis_component vzip vmap vx vy vz] in *;
      unfold AABB.glm_min;
      match goal with
      | |- context [if ?c then _ else _] => destruct c
      end; auto using ext_leb_fmin.
  - apply ext_leb_trans with (b := axis_component ax hi); [| exact Hhi].
    destruct ax; cbn [axis_component vzip vmap vx vy vz] in *;
      unfold AABB.glm_max;
      match goal with
      | |- context [if ?c then _ else _] => destruct c
      end; auto using ext_leb_fmax.
Qed.

Lemma BVH_ctor_returns {E : Type} `{Entity E}
    (std_sort : (E -> E -> bool) -> list E -> list E) (primitives : list E) :
  (forall cmp l, Permutation l (std_sort cmp l)) ->
  exists bvh,
    BVH_ctor std_sort primitives = Some bvh /\ m_primitives bvh = primitives.
Proof.
  intros Hperm. unfold BVH_ctor. destruct primitives as [| e0 rest].
  - eexists; split; reflexivity.
  - destruct (build_BVH_returns std_sort Hperm (length (e0 :: rest))
                (e0 :: rest)) as [tree ->]; [discriminate | lia |].
    eexists; split; reflexivity.
Qed.

(** X29 ([TriangleMesh::TriangleMesh]).  The constructor needs the loaded
    vertices to come in threes: otherwise its loop reads past the end of
    the vector.  When they do, and they are few enough for the loop index
    and the id counter to stay within [int], the mesh has one triangle for
    every three vertices; the triangles take consecutive ids from the
    counter, which ends advanced by their number, so no id is given twice;
    each triangle carries the material of the mesh; the box of the mesh
    encloses the box of every triangle; and the hierarchy of the mesh is
    built over exactly these triangles. *)
Theorem TriangleMesh_ctor_invariants (sqrt : Q -> Q)
    (std_sort : (TrianglePrimitive -> TrianglePrimitive -> bool) ->
                list TrianglePrimitive -> list TrianglePrimitive)
    (this storage : nat) (id_count : Z) (vertices : list vec3)
    (m : option WhittedMaterial) :
  std_sort_contract std_sort ->
  ((length vertices mod 3 <> 0)%nat ->
   TriangleMesh_ctor sqrt std_sort this storage id_count vertices m = None)
  /\ ((length vertices mod 3 = 0)%nat ->
      (Z.of_nat (length vertices) <= INT_MAX)%Z ->
      (INT_MIN <= id_count)%Z ->
      (id_count + Z.of_nat (length vertices / 3) <= INT_MAX)%Z ->
      exists mesh id_count',
        TriangleMesh_ctor sqrt std_sort this storage id_count vertices m
        = Some (mesh, id_count')
        /\ length vertices = (3 * length (triangle_primitives mesh))%nat
        /\ id_count'
           = (id_count + Z.of_nat (length (triangle_primitives mesh)))%Z
        /\ (forall k tr,
               nth_error (triangle_primitives mesh) k = Some tr ->
               triangle_id tr = (id_count + Z.of_nat k)%Z
               /\ triangle_this tr = (storage + k)%nat
               /\ material tr = m
               /\ AABB_within (Triangle_Get3DAABB tr) (bounding_AABB mesh))
        /\ exists bvh,
             mesh_bvh mesh = Some bvh
             /\ m_primitives bvh = triangle_primitives mesh).
Proof.
  intros Hsort.
  assert (Hperm : forall cmp l, Permutation l (std_sort cmp l))
    by (intros cmp l; apply Hsort).
  unfold TriangleMesh_ctor. split.
  - intros Hmod.
    rewrite (mesh_triangles_none sqrt vertices 0 storage id_count m
               (mkvec3 PInf PInf PInf, mkvec3 NInf NInf NInf) Hmod);
      [reflexivity | unfold INT_MAX; lia | reflexivity].
  - intros Hmod Hfew Hmin Hcount.
    destruct (mesh_triangles_in_range sqrt vertices 0 storage id_count m
                (mkvec3 PInf PInf PInf, mkvec3 NInf NInf NInf) Hmod)
      as (trs & id' & [lo hi] & Hm & Hlen & Hids); [lia | lia |].
    assert (Hthird : (length vertices / 3 = length trs)%nat).
    { rewrite Hlen, Nat.mul_comm. apply Nat.div_mul. discriminate. }
    rewrite Hthird in Hcount.
    destruct (Hids Hmin Hcount) as (Hid & Hidk).
    destruct (mesh_triangles_some sqrt vertices _ _ _ _ _ _ _ _ Hm)
      as (_ & Hnth).
    rewrite Hm.
    destruct (BVH_ctor_returns std_sort trs Hperm) as (bvh & -> & Hprim).
    eexists; eexists. split; [reflexivity |].
    cbn [triangle_primitives bounding_AABB mesh_bvh].
    split; [exact Hlen |]. split; [exact Hid |].
    split; [| exists bvh; split; [reflexivity | exact Hprim]].
    intros k tr Hk. destruct (Hnth k tr Hk) as (H2 & H3 & Ha & Hb & Hc).
    split; [exact (Hidk k tr Hk) |]. split; [exact H2 |].
    split; [exact H3 |].
    exact (triangle_box_within_range tr (lo, hi) Ha Hb Hc).
Qed.

Lemma TriangleMesh_ctor_invariants_witness :
  exists mesh id_count',
    TriangleMesh_ctor sqrt_floor stable_sort 0 10 1 square_vertices None
    = Some (mesh, id_count')
    /\ id_count' = 3%Z.
Proof.
  destruct (proj2 (TriangleMesh_ctor_invariants sqrt_floor stable_sort 0 10 1
                     square_vertices None
                     (stable_sort_contract TrianglePrimitive)) eq_refl)
    as (mesh & id' & Hc & Hlen & Hid & _);
    [unfold INT_MAX; cbn; lia | unfold INT_MIN; lia
     | unfold INT_MAX; cbn; lia |].
  exists mesh, id'. split; [exact Hc |].
  cbn [length square_vertices] in Hlen. lia.
Defined.

(** X30 ([TriangleMesh::GetIntersectionRecord], [TriangleMesh::Get3DAABB]).
    A mesh the constructor has built, whose triangles report hits below
    [DBL_MAX], answers a ray as an entity of a hierarchy should: with the
    default record when it is missed, and otherwise with the record one of
    its triangles gives, a hit at a positive parameter below [DBL_MAX], at
    a point inside the box of the mesh. *)
Theorem TriangleMesh_well_behaved (sqrt : Q -> Q)
    (std_sort : (TrianglePrimitive -> TrianglePrimitive -> bool) ->
                list TrianglePrimitive -> list TrianglePrimitive)
    (this storage : nat) (id_count id_count' : Z) (vertices : list vec3)
    (m : option WhittedMaterial) (mesh : TriangleMesh) (ray : Ray) :
  std_sort_contract std_sort ->
  TriangleMesh_ctor sqrt std_sort this storage id_count vertices m
  = Some (mesh, id_count') ->
  (forall tr,
      In tr (triangle_primitives mesh) ->
      IR.has_intersection (GetIntersectionRecord tr ray) = true ->
      IR.t (GetIntersectionRecord tr ray) < DBL_MAX) ->
  well_behaved mesh ray
  /\ (IR.has_intersection (GetIntersectionRecord mesh ray) = true ->
      0 < IR.t (GetIntersectionRecord mesh ray)
      /\ exists tr,
           In tr (triangle_primitives mesh)
           /\ GetIntersectionRecord mesh ray = GetIntersectionRecord tr ray).
Proof.
  intros Hsort Hctor Hmax.
  assert (Hperm : forall cmp l, Permutation l (std_sort cmp l))
    by (intros cmp l; apply Hsort).
  unfold TriangleMesh_ctor in Hctor.
  destruct (mesh_triangles sqrt 0 storage id_count m
              (mkvec3 PInf PInf PInf, mkvec3 NInf NInf NInf) vertices)
    as [[[trs id'] [lo hi]] |] eqn:Hm; [| discriminate].
  destruct (BVH_ctor std_sort trs) as [bvh |] eqn:Hb; [| discriminate].
  inversion Hctor; subst. clear Hctor.
  destruct (mesh_triangles_some sqrt vertices _ _ _ _ _ _ _ _ Hm)
    as (_ & Hnth).
  cbn [triangle_primitives] in Hmax.
  unfold well_behaved.
  cbn [GetIntersectionRecord Mesh_Entity Get3DAABB].
  unfold Mesh_GetIntersectionRecord, Mesh_Get3DAABB.
  cbn [mesh_bvh bounding_AABB triangle_primitives].
  destruct (traverse_root_reports std_sort trs bvh ray Hperm Hb)
    as [-> | (tr & Hin & ->)].
  { split; [reflexivity | discriminate]. }
  pose proof (Triangle_well_behaved tr ray (Hmax tr Hin)) as Hwb.
  unfold well_behaved in Hwb.
  destruct (In_nth_error _ _ Hin) as (k & Hk).
  destruct (Hnth k tr Hk) as (_ & _ & Ha & Hb' & Hc).
  pose proof (triangle_box_within_range tr (lo, hi) Ha Hb' Hc) as Hwithin.
  cbn [fst snd] in Hwithin.
  destruct (IR.has_intersection (GetIntersectionRecord tr ray)) eqn:Ehit.
  - destruct Hwb as (H0 & H1 & Hbox).
    split.
    + split; [exact H0 |]. split; [exact H1 |].
      exact (contains_point_within _ _ _ Hwithin Hbox).
    + intros _. split; [| exists tr; split; [exact Hin | reflexivity]].
      cbn [GetIntersectionRecord Triangle_Entity] in Ehit |- *.
      unfold Triangle_GetIntersectionRecord in Ehit |- *.
      rewrite RayTriangleIntersection_unfold in Ehit |- *.
      match type of Ehit with
      | context [if ?c then _ else _] => destruct c eqn:Ec
      end; [| discriminate].
      cbn [IR.t]. apply strictly_inside_iff in Ec. tauto.
  - split; [exact Hwb | discriminate].
Qed.

Lemma TriangleMesh_well_behaved_witness :
  exists mesh id_count',
    TriangleMesh_ctor sqrt_floor stable_sort 0 10 1 square_vertices None
    = Some (mesh, id_count')
    /\ well_behaved mesh ray_to_square.
Proof.
  destruct (TriangleMesh_ctor sqrt_floor stable_sort 0 10 1 square_vertices
              None) as [[mesh id'] |] eqn:Hc;
    [| vm_compute in Hc; discriminate].
  exists mesh, id'. split; [reflexivity |].
  apply (TriangleMesh_well_behaved sqrt_floor stable_sort 0 10 1 id'
           square_vertices None mesh ray_to_square
           (stable_sort_contract TrianglePrimitive) Hc).
  vm_compute in Hc. inversion Hc; subst. cbn [triangle_primitives].
  intros tr [<- | [<- | []]] Hhit;
    first [vm_compute; reflexivity | vm_compute in Hhit; discriminate Hhit].
Defined.
